(** * pimmp: library scanning, classification and busy accounting

    A shallow embedding of the Go sources of pimmp (main.go, library.go,
    media.go) together with the properties its specification states about
    them.

    Conventions of the embedding:
    - Go's fixed-width integers are [Z] with the wrap-around written out;
      [int] and [uint] are taken to be 64 bits wide.
    - A value of type [interface{}] is a [GoValue]: a dynamic type tag with
      its payload.  A type assertion [v.(T)] on a value whose tag is not [T]
      panics.
    - Functions of Go's standard library (strings.ToLower, path.Ext, ...)
      are fields of the class [GoLib]; every definition and theorem is
      stated for an arbitrary instance.
    - What the file system, the document store and the clock answer is not
      decided by the program.  The file system is an explicit tree, and the
      remaining answers are read from the oracles of the class [Env],
      indexed by the number of answers already consumed.
    - Calls that leave the program (handlers, log lines that report an
      error code, store operations, channel sends) are appended to an event
      log, oldest first. *)

From Stdlib Require Import ZArith Lia List Bool Ascii.
From stdpp Require Import base option list strings gmap fin_maps.

Local Open Scope Z_scope.

(* ===================================================================== *)
(** * Part I: the program                                                 *)
(* ===================================================================== *)

(** ** Machine integers *)

(** Reduction of an integer into the range of [uint64]. *)
Definition wrap64 (z : Z) : Z := z mod 2 ^ 64.

(** Reduction of an integer into the range of [uint32] ([os.FileMode]). *)
Definition wrap32 (z : Z) : Z := z mod 2 ^ 32.

(** The conversion [int(x)] of a [uint64]: the same 64 bits read in two's
    complement. *)
Definition int_of_uint64 (z : Z) : Z :=
  if z <? 2 ^ 63 then z else z - 2 ^ 64.

(** The conversion [int64(x)] of an integer: reduction into
    [-2^63, 2^63). *)
Definition wrapInt64 (z : Z) : Z := int_of_uint64 (wrap64 z).

(** ** Go's standard library

    The functions of Go's standard library that the sources call, and one
    constant of the repository that is declared outside the given sources
    ([defaultTimeLayout]).  Every definition below is parametric in them. *)
Class GoLib : Type := {
  (** [strings.ToLower] *)
  strings_ToLower : string -> string;
  (** [path.Ext] *)
  path_Ext : string -> string;
  (** [path.Join] of two elements *)
  path_Join : string -> string -> string;
  (** [filepath.Rel]; [None] is the error result *)
  filepath_Rel : string -> string -> option string;
  (** the integer part of a [float64], given by its IEEE-754 bits *)
  float64_trunc : Z -> Z;
  (** [time.Parse layout value]; [None] is the error result *)
  time_Parse : string -> string -> option Z;
  (** the layout constant the record readers pass to [time.Parse] *)
  defaultTimeLayout : string
}.

(** A sample instance on ASCII strings and slash-separated paths, used to
    run the definitions on concrete inputs. *)
Definition asciiLowerChar (c : Ascii.ascii) : Ascii.ascii :=
  let n := Ascii.N_of_ascii c in
  if ((65 <=? n) && (n <=? 90))%N then Ascii.ascii_of_N (n + 32) else c.

Fixpoint asciiLower (s : string) : string :=
  match s with
  | EmptyString => EmptyString
  | String c r => String (asciiLowerChar c) (asciiLower r)
  end.

(** [extScan s] is [(slash, e)]: whether [s] holds a slash, and the suffix
    of the last slash-separated element of [s] starting at its final dot. *)
Fixpoint extScan (s : string) : bool * option string :=
  match s with
  | EmptyString => (false, None)
  | String c r =>
      let '(slash, e) := extScan r in
      if slash then (true, e)
      else match e with
           | Some _ => (Ascii.eqb c "/"%char, e)
           | None =>
               if Ascii.eqb c "."%char then (false, Some s)
               else (Ascii.eqb c "/"%char, None)
           end
  end.

Definition slashExt (s : string) : string := default EmptyString (extScan s).2.

(** [stripPrefix p s] is what follows the prefix [p] in [s]; [slashRel] is
    the path of [target] relative to the directory [base] above it. *)
Fixpoint stripPrefix (p s : string) : option string :=
  match p, s with
  | EmptyString, _ => Some s
  | String a p', String b s' =>
      if Ascii.eqb a b then stripPrefix p' s' else None
  | String _ _, EmptyString => None
  end.

Definition slashRel (base target : string) : option string :=
  match stripPrefix base target with
  | Some EmptyString => Some "."%string
  | Some (String c r) => if Ascii.eqb c "/"%char then Some r else None
  | None => None
  end.

(** The sample instance.  It reads the bits of a [float64] as the integer
    itself and parses no time, which is enough for the inputs below. *)
Definition sampleGo : GoLib := {|
  strings_ToLower := asciiLower;
  path_Ext := slashExt;
  path_Join := fun a b => (a +:+ "/" +:+ b)%string;
  filepath_Rel := slashRel;
  float64_trunc := fun bits => bits;
  time_Parse := fun _ _ => None;
  defaultTimeLayout := "2006-01-02T15:04:05Z07:00"%string
|}.

(** ** Classification tables (media.go) *)

(** [type ExtTable map[string][]string].  A Go map is ranged over in an
    order the language leaves open: the table is the list of its entries in
    the order a [range] loop yields them. *)
Definition ExtTable : Type := list (string * list string).

(** [func kindOfFileExt(table *ExtTable, ext string) (string, bool)] *)
Fixpoint kindOfFileExt (table : ExtTable) (ext : string) : string * bool :=
  match table with
  | [] => (EmptyString, false)
  | (n, l) :: rest =>
      if existsb (fun e => String.eqb e ext) l then (n, true)
      else kindOfFileExt rest ext
  end.

(** [type MediaKind int] and its values. *)
Definition MediaKind : Type := Z.
Definition mkUnknown : MediaKind := -1.
Definition mkAudio : MediaKind := 0.
Definition mkVideo : MediaKind := 1.
Definition mkCOUNT : MediaKind := 2.

(** [type MediaSupportKind int] and its values. *)
Definition MediaSupportKind : Type := Z.
Definition mskUnknown : MediaSupportKind := -1.
Definition mskSubtitles : MediaSupportKind := 0.

(** [type MediaExt struct] *)
Record MediaExt : Type := mkMediaExt {
  me_kind : MediaKind;
  me_table : ExtTable
}.

(** [type MediaSupportExt struct] *)
Record MediaSupportExt : Type := mkMediaSupportExt {
  mse_kind : MediaSupportKind;
  mse_table : ExtTable
}.

(** [var audioExt], entries in the order of the source text. *)
Definition audioExt : MediaExt := mkMediaExt mkAudio ([
  ("3D Solar UK Ltd", [".ivs"]);
  ("ACT Lossy ADPCM", [".act"]);
  ("Adaptive Multi-Rate", [".amr"]);
  ("Adaptive Multi-Rate Wideband", [".awb"]);
  ("Advanced Audio Coding", [".aac"]);
  ("Apple AIFF", [".aiff"]);
  ("Audible Audiobook", [".aa"; ".aax"]);
  ("Dialogic ADPCM", [".vox"]);
  ("Digital Speech Standard", [".dss"]);
  ("Electronic Arts IFF-8SVX", [".8svx"]);
  ("Free Lossless Audio Codec", [".flac"]);
  ("GSM Telephony", [".gsm"]);
  ("iKlax Media", [".iklax"]);
  ("Linear PCM", [".sln"]);
  ("Microsoft WAV", [".wav"]);
  ("Microsoft Windows Media Audio", [".wma"]);
  ("Monkey's Audio", [".ape"]);
  ("MPEG Layer III", [".mp3"]);
  ("MPEG-4 Part 14", [".m4a"; ".m4b"]);
  ("Musepack/MPC/MPEG", [".mpc"]);
  ("NCH Dictation", [".dct"]);
  ("Nintendo (NES) Sound Format", [".nsf"]);
  ("Ogg Audio", [".oga"; ".mogg"]);
  ("Opus", [".opus"]);
  ("RAW Audio Format", [".raw"]);
  ("RealAudio", [".ra"]);
  ("Samsung Yamaha Ringtone", [".mmf"]);
  ("Sony Compressed Voice", [".dvf"; ".msv"]);
  ("Sun/Unix/Java Audio", [".au"]);
  ("True Audio Lossless", [".tta"]);
  ("WavPack", [".wv"])
]%string).

(** [var videoExt], entries in the order of the source text. *)
Definition videoExt : MediaExt := mkMediaExt mkVideo ([
  ("3GPP", [".3gp"]);
  ("3GPP2", [".3g2"]);
  ("Advanced Systems Format", [".asf"]);
  ("AMV video format", [".amv"]);
  ("Audio Video Interleave", [".avi"]);
  ("Dirac", [".drc"]);
  ("Flash Video", [".flv"; ".f4v"; ".f4p"; ".f4a"; ".f4b"]);
  ("Graphics Interchange Format Video", [".gifv"]);
  ("Material Exchange Format", [".mxf"]);
  ("Matroska", [".mkv"]);
  ("MPEG Transport Stream", [".mts"; ".m2ts"]);
  ("MPEG-1", [".mp2"; ".mpe"; ".mpv"]);
  ("MPEG-1/MPEG-2", [".mpg"; ".mpeg"]);
  ("MPEG-2", [".m2v"]);
  ("MPEG-4 Part 14", [".mp4"; ".m4p"; ".m4v"]);
  ("Multiple-image Network Graphics", [".mng"]);
  ("Nullsoft Streaming Video", [".nsv"]);
  ("Ogg Video", [".ogv"; ".ogg"]);
  ("QuickTime File Format", [".mov"; ".qt"]);
  ("Raw video format", [".yuv"]);
  ("RealMedia", [".rm"]);
  ("RealMedia Variable Bitrate", [".rmvb"]);
  ("RoQ FMV", [".roq"]);
  ("Standardized Video Interview", [".svi"]);
  ("Video Object", [".vob"]);
  ("WebM", [".webm"]);
  ("Windows Media Video", [".wmv"])
]%string).

(** [var subsExt], entries in the order of the source text. *)
Definition subsExt : MediaSupportExt := mkMediaSupportExt mskSubtitles ([
  ("AQTitle", [".aqt"]);
  ("CVD", [".cvd"]);
  ("DKS", [".dks"]);
  ("Gloss Subtitle", [".gsub"]);
  ("JACOSub", [".jss"]);
  ("MPL2", [".mpl"]);
  ("Phoenix Subtitle", [".pjs"]);
  ("PowerDivX", [".psb"]);
  ("RealText / SMIL", [".rt"]);
  ("SAMI", [".smi"]);
  ("SubRip", [".srt"]);
  ("SubStation Alpha", [".ssa"]);
  ("Advanced SubStation Alpha", [".ass"]);
  ("Structured Subtitle Format", [".ssf"]);
  ("Spruce subtitle format", [".stl"]);
  ("MicroDVD", [".sub"]);
  ("MPSub", [".sub"]);
  ("SubViewer", [".sub"]);
  ("VobSub", [".sub"; ".idx"]);
  ("SVCD", [".svcd"]);
  ("MPEG-4 Timed Text", [".ttxt"]);
  ("Universal Subtitle Format", [".usf"])
]%string).

(** The loop of [mediaKindOfFileExt] over the slice of [MediaExt]. *)
Fixpoint mediaKindLoop (ms : list MediaExt) (extLower : string)
  : MediaKind * string :=
  match ms with
  | [] => (mkUnknown, EmptyString)
  | m :: rest =>
      let '(n, ok) := kindOfFileExt (me_table m) extLower in
      if ok then (me_kind m, n) else mediaKindLoop rest extLower
  end.

(** The loop of [mediaSupportKindOfFileExt] over the slice of
    [MediaSupportExt]. *)
Fixpoint mediaSupportKindLoop (ms : list MediaSupportExt) (extLower : string)
  : MediaSupportKind * string :=
  match ms with
  | [] => (mskUnknown, EmptyString)
  | m :: rest =>
      let '(n, ok) := kindOfFileExt (mse_table m) extLower in
      if ok then (mse_kind m, n) else mediaSupportKindLoop rest extLower
  end.

(** [mediaKindOfFileExt] with the order in which the two maps are ranged
    over made explicit: [a] lists the entries of the audio table, [v] those
    of the video table. *)
Definition mediaKindOfFileExtIn {go : GoLib} (a v : ExtTable) (ext : string)
  : MediaKind * string :=
  let extLower := strings_ToLower ext in
  mediaKindLoop [mkMediaExt (me_kind audioExt) a;
                 mkMediaExt (me_kind videoExt) v] extLower.

(** [func mediaKindOfFileExt(ext string) (MediaKind, string)] *)
Definition mediaKindOfFileExt {go : GoLib} (ext : string) : MediaKind * string :=
  mediaKindOfFileExtIn (me_table audioExt) (me_table videoExt) ext.

(** [mediaSupportKindOfFileExt] with the order in which the map is ranged
    over made explicit. *)
Definition mediaSupportKindOfFileExtIn {go : GoLib} (s : ExtTable) (ext : string)
  : MediaSupportKind * string :=
  let extLower := strings_ToLower ext in
  mediaSupportKindLoop [mkMediaSupportExt (mse_kind subsExt) s] extLower.

(** [func mediaSupportKindOfFileExt(ext string) (MediaSupportKind, string)] *)
Definition mediaSupportKindOfFileExt {go : GoLib} (ext : string)
  : MediaSupportKind * string :=
  mediaSupportKindOfFileExtIn (mse_table subsExt) ext.

(** Membership of an extension in a table, and the type names a table
    gives to an extension. *)
Definition inTable (t : ExtTable) (e : string) : Prop :=
  exists n l, (n, l) ∈ t /\ e ∈ l.

Definition namedIn (t : ExtTable) (e n : string) : Prop :=
  exists l, (n, l) ∈ t /\ e ∈ l.

(** ** Dynamic values and outcomes *)

(** [type Subtitles struct] (media.go), over the type [V] of the values an
    [interface{}] field can hold. *)
Record SubtitlesOf (V : Type) : Type := mkSubtitles {
  sub_absPath : string;
  sub_relPath : string;
  sub_size : Z;
  sub_mode : Z;
  sub_timeModified : Z;
  sub_sysInfo : V;
  sub_ext : string;
  sub_extName : string
}.
Arguments mkSubtitles {V}.
Arguments sub_absPath {V}.
Arguments sub_relPath {V}.
Arguments sub_size {V}.
Arguments sub_mode {V}.
Arguments sub_timeModified {V}.
Arguments sub_sysInfo {V}.
Arguments sub_ext {V}.
Arguments sub_extName {V}.

#[local] Set Warnings "-register-all".

(** A value of type [interface{}]: its dynamic type and its payload.  A
    [time.Time] is a number of nanoseconds, 0 for the zero time; a
    [float64] is given by its IEEE-754 bits; [VOther] stands for a value of
    any other dynamic type. *)
Inductive GoValue : Type :=
| VNil
| VString (s : string)
| VInt (z : Z)
| VInt64 (z : Z)
| VFloat64 (bits : Z)
| VFileMode (m : Z)
| VMediaKind (k : Z)
| VTime (t : Z)
| VSubtitles (s : SubtitlesOf GoValue)
| VSubtitlesSlice (l : list (SubtitlesOf GoValue))
| VSlice (l : list GoValue)
| VOther (tag : Z).

Definition Subtitles : Type := SubtitlesOf GoValue.

(** The zero value [Subtitles{}]. *)
Definition zeroSubtitles : Subtitles :=
  mkSubtitles EmptyString EmptyString 0 0 0 VNil EmptyString EmptyString.

(** How a call ends: it returns, or it panics (with the record key at
    which it did). *)
Inductive Outcome (A : Type) : Type :=
| Returned (a : A)
| Panicked (key : string).
Arguments Returned {A}.
Arguments Panicked {A}.

Definition obind {A B : Type} (o : Outcome A) (k : A -> Outcome B)
  : Outcome B :=
  match o with
  | Returned a => k a
  | Panicked key => Panicked key
  end.

(** The type assertions [v.(string)], [v.(float64)], [v.(int)] and
    [v.([]interface{})], and [s.(Subtitles)]. *)
Definition assertString (v : GoValue) : option string :=
  match v with VString s => Some s | _ => None end.

Definition assertFloat64 (v : GoValue) : option Z :=
  match v with VFloat64 b => Some b | _ => None end.

Definition assertInt (v : GoValue) : option Z :=
  match v with VInt z => Some z | _ => None end.

Definition assertSlice (v : GoValue) : option (list GoValue) :=
  match v with VSlice l => Some l | _ => None end.

Definition assertSubtitles (v : GoValue) : option Subtitles :=
  match v with VSubtitles s => Some s | _ => None end.

(** [type MediaRecord map[string]interface{}] *)
Abbreviation MediaRecord := (gmap string GoValue).

(** One step of a record reader:
    [v, ok = r[key]; if ok { m.f = conv(v.(T)) }]. *)
Definition readField {M T : Type} (r : MediaRecord) (key : string)
    (assert : GoValue -> option T) (store : T -> M -> M) (m : M)
  : Outcome M :=
  match r !! key with
  | None => Returned m
  | Some v =>
      match assert v with
      | Some x => Returned (store x m)
      | None => Panicked key
      end
  end.

(** ** Entities (media.go) *)

(** What [os.FileInfo] answers for a file. *)
Record FileInfo : Type := mkFileInfo {
  fi_Name : string;
  fi_Size : Z;
  fi_Mode : Z;
  fi_ModTime : Z;
  fi_Sys : GoValue
}.

Module Media.

(** [type Media struct] *)
Record t : Type := mk {
  absPath : string;
  relPath : string;
  size : Z;
  mode : Z;
  timeModified : Z;
  sysInfo : GoValue;
  kind : MediaKind;
  ext : string;
  extName : string;
  name : string;
  timeAdded : Z;
  playbackCommand : string;
  title : string;
  description : string;
  releaseDate : Z
}.

(** The zero value [Media{}]. *)
Definition zero : t :=
  mk EmptyString EmptyString 0 0 0 VNil 0 EmptyString EmptyString
     EmptyString 0 EmptyString EmptyString EmptyString 0.

(** The assignments to the fields of a [Media]. *)
Definition set_absPath (x : string) (m : t) : t :=
  mk x (relPath m) (size m) (mode m) (timeModified m) (sysInfo m) (kind m)
    (ext m) (extName m) (name m) (timeAdded m) (playbackCommand m) (title m)
    (description m) (releaseDate m).

Definition set_relPath (x : string) (m : t) : t :=
  mk (absPath m) x (size m) (mode m) (timeModified m) (sysInfo m) (kind m)
    (ext m) (extName m) (name m) (timeAdded m) (playbackCommand m) (title m)
    (description m) (releaseDate m).

Definition set_size (x : Z) (m : t) : t :=
  mk (absPath m) (relPath m) x (mode m) (timeModified m) (sysInfo m)
    (kind m) (ext m) (extName m) (name m) (timeAdded m) (playbackCommand m)
    (title m) (description m) (releaseDate m).

Definition set_mode (x : Z) (m : t) : t :=
  mk (absPath m) (relPath m) (size m) x (timeModified m) (sysInfo m)
    (kind m) (ext m) (extName m) (name m) (timeAdded m) (playbackCommand m)
    (title m) (description m) (releaseDate m).

Definition set_timeModified (x : Z) (m : t) : t :=
  mk (absPath m) (relPath m) (size m) (mode m) x (sysInfo m) (kind m)
    (ext m) (extName m) (name m) (timeAdded m) (playbackCommand m) (title m)
    (description m) (releaseDate m).

Definition set_sysInfo (x : GoValue) (m : t) : t :=
  mk (absPath m) (relPath m) (size m) (mode m) (timeModified m) x (kind m)
    (ext m) (extName m) (name m) (timeAdded m) (playbackCommand m) (title m)
    (description m) (releaseDate m).

Definition set_kind (x : MediaKind) (m : t) : t :=
  mk (absPath m) (relPath m) (size m) (mode m) (timeModified m) (sysInfo m)
    x (ext m) (extName m) (name m) (timeAdded m) (playbackCommand m)
    (title m) (description m) (releaseDate m).

Definition set_ext (x : string) (m : t) : t :=
  mk (absPath m) (relPath m) (size m) (mode m) (timeModified m) (sysInfo m)
    (kind m) x (extName m) (name m) (timeAdded m) (playbackCommand m)
    (title m) (description m) (releaseDate m).

Definition set_extName (x : string) (m : t) : t :=
  mk (absPath m) (relPath m) (size m) (mode m) (timeModified m) (sysInfo m)
    (kind m) (ext m) x (name m) (timeAdded m) (playbackCommand m) (title m)
    (description m) (releaseDate m).

Definition set_name (x : string) (m : t) : t :=
  mk (absPath m) (relPath m) (size m) (mode m) (timeModified m) (sysInfo m)
    (kind m) (ext m) (extName m) x (timeAdded m) (playbackCommand m)
    (title m) (description m) (releaseDate m).

Definition set_timeAdded (x : Z) (m : t) : t :=
  mk (absPath m) (relPath m) (size m) (mode m) (timeModified m) (sysInfo m)
    (kind m) (ext m) (extName m) (name m) x (playbackCommand m) (title m)
    (description m) (releaseDate m).

Definition set_playbackCommand (x : string) (m : t) : t :=
  mk (absPath m) (relPath m) (size m) (mode m) (timeModified m) (sysInfo m)
    (kind m) (ext m) (extName m) (name m) (timeAdded m) x (title m)
    (description m) (releaseDate m).

Definition set_title (x : string) (m : t) : t :=
  mk (absPath m) (relPath m) (size m) (mode m) (timeModified m) (sysInfo m)
    (kind m) (ext m) (extName m) (name m) (timeAdded m) (playbackCommand m)
    x (description m) (releaseDate m).

Definition set_description (x : string) (m : t) : t :=
  mk (absPath m) (relPath m) (size m) (mode m) (timeModified m) (sysInfo m)
    (kind m) (ext m) (extName m) (name m) (timeAdded m) (playbackCommand m)
    (title m) x (releaseDate m).

Definition set_releaseDate (x : Z) (m : t) : t :=
  mk (absPath m) (relPath m) (size m) (mode m) (timeModified m) (sysInfo m)
    (kind m) (ext m) (extName m) (name m) (timeAdded m) (playbackCommand m)
    (title m) (description m) x.

End Media.

(** [func newMedia(...) *Media]; [now] is what [time.Now()] answers. *)
Definition newMedia (absPath relPath : string) (kind : MediaKind)
    (ext extName : string) (info : FileInfo) (now : Z) : Media.t :=
  {| Media.absPath := absPath;
     Media.relPath := relPath;
     Media.size := fi_Size info;
     Media.mode := fi_Mode info;
     Media.timeModified := fi_ModTime info;
     Media.sysInfo := fi_Sys info;
     Media.kind := kind;
     Media.ext := ext;
     Media.extName := extName;
     Media.name := fi_Name info;
     Media.timeAdded := now;
     Media.playbackCommand := "--";
     Media.title := fi_Name info;
     Media.description := "--";
     Media.releaseDate := 0 |}.

(** The part of a record reader that [AudioMedia] and [VideoMedia] share:
    the fifteen fields of the embedded [Media], in the order of the
    source. *)
Definition readMedia {go : GoLib} (r : MediaRecord) (m : Media.t)
  : Outcome Media.t :=
  let parse (s : string) : Z := default 0 (time_Parse defaultTimeLayout s) in
  let int64 (b : Z) : Z := wrapInt64 (float64_trunc b) in
  let fileMode (b : Z) : Z := wrap32 (float64_trunc b) in
  obind (readField r "absPath" assertString Media.set_absPath m) (fun m =>
  obind (readField r "relPath" assertString Media.set_relPath m) (fun m =>
  obind (readField r "size" assertFloat64
           (fun b => Media.set_size (int64 b)) m) (fun m =>
  obind (readField r "mode" assertFloat64
           (fun b => Media.set_mode (fileMode b)) m) (fun m =>
  obind (readField r "timeModified" assertString
           (fun s => Media.set_timeModified (parse s)) m) (fun m =>
  obind (readField r "sysInfo" Some Media.set_sysInfo m) (fun m =>
  obind (readField r "kind" assertFloat64
           (fun b => Media.set_kind (int64 b)) m) (fun m =>
  obind (readField r "ext" assertString Media.set_ext m) (fun m =>
  obind (readField r "extName" assertString Media.set_extName m) (fun m =>
  obind (readField r "name" assertString Media.set_name m) (fun m =>
  obind (readField r "timeAdded" assertString
           (fun s => Media.set_timeAdded (parse s)) m) (fun m =>
  obind (readField r "playbackCommand" assertString
           Media.set_playbackCommand m) (fun m =>
  obind (readField r "title" assertString Media.set_title m) (fun m =>
  obind (readField r "description" assertString
           Media.set_description m) (fun m =>
  readField r "releaseDate" assertString
           (fun s => Media.set_releaseDate (parse s)) m)))))))))))))).

(** The fifteen entries both [toRecord] methods write for the embedded
    [Media]. *)
Definition mediaEntries (md : Media.t) : list (string * GoValue) :=
     [("absPath"%string, VString (Media.absPath md));
      ("relPath"%string, VString (Media.relPath md));
      ("size"%string, VInt64 (Media.size md));
      ("mode"%string, VFileMode (Media.mode md));
      ("timeModified"%string, VTime (Media.timeModified md));
      ("sysInfo"%string, Media.sysInfo md);
      ("kind"%string, VMediaKind (Media.kind md));
      ("ext"%string, VString (Media.ext md));
      ("extName"%string, VString (Media.extName md));
      ("name"%string, VString (Media.name md));
      ("timeAdded"%string, VTime (Media.timeAdded md));
      ("playbackCommand"%string, VString (Media.playbackCommand md));
      ("title"%string, VString (Media.title md));
      ("description"%string, VString (Media.description md));
      ("releaseDate"%string, VTime (Media.releaseDate md))].

Module AudioMedia.

(** [type AudioMedia struct]; [media] is the embedded [*Media], [None]
    for a nil pointer. *)
Record t : Type := mk {
  media : option Media.t;
  album : string;
  track : Z
}.

(** The zero value [AudioMedia{}]. *)
Definition zero : t := mk None EmptyString 0.

(** [func (m *AudioMedia) toRecord() *MediaRecord].  Reading a field of
    the embedded [Media] through a nil pointer panics. *)
Definition toRecord (m : t) : Outcome MediaRecord :=
  match media m with
  | None => Panicked "absPath"
  | Some md =>
      Returned (list_to_map (mediaEntries md ++
                  [("album"%string, VString (album m));
                   ("track"%string, VInt (track m))]))
  end.

(** [func (m *AudioMedia) fromRecord(r MediaRecord)] *)
Definition fromRecord {go : GoLib} (m : t) (r : MediaRecord) : Outcome t :=
  let md := default Media.zero (media m) in
  obind (readMedia r md) (fun md =>
  let m := mk (Some md) (album m) (track m) in
  obind (readField r "album" assertString
           (fun x m => mk (media m) x (track m)) m) (fun m =>
  readField r "track" assertInt (fun x m => mk (media m) (album m) x) m)).

End AudioMedia.

Module VideoMedia.

(** [type VideoMedia struct] *)
Record t : Type := mk {
  media : option Media.t;
  knownSubtitles : list Subtitles;
  subtitles : Subtitles
}.

(** The zero value [VideoMedia{}]. *)
Definition zero : t := mk None [] zeroSubtitles.

(** [func (m *VideoMedia) toRecord() *MediaRecord] *)
Definition toRecord (m : t) : Outcome MediaRecord :=
  match media m with
  | None => Panicked "absPath"
  | Some md =>
      Returned (list_to_map (mediaEntries md ++
                  [("knownSubtitles"%string,
                      VSubtitlesSlice (knownSubtitles m));
                   ("subtitles"%string, VSubtitles (subtitles m))]))
  end.

(** The loop [for _, s := range v.([]interface{}) { subs = append(subs,
    s.(Subtitles)) }]; [None] when an assertion fails. *)
Fixpoint assertEach (l : list GoValue) : option (list Subtitles) :=
  match l with
  | [] => Some []
  | v :: rest =>
      match assertSubtitles v, assertEach rest with
      | Some s, Some ss => Some (s :: ss)
      | _, _ => None
      end
  end.

(** [func (m *VideoMedia) fromRecord(r MediaRecord)].  The value under
    ["subtitles"] is looked up and not used. *)
Definition fromRecord {go : GoLib} (m : t) (r : MediaRecord) : Outcome t :=
  let md := default Media.zero (media m) in
  obind (readMedia r md) (fun md =>
  let m := mk (Some md) (knownSubtitles m) (subtitles m) in
  obind (readField r "knownSubtitles"
           (fun v => l ← assertSlice v; assertEach l)
           (fun x m => mk (media m) x (subtitles m)) m) (fun m =>
  readField r "subtitles" (fun _ => Some tt) (fun _ m => m) m)).

End VideoMedia.

(** [func newAudioMedia(...) *AudioMedia] *)
Definition newAudioMedia (absPath relPath ext extName : string)
    (info : FileInfo) (now : Z) : AudioMedia.t :=
  AudioMedia.mk
    (Some (newMedia absPath relPath mkAudio ext extName info now))
    EmptyString (-1).

(** [func newVideoMedia(...) *VideoMedia] *)
Definition newVideoMedia (absPath relPath ext extName : string)
    (info : FileInfo) (now : Z) : VideoMedia.t :=
  VideoMedia.mk
    (Some (newMedia absPath relPath mkVideo ext extName info now))
    [] zeroSubtitles.

(** [func newSubtitles(...) *Subtitles] *)
Definition newSubtitles (absPath relPath ext extName : string)
    (info : FileInfo) : Subtitles :=
  mkSubtitles absPath relPath (fi_Size info) (fi_Mode info)
    (fi_ModTime info) (fi_Sys info) ext extName.

(** ** Busy accounting (main.go) *)

Module BusyState.

(** [type BusyState struct].  The unbuffered channel [changed] is the list
    of the values sent on it so far, oldest first: every send is taken to
    be received by the observer of the channel. *)
Record t : Type := mk {
  changed : list Z;
  busyCount : Z;
  busyCycle : Z
}.

(** [func newBusyState() *BusyState] *)
Definition newBusyState : t :=
  {| changed := []; busyCount := 0; busyCycle := 0 |}.

(** [func (s *BusyState) count() int] *)
Definition count (s : t) : Z := int_of_uint64 (busyCount s).

(** [func (s *BusyState) reset()]: [atomic.StoreUint64(&s.busyCycle, 0)]. *)
Definition reset (s : t) : t :=
  {| changed := changed s; busyCount := busyCount s; busyCycle := 0 |}.

(** [func (s *BusyState) inc() int]: [atomic.AddUint64(&s.busyCount, 1)],
    the send of the new count, and the reset when the new count is 1. *)
Definition inc (s : t) : t * Z :=
  let newCount := wrap64 (busyCount s + 1) in
  let s1 := {| changed := changed s ++ [newCount];
               busyCount := newCount;
               busyCycle := busyCycle s |} in
  let s2 := if 1 =? newCount then reset s1 else s1 in
  (s2, int_of_uint64 newCount).

(** [func (s *BusyState) dec() int]:
    [atomic.AddUint64(&s.busyCount, ^uint64(0))], the send of the new
    count, and the reset when the new count is 0. *)
Definition dec (s : t) : t * Z :=
  let newCount := wrap64 (busyCount s + Z.ones 64) in
  let s1 := {| changed := changed s ++ [newCount];
               busyCount := newCount;
               busyCycle := busyCycle s |} in
  let s2 := if 0 =? newCount then reset s1 else s1 in
  (s2, int_of_uint64 newCount).

(** [func (s *BusyState) cycle() int] *)
Definition cycle (s : t) : Z := int_of_uint64 (busyCycle s).

(** [func (s *BusyState) next() int] *)
Definition next (s : t) : t * Z :=
  let c := wrap64 (busyCycle s + 1) in
  ({| changed := changed s; busyCount := busyCount s; busyCycle := c |},
   int_of_uint64 c).

(** The fields hold values of type [uint64]. *)
Definition wf (s : t) : Prop :=
  0 <= busyCount s < 2 ^ 64 /\ 0 <= busyCycle s < 2 ^ 64.

End BusyState.

(** ** Return codes, classes and kinds *)

(** Modelled from the spec: [ReturnCode] and its values are declared outside
    the given sources; the spec's error taxonomy names them.  The text a
    code carries ([specf]) is left out. *)
Inductive ReturnCode : Type :=
| rcOK | rcUsage | rcInvalidArgs | rcInvalidConfig
| rcInvalidLibrary | rcDuplicateLibrary | rcLibraryBusy
| rcInvalidPath | rcInvalidStat | rcDirDepth | rcDirOpen
| rcInvalidFile | rcDatabaseError.

(** Modelled from the spec: [EntityClass] and [SupportKind] are declared
    outside the given sources; the spec gives two classes (media, support),
    the kinds of each, and a sentinel for unknown on both axes.  The values
    follow the pattern of [MediaKind]; library.go fixes media = 0 and
    support = 1 by the order of [indexRef]. *)
Definition EntityClass : Type := Z.
Definition ecUnknown : EntityClass := -1.
Definition ecMedia : EntityClass := 0.
Definition ecSupport : EntityClass := 1.
Definition ecCOUNT : EntityClass := 2.

Definition SupportKind : Type := Z.
Definition skUnknown : SupportKind := -1.
Definition skSubtitles : SupportKind := 0.

(** Modelled from the spec: [supportKindOfFileExt], which library.go calls,
    is declared outside the given sources; the spec describes one lookup in
    the single subtitle table, which is what [mediaSupportKindOfFileExt] of
    media.go does. *)
Definition supportKindOfFileExt {go : GoLib} (ext : string) : SupportKind * string :=
  mediaSupportKindOfFileExt ext.

(** [const depthUnlimited], [const maxLibraryScanners] (library.go) *)
Definition depthUnlimited : Z := 0.
Definition maxLibraryScanners : Z := 1.

(** The bits of [os.FileMode] that [scanDive] tests. *)
Definition ModeDir : Z := Z.shiftl 1 31.
Definition ModeSymlink : Z := Z.shiftl 1 27.
Definition ModeDevice : Z := Z.shiftl 1 26.
Definition ModeNamedPipe : Z := Z.shiftl 1 25.
Definition ModeSocket : Z := Z.shiftl 1 24.
Definition ModeCharDevice : Z := Z.shiftl 1 21.

(** ** The file system *)

(** What the file system holds at a path: nothing that [os.Lstat] can
    describe, or an entry with its [FileInfo] and, for a directory, what
    opening and listing it yields ([None] when either fails), each name
    with the entry it leads to. *)
Inductive FsNode : Type :=
| FsMissing
| FsEntry (info : FileInfo) (listing : option (list (string * FsNode))).

(** ** The index and the event log *)

(** A typed entity, as a handler receives it. *)
Inductive Entity : Type :=
| EAudio (a : AudioMedia.t)
| EVideo (v : VideoMedia.t)
| ESubtitles (s : Subtitles).

(** Modelled from the spec: the record of a [Subtitles] is written by code
    outside the given sources; the spec gives a subtitle the common
    attributes only, stored under the keys of the media records. *)
Definition subtitlesRecord (s : Subtitles) : MediaRecord :=
  list_to_map
    [("absPath"%string, VString (sub_absPath s));
     ("relPath"%string, VString (sub_relPath s));
     ("size"%string, VInt64 (sub_size s));
     ("mode"%string, VFileMode (sub_mode s));
     ("timeModified"%string, VTime (sub_timeModified s));
     ("sysInfo"%string, sub_sysInfo s);
     ("ext"%string, VString (sub_ext s));
     ("extName"%string, VString (sub_extName s))].

(** Modelled from the spec: [Database] is declared outside the given
    sources.  The spec gives one document collection per (class, kind),
    documents with a store-assigned integer ID, and per collection a count
    of the records added by load and by scan.  A collection is the list of
    its documents in the order [ForEachDoc] visits them. *)
Record Database : Type := mkDatabase {
  col : gmap (Z * Z) (list (Z * MediaRecord));
  numRecordsLoad : gmap (Z * Z) Z;
  numRecordsScan : gmap (Z * Z) Z
}.

(** The documents of the collection [col[class][kind]]. *)
Definition docsOf (d : Database) (class kind : Z) : list (Z * MediaRecord) :=
  default [] (col d !! (class, kind)).

(** The (class, kind) pairs the count arrays are indexed by. *)
Definition collections : list (Z * Z) :=
  [(ecMedia, mkAudio); (ecMedia, mkVideo); (ecSupport, skSubtitles)].

(** Modelled from the spec: the equality query of the store on an indexed
    field: the IDs of the documents whose field holds the wanted string. *)
Definition pathMatches (field path : string) (doc : Z * MediaRecord) : bool :=
  match doc.2 !! field with
  | Some (VString p) => String.eqb p path
  | _ => false
  end.

Definition EvalQuery (field path : string) (docs : list (Z * MediaRecord))
  : list Z :=
  map fst (List.filter (pathMatches field path) docs).

(** Modelled from the spec: [totalRecordsString(method, -1, -1)] is
    declared outside the given sources; its first result is the total of
    the counts of one discovery method over all collections. *)
Definition totalRecords (counts : gmap (Z * Z) Z) : Z :=
  wrap64 (foldr (fun ck acc => default 0 (counts !! ck) + acc) 0 collections).

(** [var mediaIndex]: the indexed field of the media collections is
    ["absPath"] (media.go); the support collections are taken to index the
    same field. *)
Definition indexField (class : EntityClass) : string := "absPath".

(** What the program does to the world around it, oldest first. *)
Inductive Event : Type :=
| EvScanDive (path : string) (depth : Z)
| EvLstat (path : string)
| EvReaddir (path : string)
| EvQuery (class kind : Z) (path : string)
| EvInsert (class kind : Z) (id : Z) (rec : MediaRecord)
| EvHandleMedia (path : string) (e : Entity) (id : Z)
| EvHandleSupport (path : string) (e : Entity) (id : Z)
| EvHandleOther (path : string)
| EvWarn (rc : ReturnCode)
| EvOrphans (n : nat)
| EvFindCandidates (id : Z)
| EvStillOrphan (n : nat).

(** What the world answers.  Each oracle is indexed by the number of
    answers consumed so far.  [loadRecord], [knownVideoMedia] and
    [findCandidates] stand for methods of [Subtitles] and of the media types
    that library.go calls and that are declared outside the given
    sources. *)
Class Env : Type := {
  (** [db.EvalQuery] fails *)
  queryFault : nat -> bool;
  (** [toRecord] returns an error *)
  recordFault : nat -> option ReturnCode;
  (** [Insert] fails *)
  insertFault : nat -> bool;
  (** the ID the store assigns to an inserted document *)
  storeID : nat -> Z;
  (** [time.Now()] *)
  clock : nat -> Z;
  (** reading a stored document back: the entity and its path field *)
  loadRecord : Z -> Z -> MediaRecord -> string * Entity;
  (** [len(subs.KnownVideoMedia)] of a stored subtitle document *)
  knownVideoMedia : MediaRecord -> nat;
  (** [subs.findCandidates(l, true, id)]: an error, or the number of
      candidates found.  The answer is all there is of the step here: what
      it writes to the stored documents is outside the given sources and
      is not modelled *)
  findCandidates : nat -> Z -> MediaRecord -> ReturnCode + nat
}.

(** [type PathHandler struct]: which of the three slots hold a function. *)
Record PathHandler : Type := mkPathHandler {
  handleMedia : bool;
  handleSupport : bool;
  handleOther : bool
}.

(** ** Libraries (library.go) *)

Module Library.

(** The fields of [type Library struct] that no method assigns. *)
Record t : Type := mk {
  workingDir : string;
  absPath : string;
  name : string;
  maxDepth : Z;
  dataDir : string
}.

(** The fields of [type Library struct] that the methods assign, the two
    objects they share with the rest of the process ([busyState] and the
    variable [isCLIMode]), the event log and the number of answers
    consumed.  A buffered channel is the list of the values it holds,
    oldest first. *)
Record State : Type := mkState {
  db : Database;
  log : list Event;
  tick : nat;
  busyState : BusyState.t;
  isCLIMode : bool;
  loadStart : list Z;
  loadElapsed : Z;
  scanStart : list Z;
  scanElapsed : Z;
  lastScan : Z
}.

(** The assignments to the fields of a state. *)
Definition set_db (x : Database) (s : State) : State :=
  mkState x (log s) (tick s) (busyState s) (isCLIMode s) (loadStart s)
    (loadElapsed s) (scanStart s) (scanElapsed s) (lastScan s).

Definition set_log (x : list Event) (s : State) : State :=
  mkState (db s) x (tick s) (busyState s) (isCLIMode s) (loadStart s)
    (loadElapsed s) (scanStart s) (scanElapsed s) (lastScan s).

Definition set_tick (x : nat) (s : State) : State :=
  mkState (db s) (log s) x (busyState s) (isCLIMode s) (loadStart s)
    (loadElapsed s) (scanStart s) (scanElapsed s) (lastScan s).

Definition set_busyState (x : BusyState.t) (s : State) : State :=
  mkState (db s) (log s) (tick s) x (isCLIMode s) (loadStart s)
    (loadElapsed s) (scanStart s) (scanElapsed s) (lastScan s).

Definition set_isCLIMode (x : bool) (s : State) : State :=
  mkState (db s) (log s) (tick s) (busyState s) x (loadStart s)
    (loadElapsed s) (scanStart s) (scanElapsed s) (lastScan s).

Definition set_loadStart (x : list Z) (s : State) : State :=
  mkState (db s) (log s) (tick s) (busyState s) (isCLIMode s) x
    (loadElapsed s) (scanStart s) (scanElapsed s) (lastScan s).

Definition set_loadElapsed (x : Z) (s : State) : State :=
  mkState (db s) (log s) (tick s) (busyState s) (isCLIMode s) (loadStart s)
    x (scanStart s) (scanElapsed s) (lastScan s).

Definition set_scanStart (x : list Z) (s : State) : State :=
  mkState (db s) (log s) (tick s) (busyState s) (isCLIMode s) (loadStart s)
    (loadElapsed s) x (scanElapsed s) (lastScan s).

Definition set_scanElapsed (x : Z) (s : State) : State :=
  mkState (db s) (log s) (tick s) (busyState s) (isCLIMode s) (loadStart s)
    (loadElapsed s) (scanStart s) x (lastScan s).

Definition set_lastScan (x : Z) (s : State) : State :=
  mkState (db s) (log s) (tick s) (busyState s) (isCLIMode s) (loadStart s)
    (loadElapsed s) (scanStart s) (scanElapsed s) x.

(** One more entry in the log. *)
Definition logEv (e : Event) (s : State) : State := set_log (log s ++ [e]) s.

(** One more answer consumed. *)
Definition bump (s : State) : State := set_tick (S (tick s)) s.

(** The assignments to a collection and to a count of loaded records. *)
Definition setDocs (class kind : Z) (docs : list (Z * MediaRecord))
    (s : State) : State :=
  set_db (mkDatabase (<[(class, kind) := docs]> (col (db s)))
            (numRecordsLoad (db s)) (numRecordsScan (db s))) s.

Definition setNumRecordsLoad (class kind : Z) (n : Z) (s : State) : State :=
  set_db (mkDatabase (col (db s))
            (<[(class, kind) := n]> (numRecordsLoad (db s)))
            (numRecordsScan (db s))) s.

(** [l.db.numRecordsScan[class][kind]++] *)
Definition incNumRecordsScan (class kind : Z) (s : State) : State :=
  set_db (mkDatabase (col (db s)) (numRecordsLoad (db s))
            (<[(class, kind) :=
                 wrap64 (default 0 (numRecordsScan (db s) !! (class, kind)) + 1)]>
               (numRecordsScan (db s)))) s.

Section Methods.
Context {go : GoLib} {env : Env}.

(** The closure [seenFile] of [scanDive]; [None] is its error result. *)
Definition seenFile (class : EntityClass) (kind : Z) (path : string)
    (s : State) : State * option bool :=
  if negb (class =? ecUnknown) && (class <? ecCOUNT) then
    let s1 := bump (logEv (EvQuery class kind path) s) in
    if queryFault (tick s) then (s1, None)
    else
      let result := EvalQuery (indexField class) path
                      (docsOf (db s) class kind) in
      (s1, Some (0 <? Z.of_nat (length result)))
  else (s, None).

(** What [scanDive] does with a file of a known class and kind; the source
    repeats it for audio, video and subtitles.  [make] builds the entity
    from what [time.Now()] answers, with its record; [slot] selects the
    handler.  The entities [scanFile] builds hold their [Media], so that
    writing their record returns (lemma [new_entities_have_records]); the
    case of a panic is there for the type of [toRecord] only. *)
Definition indexFile (ph : option PathHandler) (class kind : Z)
    (path : string) (make : Z -> Entity * Outcome MediaRecord)
    (slot : PathHandler -> bool) (notify : string -> Entity -> Z -> Event)
    (s : State) : State * option ReturnCode :=
  match seenFile class kind path s with
  | (s, None) => (s, Some rcInvalidFile)
  | (s, Some true) => (s, None)
  | (s, Some false) =>
      let '(entity, made) := make (clock (tick s)) in
      let fault := recordFault (tick s) in
      let s := bump s in
      match made, fault with
      | Panicked _, _ => (s, Some rcDatabaseError)
      | Returned _, Some recErr => (s, Some recErr)
      | Returned rec, None =>
          if insertFault (tick s) then (bump s, Some rcDatabaseError)
          else
            let id := storeID (tick s) in
            let s := bump (logEv (EvInsert class kind id rec) s) in
            let s := setDocs class kind
                       (docsOf (db s) class kind ++ [(id, rec)]) s in
            let s := incNumRecordsScan class kind s in
            let s := match ph with
                     | Some h => if slot h then logEv (notify path entity id) s
                                 else s
                     | None => s
                     end in
            (s, None)
      end
  end.

(** The [default] case of the switch on the file mode in [scanDive]. *)
Definition scanFile (ph : option PathHandler) (path relPath : string)
    (info : FileInfo) (s : State) : State * option ReturnCode :=
  let ext := path_Ext path in
  let '(kind, extName) := mediaKindOfFileExt ext in
  if kind =? mkAudio then
    indexFile ph ecMedia kind path
      (fun now => let audio := newAudioMedia path relPath ext extName info now in
                  (EAudio audio, AudioMedia.toRecord audio))
      handleMedia EvHandleMedia s
  else if kind =? mkVideo then
    indexFile ph ecMedia kind path
      (fun now => let video := newVideoMedia path relPath ext extName info now in
                  (EVideo video, VideoMedia.toRecord video))
      handleMedia EvHandleMedia s
  else
    let '(kind, extName) := supportKindOfFileExt ext in
    if kind =? skSubtitles then
      indexFile ph ecSupport kind path
        (fun _ => let subs := newSubtitles path relPath ext extName info in
                  (ESubtitles subs, Returned (subtitlesRecord subs)))
        handleSupport EvHandleSupport s
    else
      match ph with
      | Some h => if handleOther h then (logEv (EvHandleOther path) s, None)
                  else (s, None)
      | None => (s, None)
      end.

(** The tests of the switch on the file mode in [scanDive]. *)
Definition isDir (mode : Z) : bool := 0 <? Z.land mode ModeDir.
Definition isSymlink (mode : Z) : bool := 0 <? Z.land mode ModeSymlink.
Definition isSpecial (mode : Z) : bool :=
  0 <? Z.land mode
         (Z.lor (Z.lor (Z.lor ModeDevice ModeNamedPipe) ModeSocket)
                ModeCharDevice).

(** [func (l *Library) scanDive(ph *PathHandler, absPath string, depth uint)
    *ReturnCode], on the entry [node] that the file system holds at
    [path]. *)
Fixpoint scanDive (l : t) (ph : option PathHandler) (path : string)
    (depth : Z) (node : FsNode) (s : State) {struct node}
  : State * option ReturnCode :=
  let s := logEv (EvScanDive path depth) s in
  match filepath_Rel (absPath l) path with
  | None => (s, Some rcInvalidPath)
  | Some relPath =>
      let s := logEv (EvLstat path) s in
      match node with
      | FsMissing => (s, Some rcInvalidStat)
      | FsEntry info listing =>
          let mode := fi_Mode info in
          if isDir mode then
            if negb (depthUnlimited =? maxDepth l) && (maxDepth l <? depth)
            then (s, Some rcDirDepth)
            else
              let s := logEv (EvReaddir path) s in
              match listing with
              | None => (s, Some rcDirOpen)
              | Some entries =>
                  ((fix each (es : list (string * FsNode)) (s : State)
                      : State :=
                      match es with
                      | [] => s
                      | (nm, child) :: rest =>
                          let '(s, scanErr) :=
                            scanDive l ph (path_Join path nm)
                              (wrap64 (depth + 1)) child s in
                          each rest
                            match scanErr with
                            | Some e => logEv (EvWarn e) s
                            | None => s
                            end
                      end) entries s, None)
              end
          else if isSymlink mode then (s, Some rcInvalidFile)
          else if isSpecial mode then (s, Some rcInvalidFile)
          else scanFile ph path relPath info s
      end
  end.

(** The loop of [scanDive] over the names of a directory, as a function of
    its own: what the inner loop of [scanDive] computes
    (lemma [scanDive_eq]). *)
Fixpoint scanEntries (l : t) (ph : option PathHandler) (path : string)
    (depth : Z) (es : list (string * FsNode)) (s : State) : State :=
  match es with
  | [] => s
  | (nm, child) :: rest =>
      let '(s, scanErr) :=
        scanDive l ph (path_Join path nm) (wrap64 (depth + 1)) child s in
      scanEntries l ph path depth rest
        match scanErr with
        | Some e => logEv (EvWarn e) s
        | None => s
        end
  end.

(** The loop of [recandidateSubtitles] over the orphans: the first error of
    the matching step ends it; [remain] counts the orphans without a
    candidate. *)
Fixpoint findEach (orphan : list (Z * MediaRecord)) (remain : nat)
    (s : State) : State * (ReturnCode + nat) :=
  match orphan with
  | [] => (s, inr remain)
  | (id, subs) :: rest =>
      let found := findCandidates (tick s) id subs in
      let s := bump (logEv (EvFindCandidates id) s) in
      match found with
      | inl err => (s, inl err)
      | inr n => findEach rest (if (n =? 0)%nat then S remain else remain) s
      end
  end.

(** The test [force || 0 >= len(subs.KnownVideoMedia)]. *)
Definition isOrphan (force : bool) (doc : Z * MediaRecord) : bool :=
  force || (knownVideoMedia doc.2 =? 0)%nat.

(** [func (l *Library) recandidateSubtitles(force bool) *ReturnCode] *)
Definition recandidateSubtitles (force : bool) (s : State)
  : State * option ReturnCode :=
  let orphan :=
    List.filter (isOrphan force) (docsOf (db s) ecSupport skSubtitles) in
  if (0 <? length orphan)%nat then
    match findEach orphan 0 (logEv (EvOrphans (length orphan)) s) with
    | (s, inl err) => (s, Some err)
    | (s, inr remain) => (logEv (EvStillOrphan remain) s, None)
    end
  else (s, None).

(** The callback [loadDive] passes to [ForEachDoc], without its count. *)
Definition loadDoc (ph : option PathHandler) (class kind : Z)
    (s : State) (doc : Z * MediaRecord) : State :=
  let '(path, entity) := loadRecord class kind doc.2 in
  let notify (slot : PathHandler -> bool)
             (ev : string -> Entity -> Z -> Event) : State :=
    match ph with
    | Some h => if slot h then logEv (ev path entity doc.1) s else s
    | None => s
    end in
  if class =? ecMedia then
    if (kind =? mkAudio) || (kind =? mkVideo)
    then notify handleMedia EvHandleMedia else s
  else if class =? ecSupport then
    if kind =? skSubtitles then notify handleSupport EvHandleSupport else s
  else s.

(** [func (l *Library) loadDive(ph *PathHandler, class EntityClass, kind int)
    (uint, *ReturnCode)] *)
Definition loadDive (ph : option PathHandler) (class kind : Z) (s : State)
  : State * Z * option ReturnCode :=
  let docs := docsOf (db s) class kind in
  (foldl (loadDoc ph class kind) s docs, wrap64 (Z.of_nat (length docs)),
   None).

(** The loops of [load] over the classes and kinds; an error of
    [loadDive] ends them. *)
Fixpoint loadEach (ph : option PathHandler) (cks : list (Z * Z)) (s : State)
  : State * option ReturnCode :=
  match cks with
  | [] => (s, None)
  | (class, kind) :: rest =>
      let '(s, count, err) := loadDive ph class kind s in
      let s := setNumRecordsLoad class kind count s in
      match err with
      | Some e => (s, Some e)
      | None => loadEach ph rest s
      end
  end.

(** A send on a buffered channel of capacity [maxLibraryScanners] inside a
    [select] with a [default] case goes through when the buffer is not
    full. *)
Definition canSend (ch : list Z) : bool :=
  Z.of_nat (length ch) <? maxLibraryScanners.

(** The admission of [load]: the send on [loadStart] and the increment of
    the busy count outside CLI mode. *)
Definition loadAdmit (s : State) : State :=
  let s := bump (set_loadStart (loadStart s ++ [clock (tick s)]) s) in
  if negb (isCLIMode s)
  then set_busyState (BusyState.inc (busyState s)).1 s else s.

(** The completion of [load]: the receive from [loadStart] (the buffer
    holds the value sent at admission; on an empty buffer the receive
    would not return), the elapsed time, the decrement of the busy count
    outside CLI mode, and the total. *)
Definition loadFinish (s : State) : State * Z * option ReturnCode :=
  let start := hd 0 (loadStart s) in
  let s := bump (set_loadElapsed (clock (tick s) - start)
                   (set_loadStart (tl (loadStart s)) s)) in
  let s := if negb (isCLIMode s)
           then set_busyState (BusyState.dec (busyState s)).1 s else s in
  (s, totalRecords (numRecordsLoad (db s)), None).

(** [func (l *Library) load(handler *PathHandler) (uint, *ReturnCode)] *)
Definition load (ph : option PathHandler) (s : State)
  : State * Z * option ReturnCode :=
  if canSend (loadStart s) then
    match loadEach ph collections (loadAdmit s) with
    | (s, Some err) => (s, 0, Some err)
    | (s, None) => loadFinish s
    end
  else (s, 0, Some rcLibraryBusy).

(** The admission of [scan]. *)
Definition scanAdmit (s : State) : State :=
  let s := bump (set_scanStart (scanStart s ++ [clock (tick s)]) s) in
  if negb (isCLIMode s)
  then set_busyState (BusyState.inc (busyState s)).1 s else s.

(** The work of an admitted [scan]: the traversal from the root at depth
    1 and, when it returns no error, the reconciliation pass, whose result
    is not used. *)
Definition scanRun (l : t) (ph : option PathHandler) (root : FsNode)
    (s : State) : State * option ReturnCode :=
  let '(s, err) := scanDive l ph (absPath l) 1 root s in
  match err with
  | None => ((recandidateSubtitles false s).1, err)
  | Some _ => (s, err)
  end.

(** The completion of [scan]. *)
Definition scanFinish (err : option ReturnCode) (s : State)
  : State * Z * option ReturnCode :=
  let s := bump (set_lastScan (clock (tick s)) s) in
  let start := hd 0 (scanStart s) in
  let s := bump (set_scanElapsed (clock (tick s) - start)
                   (set_scanStart (tl (scanStart s)) s)) in
  let s := if negb (isCLIMode s)
           then set_busyState (BusyState.dec (busyState s)).1 s else s in
  (s, totalRecords (numRecordsScan (db s)), err).

(** [func (l *Library) scan(handler *PathHandler) (uint, *ReturnCode)], on
    the tree [root] that the file system holds at the library's path. *)
Definition scan (l : t) (ph : option PathHandler) (root : FsNode) (s : State)
  : State * Z * option ReturnCode :=
  if canSend (scanStart s) then
    let '(s, err) := scanRun l ph root (scanAdmit s) in
    scanFinish err s
  else (s, 0, Some rcLibraryBusy).

End Methods.

End Library.

(** ** Notions the properties are stated with *)

(** The number of documents of a collection whose indexed path field holds
    [path]. *)
Definition countPath (d : Database) (class kind : Z) (path : string) : nat :=
  length (EvalQuery (indexField class) path (docsOf d class kind)).

(** No collection holds two documents with the same path (the invariant of
    the data model). *)
Definition uniquePaths (d : Database) : Prop :=
  forall class kind path, (countPath d class kind path <= 1)%nat.

(** The index answers every query and accepts every record. *)
Definition noFaults {env : Env} : Prop :=
  forall n, queryFault n = false /\ recordFault n = None /\
            insertFault n = false.

(** [os.ModeType] and [FileMode.IsRegular]. *)
Definition ModeIrregular : Z := Z.shiftl 1 19.
Definition ModeType : Z :=
  Z.lor (Z.lor (Z.lor (Z.lor (Z.lor (Z.lor ModeDir ModeSymlink) ModeNamedPipe)
                         ModeSocket) ModeDevice) ModeCharDevice) ModeIrregular.
Definition IsRegular (mode : Z) : bool := Z.land mode ModeType =? 0.

(** The collection the per-entry policy of [scanDive] assigns to a
    lowercased extension: audio first, then video, then subtitles. *)
Definition classifiedAs (e : string) (class kind : Z) : Prop :=
  (inTable (me_table audioExt) e /\ class = ecMedia /\ kind = mkAudio) \/
  (~ inTable (me_table audioExt) e /\ inTable (me_table videoExt) e /\
     class = ecMedia /\ kind = mkVideo) \/
  (~ inTable (me_table audioExt) e /\ ~ inTable (me_table videoExt) e /\
     inTable (mse_table subsExt) e /\ class = ecSupport /\ kind = skSubtitles).

(** A lowercased extension that is in none of the three tables. *)
Definition unclassified (e : string) : Prop :=
  ~ inTable (me_table audioExt) e /\ ~ inTable (me_table videoExt) e /\
  ~ inTable (mse_table subsExt) e.

(** [reaches l p d n q dq m]: the traversal of library [l] that starts on
    the entry [n] at path [p] and depth [d] calls [scanDive] on the entry
    [m] at path [q] and depth [dq], whatever the index answers: every
    directory on the way has a path relative to the root, can be listed,
    and is within the depth limit. *)
Inductive reaches {go : GoLib} (l : Library.t)
  : string -> Z -> FsNode -> string -> Z -> FsNode -> Prop :=
| reaches_here p d n : reaches l p d n p d n
| reaches_child p d info entries nm child q dq m :
    is_Some (filepath_Rel (Library.absPath l) p) ->
    Library.isDir (fi_Mode info) = true ->
    (Library.maxDepth l = depthUnlimited \/ d <= Library.maxDepth l) ->
    (nm, child) ∈ entries ->
    reaches l (path_Join p nm) (wrap64 (d + 1)) child q dq m ->
    reaches l p d (FsEntry info (Some entries)) q dq m.

(** An environment without faults, and one whose matching step fails, used
    to run the definitions on concrete inputs. *)
Definition sampleEnv : Env := {|
  queryFault := fun _ => false;
  recordFault := fun _ => None;
  insertFault := fun _ => false;
  storeID := fun n => Z.of_nat n;
  clock := fun n => 1000 + Z.of_nat n;
  loadRecord := fun _ _ r =>
    (match r !! "absPath"%string with
     | Some (VString p) => p
     | _ => EmptyString
     end, ESubtitles zeroSubtitles);
  knownVideoMedia := fun _ => 0%nat;
  findCandidates := fun _ _ _ => inr 0%nat
|}.

Definition failingMatchEnv : Env := {|
  queryFault := fun _ => false;
  recordFault := fun _ => None;
  insertFault := fun _ => false;
  storeID := fun n => Z.of_nat n;
  clock := fun n => 1000 + Z.of_nat n;
  loadRecord := fun _ _ r => (EmptyString, ESubtitles zeroSubtitles);
  knownVideoMedia := fun _ => 0%nat;
  findCandidates := fun _ _ _ => inl rcDatabaseError
|}.

(** Sample inputs: a library at [/lib], a regular file, a directory, an
    empty index, an idle state. *)
Definition sampleLibrary (maxDepth : Z) : Library.t :=
  Library.mk "/home" "/lib" "lib" maxDepth "/data".

Definition regularFile (nm : string) : FsNode :=
  FsEntry (mkFileInfo nm 1 420 7 VNil) None.

Definition directory (nm : string) (es : list (string * FsNode)) : FsNode :=
  FsEntry (mkFileInfo nm 4096 (Z.lor ModeDir 493) 7 VNil) (Some es).

Definition emptyDatabase : Database := mkDatabase ∅ ∅ ∅.

Definition idleState (d : Database) (cli : bool) : Library.State :=
  Library.mkState d [] 0 BusyState.newBusyState cli [] 0 [] 0 0.

(** ** Notions about states and logs *)

Section StateNotions.
Import Library.

(** The warning [scanDive] logs for the error of a child. *)
Definition warned (r : State * option ReturnCode) : State :=
  match r.2 with
  | Some e => logEv (EvWarn e) r.1
  | None => r.1
  end.

(** The fields of the library other than the index, the log and the tick. *)
Definition sameGates (s s' : State) : Prop :=
  busyState s' = busyState s /\ isCLIMode s' = isCLIMode s /\
  loadStart s' = loadStart s /\ loadElapsed s' = loadElapsed s /\
  scanStart s' = scanStart s /\ scanElapsed s' = scanElapsed s /\
  lastScan s' = lastScan s.

(** The index and the gates are the same in both states. *)
Definition sameIndexAndGates (s s' : State) : Prop :=
  db s' = db s /\ sameGates s s'.

(** The index after one document with path [path] is appended to the
    collection of [class] and [kind]. *)
Definition appended (d d' : Database) (class kind : Z) (path : string) : Prop :=
  exists id rec,
    rec !! indexField class = Some (VString path) /\
    forall c k, docsOf d' c k =
                if decide ((class, kind) = (c, k))
                then docsOf d class kind ++ [(id, rec)] else docsOf d c k.

(** No count of a path in a collection goes down. *)
Definition countLe (s s' : State) : Prop :=
  forall c k p, (countPath (db s) c k p <= countPath (db s') c k p)%nat.

(** An entry that [scanDive] hands to [scanFile]. *)
Definition plainFile (node : FsNode) : Prop :=
  exists info listing,
    node = FsEntry info listing /\
    isDir (fi_Mode info) = false /\ isSymlink (fi_Mode info) = false /\
    isSpecial (fi_Mode info) = false.

(** The calls of [scanDive] in a log are at depths up to [b]. *)
Definition divesWithin (b : Z) (evs : list Event) : Prop :=
  forall q dq, EvScanDive q dq ∈ evs -> dq <= b.

(** The log only grows, by entries [evs] with the property [P]. *)
Definition logGrows (P : list Event -> Prop) (s s' : State) : Prop :=
  exists evs, log s' = log s ++ evs /\ P evs.

End StateNotions.

Section TraversalNotions.
Context {go : GoLib}.
Import Library.

(** What [scanDive_known] asks of the index, for the entry [n] at path [p]
    and depth [d]. *)
Definition knows (l : t) (dbase : Database) (p : string) (d : Z)
    (n : FsNode) : Prop :=
  forall q dq m c k,
    reaches l p d n q dq m -> plainFile m ->
    is_Some (filepath_Rel (absPath l) q) ->
    classifiedAs (strings_ToLower (path_Ext q)) c k ->
    (1 <= countPath dbase c k q)%nat.

End TraversalNotions.

(** Records as the readers expect them, every number a [float64] and every
    time a string: what decoding a stored JSON document yields.  The
    subtitles of the video record are a value of another dynamic type. *)
Definition decodedCommon (path : string) : list (string * GoValue) :=
  [("absPath"%string, VString path);
   ("relPath"%string, VString path);
   ("size"%string, VFloat64 1);
   ("mode"%string, VFloat64 420);
   ("timeModified"%string, VString "2018-10-02T00:00:00Z");
   ("sysInfo"%string, VNil);
   ("kind"%string, VFloat64 0);
   ("ext"%string, VString ".x");
   ("extName"%string, VString "X");
   ("name"%string, VString "x");
   ("timeAdded"%string, VString "2018-10-02T00:00:00Z");
   ("playbackCommand"%string, VString "--");
   ("title"%string, VString "x");
   ("description"%string, VString "--");
   ("releaseDate"%string, VString "0001-01-01T00:00:00Z")].

Definition decodedAudioRecord : MediaRecord :=
  list_to_map (decodedCommon "/lib/a.mp3" ++
                 [("album"%string, VString EmptyString);
                  ("track"%string, VFloat64 3)]).

Definition decodedVideoRecord : MediaRecord :=
  list_to_map (decodedCommon "/lib/b.mkv" ++
                 [("knownSubtitles"%string, VSlice []);
                  ("subtitles"%string, VOther 1)]).

(** The tree [/lib/a.mp3]. *)
Definition oneFileTree : FsNode :=
  directory "lib" [("a.mp3"%string, regularFile "a.mp3")].

(** The tree [/lib/sub/a.mp3]. *)
Definition nestedFileTree : FsNode :=
  directory "lib"
    [("sub"%string, directory "sub" [("a.mp3"%string, regularFile "a.mp3")])].

(** The tree [/lib/a.srt]. *)
Definition oneSubtitleTree : FsNode :=
  directory "lib" [("a.srt"%string, regularFile "a.srt")].

(* ===================================================================== *)
(** * Part I, continued: the rest of the program                          *)
(* ===================================================================== *)

(** ** Sequences of busy operations (main.go) *)

(** A call of one of the three methods of [BusyState] that write. *)
Inductive BusyOp : Type := OpInc | OpDec | OpNext.

(** The state after one call, and after a sequence of calls. *)
Definition stepBusy (s : BusyState.t) (op : BusyOp) : BusyState.t :=
  match op with
  | OpInc => (BusyState.inc s).1
  | OpDec => (BusyState.dec s).1
  | OpNext => (BusyState.next s).1
  end.

Definition runBusy (ops : list BusyOp) (s : BusyState.t) : BusyState.t :=
  foldl stepBusy s ops.

(** What a sequence of calls adds to a count [c], and whether the count
    stays within [0, 2^64) all along: no decrement at 0, no increment at
    2^64 - 1. *)
Definition netBusy (op : BusyOp) : Z :=
  match op with OpInc => 1 | OpDec => -1 | OpNext => 0 end.

Fixpoint withinBusy (ops : list BusyOp) (c : Z) : bool :=
  match ops with
  | [] => true
  | op :: rest =>
      (0 <=? c + netBusy op) && (c + netBusy op <? 2 ^ 64)
      && withinBusy rest (c + netBusy op)
  end.

Definition sendsBusy (op : BusyOp) : bool :=
  match op with OpNext => false | _ => true end.

(** ** The farewell (main.go) *)

(** [type TimeInterval struct]; a [time.Time] is a number of nanoseconds. *)
Record TimeInterval : Type := mkTimeInterval {
  ti_start : Z;
  ti_stop : Z;
  ti_desc : string
}.

(** [func (i *TimeInterval) contains(t time.Time) bool] *)
Definition contains (i : TimeInterval) (t : Z) : bool :=
  ((ti_start i <? t) || (t =? ti_start i)) && (t <? ti_stop i).

(** [time.Hour], in nanoseconds. *)
Definition time_Hour : Z := 3600 * 1000000000.

(** [var adjGood], [var adjBad] *)
Definition adjGood : list string := ([
  "an acceptable"; "an excellent"; "an exceptional"; "a favorable";
   "a great"; "a marvelous"; "a positive"; "a satisfactory";
   "a satisfying"; "a superb"; "a valuable"; "a wonderful"; "an ace";
   "a boss"; "a bully"; "a capital"; "a choice"; "a crack"; "a nice";
   "a pleasing"; "a prime"; "a rad"; "a sound"; "a spanking"; "a sterling";
   "a super"; "a superior"; "a welcome"; "a worthy"; "an admirable";
   "an agreeable"; "a commendable"; "a congenial"; "a deluxe";
   "a first-class"; "a first-rate"; "a gnarly"; "a gratifying";
   "a honorable"; "a neat"; "a precious"; "a recherché"; "a reputable";
   "a select"; "a shipshape"; "a splendid"; "a stupendous";
   "a super-eminent"; "a super-excellent"; "a tip-top"; "an up to snuff"
]%string).

Definition adjBad : list string := ([
  "an atrocious"; "a bad"; "an awful"; "a cheap"; "a crummy"; "a dreadful";
   "a lousy"; "a poor"; "a rough"; "a sad"; "an unacceptable"; "a blah";
   "a bummer"; "a diddly"; "a downer"; "a garbage"; "a gross";
   "an imperfect"; "an inferior"; "a junky"; "a synthetic";
   "an abominable"; "an amiss"; "a bad news"; "a beastly"; "a bottom out";
   "a careless"; "a cheesy"; "a crappy"; "a cruddy"; "a defective";
   "a deficient"; "a dissatisfactory"; "an erroneous"; "a fallacious";
   "a faulty"; "a godawful"; "a grody"; "a grungy"; "an icky";
   "an inadequate"; "an incorrect"; "a not good"; "an off"; "a raunchy";
   "a slipshod"; "a stinking"; "a substandard"; "an unsatisfactory"
]%string).

(** The intervals [greeting] goes through, [d] being midnight of the
    current day. *)
Definition dayIntervals (d : Z) : list TimeInterval :=
  [mkTimeInterval (d + time_Hour * 0) (d + time_Hour * 5) "night";
   mkTimeInterval (d + time_Hour * 5) (d + time_Hour * 12) "morning";
   mkTimeInterval (d + time_Hour * 12) (d + time_Hour * 17) "afternoon";
   mkTimeInterval (d + time_Hour * 17) (d + time_Hour * 22) "evening";
   mkTimeInterval (d + time_Hour * 22) (d + time_Hour * 24) "night"].

(** The loop of [greeting]: the description of the first interval that
    contains [n], the empty string when none does. *)
Fixpoint timeOfDay (tis : list TimeInterval) (n : Z) : string :=
  match tis with
  | [] => EmptyString
  | ti :: rest => if contains ti n then ti_desc ti else timeOfDay rest n
  end.

(** [func greeting() string].  [n] is what [time.Now()] answers, [d] the
    midnight [time.Date] builds from it, [second] is [n.Second()], and
    [intn] is [rand.Intn], which answers below its argument. *)
Definition greeting (n d second : Z) (intn : nat -> nat) : string :=
  let s := if Z.land second 1 =? 1
           then nth (intn (length adjGood)) adjGood EmptyString
           else nth (intn (length adjBad)) adjBad EmptyString in
  let t := timeOfDay (dayIntervals d) n in
  ("quitting, have " +:+ s +:+ " " +:+ t +:+ "!")%string.

(** ** Notions about the depth of an entry *)

(** The depth of the directory that lists an entry on which [scanDive] is
    called with the counter [dq]: the counter of that directory, which is
    one less.  The files of the root, whose counter is 1, are listed at
    depth 1 and visited with the counter 2. *)
Definition listingDepth (dq : Z) : Z := dq - 1.

(** ** Notions about the growth of the index *)

(** The count of the records a scan added to a collection,
    [numRecordsScan[class][kind]]. *)
Definition scanCount (d : Database) (class kind : Z) : Z :=
  default 0 (numRecordsScan d !! (class, kind)).

(** [extends d d']: the index [d'] is [d] with documents appended.  Every
    collection of [d] is a prefix of the same collection of [d'], the
    counts of loaded records are those of [d], and the count of scanned
    records of a collection has grown, modulo 2^64, by the number of
    documents appended to it. *)
Definition extends (d d' : Database) : Prop :=
  numRecordsLoad d' = numRecordsLoad d /\
  forall c k, exists added,
    docsOf d' c k = docsOf d c k ++ added /\
    wrap64 (scanCount d' c k)
    = wrap64 (scanCount d c k + Z.of_nat (length added)).

Section SoundnessNotions.
Context {go : GoLib} {env : Env}.
Import Library.

(** The traversal from the entry [n] at path [p] and depth [d] in state
    [s] adds a document with path [q] to the collection ([c], [k]) only
    for a file it reaches, of that class and kind, whose path the
    collection did not hold. *)
Definition indexedOnlyIfReached (l : t) ph (c k : Z) (q : string)
    (n : FsNode) : Prop :=
  forall p d s,
    (countPath (db s) c k q < countPath (db (scanDive l ph p d n s).1) c k q)%nat ->
    exists dq m,
      reaches l p d n q dq m /\ plainFile m /\
      is_Some (filepath_Rel (absPath l) q) /\
      classifiedAs (strings_ToLower (path_Ext q)) c k /\
      countPath (db s) c k q = 0%nat.

End SoundnessNotions.

(** ** Notions about the handlers *)

(** Whether a handler is there for the entities of a class: the slot
    [handleMedia] for the media class, [handleSupport] for the support
    class. *)
Definition wants (ph : option PathHandler) (class : EntityClass) : bool :=
  match ph with
  | Some h => if class =? ecMedia then handleMedia h else handleSupport h
  | None => false
  end.

(** A call of the media or of the support handler. *)
Definition isEntityCall (e : Event) : Prop :=
  match e with
  | EvHandleMedia _ _ _ | EvHandleSupport _ _ _ => True
  | _ => False
  end.

Section LoadNotions.
Import Library.

(** What a pass over stored documents does to a state: the index and the
    gates stay, the log grows by [n] calls of entity handlers. *)
Definition republished (n : nat) (s s' : State) : Prop :=
  db s' = db s /\
  exists evs, log s' = log s ++ evs /\ length evs = n /\
              Forall isEntityCall evs.

(** The counts of loaded records after a pass over the collections [cks]
    of the index [d], and the number of documents of [cks] a handler is
    there for. *)
Definition loadCounts (d : Database) (cks : list (Z * Z)) : gmap (Z * Z) Z :=
  foldl (fun m ck => <[ck := wrap64 (Z.of_nat (length (docsOf d ck.1 ck.2)))]> m)
        (numRecordsLoad d) cks.

Definition handled (ph : option PathHandler) (d : Database)
    (cks : list (Z * Z)) : nat :=
  sum_list ((fun ck => if wants ph ck.1 then length (docsOf d ck.1 ck.2)
                       else 0%nat) <$> cks).

End LoadNotions.

(** ** Notions about the record readers *)

(** Whether a type assertion goes through on a value. *)
Definition accepts {T : Type} (assert : GoValue -> option T) (v : GoValue)
  : bool :=
  match assert v with Some _ => true | None => false end.

(** Whether a reader gets past a key: the key is absent, or its value has
    the asserted dynamic type. *)
Definition fieldOk (ok : GoValue -> bool) (r : MediaRecord) (key : string)
  : bool :=
  match r !! key with Some v => ok v | None => true end.

(** The keys a reader looks up with the test of the type it asserts, in
    the order of the source: the shared part, and the keys of audio and of
    video. *)
Definition mediaShape : list (string * (GoValue -> bool)) :=
  [("absPath"%string, accepts assertString);
   ("relPath"%string, accepts assertString);
   ("size"%string, accepts assertFloat64);
   ("mode"%string, accepts assertFloat64);
   ("timeModified"%string, accepts assertString);
   ("sysInfo"%string, accepts Some);
   ("kind"%string, accepts assertFloat64);
   ("ext"%string, accepts assertString);
   ("extName"%string, accepts assertString);
   ("name"%string, accepts assertString);
   ("timeAdded"%string, accepts assertString);
   ("playbackCommand"%string, accepts assertString);
   ("title"%string, accepts assertString);
   ("description"%string, accepts assertString);
   ("releaseDate"%string, accepts assertString)].

Definition audioShape : list (string * (GoValue -> bool)) :=
  mediaShape ++ [("album"%string, accepts assertString);
                 ("track"%string, accepts assertInt)].

Definition videoShape : list (string * (GoValue -> bool)) :=
  mediaShape ++
  [("knownSubtitles"%string,
      accepts (fun v => l ← assertSlice v; VideoMedia.assertEach l));
   ("subtitles"%string, accepts (fun _ : GoValue => Some tt))].

(** The first key of a shape whose value in the record is not of the
    asserted type. *)
Fixpoint firstMismatch (shape : list (string * (GoValue -> bool)))
    (r : MediaRecord) : option string :=
  match shape with
  | [] => None
  | (key, ok) :: rest =>
      if fieldOk ok r key then firstMismatch rest r else Some key
  end.

(** An outcome agrees with a shape: a panic is at the first mismatch of
    the shape, and a return means that the shape has none before [x], the
    first mismatch of what follows. *)
Definition agrees {B : Type} (o : Outcome B)
    (shape : list (string * (GoValue -> bool))) (r : MediaRecord)
    (x : option string) : Prop :=
  match o with
  | Returned _ => firstMismatch shape r = x
  | Panicked key => firstMismatch shape r = Some key
  end.

(** The value a reader leaves in a field: the converted value of the key
    when the record has the key with the asserted type, else the value
    [old] the field had. *)
Definition pick {T A : Type} (r : MediaRecord) (key : string)
    (assert : GoValue -> option T) (conv : T -> A) (old : A) : A :=
  match r !! key with
  | Some v => match assert v with Some x => conv x | None => old end
  | None => old
  end.

(** The [Media] a reader leaves, from the [Media] [m] it started with. *)
Definition pickMedia {go : GoLib} (r : MediaRecord) (m : Media.t) : Media.t :=
  let parse (s : string) : Z := default 0 (time_Parse defaultTimeLayout s) in
  let int64 (b : Z) : Z := wrapInt64 (float64_trunc b) in
  let fileMode (b : Z) : Z := wrap32 (float64_trunc b) in
  {| Media.absPath := pick r "absPath" assertString id (Media.absPath m);
     Media.relPath := pick r "relPath" assertString id (Media.relPath m);
     Media.size := pick r "size" assertFloat64 int64 (Media.size m);
     Media.mode := pick r "mode" assertFloat64 fileMode (Media.mode m);
     Media.timeModified :=
       pick r "timeModified" assertString parse (Media.timeModified m);
     Media.sysInfo := pick r "sysInfo" Some id (Media.sysInfo m);
     Media.kind := pick r "kind" assertFloat64 int64 (Media.kind m);
     Media.ext := pick r "ext" assertString id (Media.ext m);
     Media.extName := pick r "extName" assertString id (Media.extName m);
     Media.name := pick r "name" assertString id (Media.name m);
     Media.timeAdded :=
       pick r "timeAdded" assertString parse (Media.timeAdded m);
     Media.playbackCommand :=
       pick r "playbackCommand" assertString id (Media.playbackCommand m);
     Media.title := pick r "title" assertString id (Media.title m);
     Media.description :=
       pick r "description" assertString id (Media.description m);
     Media.releaseDate :=
       pick r "releaseDate" assertString parse (Media.releaseDate m) |}.

(** ** Notions about the tables *)

(** The extensions of a table, entry after entry. *)
Definition extsOf (t : ExtTable) : list string := mjoin t.*2.

(** ** Setting up the libraries (library.go, main.go) *)

(** What the host answers to [newLibrary].  Each oracle is indexed by the
    number of calls of [newLibrary] made before.  [newDatabase] is declared
    outside the given sources: it answers with an error or with the index
    of the library. *)
Class Host : Type := {
  (** [os.Getwd]; [None] is the error result *)
  os_Getwd : nat -> option string;
  (** [filepath.Abs]; [None] is the error result *)
  filepath_Abs : nat -> string -> option string;
  (** [os.Open] returns no error *)
  os_Open : nat -> string -> bool;
  (** [fds.Readdir(0)] returns no error *)
  Readdir : nat -> string -> bool;
  (** [path.Base] *)
  path_Base : string -> string;
  (** [newDatabase(opt, abs, dat)] *)
  newDatabase : nat -> string -> string -> ReturnCode + Database
}.

(** A library as [newLibrary] returns it: the fields no method assigns,
    and the state of the others. *)
Definition LibraryRef : Type := Library.t * Library.State.

(** [func newLibrary(opt *Options, busy *BusyState, lib string, lim uint,
    curr []*Library)], which answers with a library or with an error.
    [dat] is
    [opt.LibData.string], [cli] the variable [isCLIMode]; the channels are
    made empty, the elapsed times and the time of the last scan zero. *)
Definition newLibrary {host : Host} (n : nat) (dat : string)
    (busy : BusyState.t) (cli : bool) (lib : string) (lim : Z)
    (curr : list LibraryRef) : ReturnCode + LibraryRef :=
  match os_Getwd n with
  | None => inl rcInvalidLibrary
  | Some dir =>
      match filepath_Abs n lib with
      | None => inl rcInvalidLibrary
      | Some abs =>
          if existsb (fun p : LibraryRef =>
                        String.eqb (Library.absPath p.1) abs) curr
          then inl rcDuplicateLibrary
          else if negb (os_Open n abs) then inl rcInvalidLibrary
          else if negb (Readdir n abs) then inl rcInvalidLibrary
          else
            match newDatabase n abs dat with
            | inl ret => inl ret
            | inr db =>
                inr (Library.mk dir abs (path_Base abs) lim dat,
                     Library.mkState db [] 0 busy cli [] 0 [] 0 0)
            end
      end
  end.

(** The loop of [initLibrary] over the arguments: the libraries accepted so
    far, and the errors [warnLog] was given. *)
Fixpoint initLoop {host : Host} (n : nat) (dat : string) (busy : BusyState.t)
    (cli : bool) (libArgs : list string) (library : list LibraryRef)
    (warnings : list ReturnCode) : list LibraryRef * list ReturnCode :=
  match libArgs with
  | [] => (library, warnings)
  | libPath :: rest =>
      match newLibrary n dat busy cli libPath depthUnlimited library with
      | inl err =>
          initLoop (S n) dat busy cli rest library (warnings ++ [err])
      | inr lib =>
          initLoop (S n) dat busy cli rest (library ++ [lib]) warnings
      end
  end.

(** [func initLibrary(options *Options, busyState *BusyState) []*Library] *)
Definition initLibrary {host : Host} (dat : string) (busy : BusyState.t)
    (cli : bool) (libArgs : list string) : list LibraryRef * list ReturnCode :=
  initLoop 0 dat busy cli libArgs [] [].

(** The paths of a list of libraries. *)
Definition pathsOf (libs : list LibraryRef) : list string :=
  (fun p : LibraryRef => Library.absPath p.1) <$> libs.

(** A library fresh from [newLibrary] for the data directory [dat]: no
    depth limit, the name the base of its path, both slots free, nothing
    measured yet. *)
Definition fresh {host : Host} (dat : string) (busy : BusyState.t)
    (p : LibraryRef) : Prop :=
  Library.maxDepth p.1 = depthUnlimited /\
  Library.dataDir p.1 = dat /\
  Library.name p.1 = path_Base (Library.absPath p.1) /\
  Library.loadStart p.2 = [] /\ Library.scanStart p.2 = [] /\
  Library.busyState p.2 = busy.

(** The argument [lib] at position [i] names a directory that
    [newLibrary] accepts unless it has it already: its absolute path is
    [abs], it can be opened and listed, and its index can be opened. *)
Definition usable {host : Host} (dat : string) (i : nat) (lib abs : string)
  : Prop :=
  is_Some (os_Getwd i) /\ filepath_Abs i lib = Some abs /\
  os_Open i abs = true /\ Readdir i abs = true /\
  exists db, newDatabase i abs dat = inr db.

(** A host on which every directory but [/gone] is there, used to run the
    definitions on concrete inputs. *)
Definition sampleHost : Host := {|
  os_Getwd := fun _ => Some "/home"%string;
  filepath_Abs := fun _ lib => Some lib;
  os_Open := fun _ abs => negb (String.eqb abs "/gone");
  Readdir := fun _ _ => true;
  path_Base := fun abs => abs;
  newDatabase := fun _ _ _ => inr emptyDatabase
|}.

(** ** Populating a library (main.go) *)

Section Populate.
Context {go : GoLib} {env : Env}.

(** The handlers [populateLibrary] passes to [load] and to [scan]: the
    three slots are set. *)
Definition allHandlers : option PathHandler :=
  Some (mkPathHandler true true true).

(** The pair of goroutines [populateLibrary] starts for one library.  The
    second one waits for the value the first one sends on [loadComplete],
    so the load, when there is one, is over before the scan begins.
    [first] is what [l.db.isFirstAppearance()] answers, a method declared
    outside the given sources.  The result is the state, the number sent
    on [scanComplete], and the errors given to [errLog]. *)
Definition populateOne (first : bool) (l : Library.t) (root : FsNode)
    (s : Library.State) : Library.State * Z * list ReturnCode :=
  let '(s, numMedia, loadErrs) :=
    if negb first then
      let '(s, loadCount, loadErr) := Library.load allHandlers s in
      (s, wrap64 (0 + loadCount),
       match loadErr with Some e => [e] | None => [] end)
    else (s, 0, []) in
  let '(s, scanCount, scanErr) := Library.scan l allHandlers root s in
  (s, wrap64 (numMedia + scanCount),
   loadErrs ++ match scanErr with Some e => [e] | None => [] end).

End Populate.

(** ** Console logs (log.go) *)

(** A value of type [io.Writer]: the two streams of the console, or any
    other writer (a file, a panel).  Writers are compared by identity. *)
Inductive Writer : Type :=
| Stdout
| Stderr
| OtherWriter (id : nat).

#[global] Instance Writer_eq_dec : EqDecision Writer.
Proof. solve_decision. Defined.

(** [type LogID int] and its values below [liCOUNT]. *)
Inductive LogID : Type := liRaw | liInfo | liWarn | liError.

#[global] Instance LogID_eq_dec : EqDecision LogID.
Proof. solve_decision. Defined.

(** A [log.Logger]: what [log.New] was given. *)
Record Logger : Type := mkLogger {
  lg_out : Writer;
  lg_prefix : string;
  lg_flags : Z
}.

(** [type ConsoleLog struct], without its mutex. *)
Record ConsoleLog : Type := mkConsoleLog {
  cl_prefix : string;
  cl_console : Writer;
  cl_writer : Writer;
  cl_Logger : Logger
}.

(** [const logFlags], the three delimiters, and [log.Ldate], [log.Ltime]. *)
Definition Ldate : Z := 1.
Definition Ltime : Z := 2.
Definition logFlags : Z := Z.lor Ldate Ltime.
Definition logDelimNormal : string := "  ".
Definition logDelimVerbose : string := "- ".
Definition logDelimTrace : string := "| ".

(** [var consoleLogPrefix] *)
Definition consoleLogPrefix (id : LogID) : string :=
  match id with
  | liRaw => EmptyString
  | liInfo => "   "
  | liWarn => " » "
  | liError => " × "
  end.

(** [func newConsoleLog(prefix string, writer io.Writer, logger
    *log.Logger) *ConsoleLog] *)
Definition newConsoleLog (prefix : string) (writer : Writer)
    (logger : Logger) : ConsoleLog :=
  {| cl_prefix := prefix; cl_console := writer; cl_writer := writer;
     cl_Logger := logger |}.

(** A line a logger has written: the writer it went to, the prefix and
    the flags of the logger, and the text given to [Print]. *)
Record Line : Type := mkLine {
  ln_out : Writer;
  ln_prefix : string;
  ln_flags : Z;
  ln_text : string
}.

Module Log.

(** The variables of log.go and [areOptionsParsed] of main.go, with what
    has been written so far, oldest first, and the code the process has
    exited with. *)
Record State : Type := mkState {
  rawLog : ConsoleLog;
  infoLog : ConsoleLog;
  warnLog : ConsoleLog;
  errLog : ConsoleLog;
  isVerboseLog : bool;
  isTraceLog : bool;
  isCLIMode : bool;
  areOptionsParsed : bool;
  written : list Line;
  exited : option Z
}.

(** [consoleLog[id]], read and assigned. *)
Definition get (id : LogID) (st : State) : ConsoleLog :=
  match id with
  | liRaw => rawLog st
  | liInfo => infoLog st
  | liWarn => warnLog st
  | liError => errLog st
  end.

Definition set (id : LogID) (l : ConsoleLog) (st : State) : State :=
  match id with
  | liRaw =>
      mkState l (infoLog st) (warnLog st) (errLog st) (isVerboseLog st)
        (isTraceLog st) (isCLIMode st) (areOptionsParsed st) (written st)
        (exited st)
  | liInfo =>
      mkState (rawLog st) l (warnLog st) (errLog st) (isVerboseLog st)
        (isTraceLog st) (isCLIMode st) (areOptionsParsed st) (written st)
        (exited st)
  | liWarn =>
      mkState (rawLog st) (infoLog st) l (errLog st) (isVerboseLog st)
        (isTraceLog st) (isCLIMode st) (areOptionsParsed st) (written st)
        (exited st)
  | liError =>
      mkState (rawLog st) (infoLog st) (warnLog st) l (isVerboseLog st)
        (isTraceLog st) (isCLIMode st) (areOptionsParsed st) (written st)
        (exited st)
  end.

Definition set_written (w : list Line) (st : State) : State :=
  mkState (rawLog st) (infoLog st) (warnLog st) (errLog st) (isVerboseLog st)
    (isTraceLog st) (isCLIMode st) (areOptionsParsed st) w (exited st).

Definition set_isCLIMode (b : bool) (st : State) : State :=
  mkState (rawLog st) (infoLog st) (warnLog st) (errLog st) (isVerboseLog st)
    (isTraceLog st) b (areOptionsParsed st) (written st) (exited st).

Definition set_exited (c : Z) (st : State) : State :=
  mkState (rawLog st) (infoLog st) (warnLog st) (errLog st) (isVerboseLog st)
    (isTraceLog st) (isCLIMode st) (areOptionsParsed st) (written st) (Some c).

(** [var consoleLog] and the variables at the start of the process. *)
Definition builtin (id : LogID) : ConsoleLog :=
  let console := match id with
                 | liRaw | liInfo => Stdout
                 | liWarn | liError => Stderr
                 end in
  let flags := match id with liRaw => 0 | _ => logFlags end in
  newConsoleLog (consoleLogPrefix id) console
    (mkLogger console (consoleLogPrefix id) flags).

Definition initial : State :=
  mkState (builtin liRaw) (builtin liInfo) (builtin liWarn) (builtin liError)
    false false false false [] None.

(** The loggers in the order of the array [consoleLog]. *)
Definition loggers : list LogID := [liRaw; liInfo; liWarn; liError].

(** [func (l *ConsoleLog) setWriter(w io.Writer)] *)
Definition setWriter (id : LogID) (w : Writer) (st : State) : State :=
  let l := get id st in
  if decide (cl_writer l <> w) then
    set id {| cl_prefix := cl_prefix l; cl_console := cl_console l;
              cl_writer := w;
              cl_Logger := mkLogger w (cl_prefix l)
                             (lg_flags (cl_Logger l)) |} st
  else st.

(** [func setWriterAll(w io.Writer)] *)
Definition setWriterAll (w : Writer) (st : State) : State :=
  foldl (fun st id => setWriter id w st) st loggers.

(** [func (l *ConsoleLog) resetWriter()] *)
Definition resetWriter (id : LogID) (st : State) : State :=
  setWriter id (cl_console (get id st)) st.

(** [func resetWriterAll()] *)
Definition resetWriterAll (st : State) : State :=
  foldl (fun st id => resetWriter id st) st loggers.

(** [l.Print(s)]: the logger writes the text to its writer. *)
Definition Print (id : LogID) (s : string) (st : State) : State :=
  let lg := cl_Logger (get id st) in
  set_written
    (written st ++ [mkLine (lg_out lg) (lg_prefix lg) (lg_flags lg) s]) st.

(** [func (l *ConsoleLog) output(d, s string)] *)
Definition output (id : LogID) (d s : string) (st : State) : State :=
  let s := if decide (id <> liRaw)
           then ((if String.eqb d EmptyString then logDelimNormal else d)
                 +:+ s)%string
           else s in
  Print id s st.

(** [func (l *ConsoleLog) log(v ...interface{})] and [logf]; [s] is the
    string [fmt.Sprint] or [fmt.Sprintf] makes of the arguments. *)
Definition log (id : LogID) (s : string) (st : State) : State :=
  output id logDelimNormal s st.

(** [func (l *ConsoleLog) verbose(v ...interface{})] and [verbosef] *)
Definition verbose (id : LogID) (s : string) (st : State) : State :=
  if isVerboseLog st || isTraceLog st || negb (areOptionsParsed st)
  then output id logDelimVerbose s st else st.

(** [func (l *ConsoleLog) trace(v ...interface{})] and [tracef] *)
Definition trace (id : LogID) (s : string) (st : State) : State :=
  if isTraceLog st || negb (areOptionsParsed st)
  then output id logDelimTrace s st else st.

(** [func (l *ConsoleLog) logStackTrace()]: [res] is the stack split into
    lines, of which the last is left out; [frame n s] is the string
    [fmt.Sprintf] makes of the number and the line. *)
Definition logStackTrace (id : LogID) (res : list string)
    (frame : nat -> string -> string) (st : State) : State :=
  foldl (fun st ns => log id (frame ns.1 ns.2) st) st
        (imap (fun n s => (n, s)) (removelast res)).

(** [func (l *ConsoleLog) die(c *ReturnCode, trace bool)].  [isUsage] is
    whether [c] is [rcUsage], [msg] the text of [c] and [code] its exit
    code. *)
Definition die (id : LogID) (isUsage : bool) (msg : string) (code : Z)
    (trace : bool) (res : list string) (frame : nat -> string -> string)
    (st : State) : State :=
  let st := resetWriter id st in
  let st := set_isCLIMode true st in
  let st :=
    if negb isUsage then
      let st := output id EmptyString msg st in
      if trace && isTraceLog st then logStackTrace id res frame st else st
    else st in
  set_exited code st.

(** The logger of a [ConsoleLog] writes where the field [writer] says,
    with the prefix of the [ConsoleLog]. *)
Definition coherent (l : ConsoleLog) : Prop :=
  lg_out (cl_Logger l) = cl_writer l /\ lg_prefix (cl_Logger l) = cl_prefix l.

End Log.

(* ===================================================================== *)
(** * Part II: properties                                                 *)
(* ===================================================================== *)

(** ** Busy accounting *)

Section BusyFacts.
Import BusyState.

Lemma inc_count (s : t) : busyCount (inc s).1 = wrap64 (busyCount s + 1).
Proof. unfold inc. by case_match. Qed.

Lemma dec_count (s : t) :
  busyCount (dec s).1 = wrap64 (busyCount s + Z.ones 64).
Proof. unfold dec. by case_match. Qed.

Lemma inc_wf (s : t) : wf s -> wf (inc s).1.
Proof.
  intros [Hc Hy]. unfold wf, inc, wrap64.
  case_match; cbn; split; try lia; apply Z.mod_pos_bound; lia.
Qed.

Lemma dec_wf (s : t) : wf s -> wf (dec s).1.
Proof.
  intros [Hc Hy]. unfold wf, dec, wrap64.
  case_match; cbn; split; try lia; apply Z.mod_pos_bound; lia.
Qed.

Lemma wrap64_succ (c : Z) :
  0 <= c < 2 ^ 64 ->
  wrap64 (c + 1) = if c =? 2 ^ 64 - 1 then 0 else c + 1.
Proof.
  intros Hc. unfold wrap64. destruct (Z.eqb_spec c (2 ^ 64 - 1)) as [->|Hne].
  - reflexivity.
  - apply Z.mod_small. lia.
Qed.

Lemma wrap64_pred (c : Z) :
  0 <= c < 2 ^ 64 ->
  wrap64 (c + Z.ones 64) = if c =? 0 then 2 ^ 64 - 1 else c - 1.
Proof.
  intros Hc. unfold wrap64. destruct (Z.eqb_spec c 0) as [->|Hne].
  - reflexivity.
  - replace (c + Z.ones 64) with ((c - 1) + 1 * 2 ^ 64)
      by (change (Z.ones 64) with (2 ^ 64 - 1); lia).
    rewrite Z.mod_add by lia. apply Z.mod_small. lia.
Qed.

(** C9: an increment resets the UI-cycle counter exactly when it takes the
    busy count from 0 to 1, a decrement exactly when it takes the busy
    count from 1 to 0; every other increment or decrement leaves the cycle
    counter as it was. *)
Theorem C9_cycle_reset_at_zero_crossings (s : t) :
  0 <= busyCount s < 2 ^ 64 ->
  (busyCount s = 0 ->
     busyCount (inc s).1 = 1 /\ busyCycle (inc s).1 = 0) /\
  (busyCount s = 1 ->
     busyCount (dec s).1 = 0 /\ busyCycle (dec s).1 = 0) /\
  (busyCount s <> 0 ->
     busyCount (inc s).1 <> 1 /\ busyCycle (inc s).1 = busyCycle s) /\
  (busyCount s <> 1 ->
     busyCount (dec s).1 <> 0 /\ busyCycle (dec s).1 = busyCycle s).
Proof.
  intros Hc. split; [|split; [|split]].
  - intros H0. unfold inc. rewrite H0. split; reflexivity.
  - intros H1. unfold dec. rewrite H1. split; reflexivity.
  - intros Hne. split.
    + rewrite inc_count, wrap64_succ by done. case_match; lia.
    + unfold inc. rewrite wrap64_succ by done.
      destruct (busyCount s =? 2 ^ 64 - 1); [reflexivity|].
      destruct (Z.eqb_spec 1 (busyCount s + 1)); [lia|reflexivity].
  - intros Hne. split.
    + rewrite dec_count, wrap64_pred by done. case_match; lia.
    + unfold dec. rewrite wrap64_pred by done.
      destruct (Z.eqb_spec (busyCount s) 0); [reflexivity|].
      destruct (Z.eqb_spec 0 (busyCount s - 1)); [lia|reflexivity].
Qed.

(** C10: [dec] on a busy count of 0 is defined, stores 2^64 - 1 (the wrap
    of adding 2^64 - 1 modulo 2^64), sends that value, returns it read as
    an [int], and leaves the cycle counter as it was. *)
Theorem C10_dec_at_zero_wraps (s : t) :
  busyCount s = 0 ->
  busyCount (dec s).1 = 2 ^ 64 - 1 /\
  busyCount (dec s).1 = (0 + (2 ^ 64 - 1)) mod 2 ^ 64 /\
  busyCycle (dec s).1 = busyCycle s /\
  changed (dec s).1 = changed s ++ [2 ^ 64 - 1] /\
  (dec s).2 = -1.
Proof.
  intros H0. unfold dec. rewrite H0. cbn. done.
Qed.

End BusyFacts.

Lemma C9_witness :
  BusyState.busyCount (BusyState.inc BusyState.newBusyState).1 = 1 /\
  BusyState.busyCycle (BusyState.inc BusyState.newBusyState).1 = 0.
Proof.
  apply (C9_cycle_reset_at_zero_crossings BusyState.newBusyState);
    [cbn; lia | reflexivity].
Defined.

Lemma C10_witness :
  BusyState.busyCount
    (BusyState.dec (BusyState.mk [] 0 7)).1 = 2 ^ 64 - 1 /\
  BusyState.busyCycle (BusyState.dec (BusyState.mk [] 0 7)).1 = 7.
Proof.
  pose proof (C10_dec_at_zero_wraps (BusyState.mk [] 0 7) eq_refl) as H.
  split; [apply H | apply H].
Defined.

(** ** Classification tables *)

Section ClassificationFacts.
Context {go : GoLib}.

Lemma existsb_eqb_elem_of (l : list string) (e : string) :
  existsb (fun x => String.eqb x e) l = true <-> e ∈ l.
Proof.
  rewrite existsb_exists. split.
  - intros (x & Hin & Heq). apply String.eqb_eq in Heq as ->.
    by apply list_elem_of_In.
  - intros Hin. exists e. split; [by apply list_elem_of_In|].
    apply String.eqb_refl.
Qed.

Lemma kindOfFileExt_found (t : ExtTable) (e n : string) :
  kindOfFileExt t e = (n, true) -> namedIn t e n.
Proof.
  induction t as [|[m l] t IH]; cbn; [discriminate|].
  destruct (existsb _ l) eqn:Hex.
  - intros [= <-]. exists l. split; [left|]. by apply existsb_eqb_elem_of.
  - intros Hk. destruct (IH Hk) as (l' & Hin & He).
    exists l'. split; [by right|done].
Qed.

Lemma kindOfFileExt_missing (t : ExtTable) (e n : string) :
  kindOfFileExt t e = (n, false) -> n = EmptyString /\ ~ inTable t e.
Proof.
  induction t as [|[m l] t IH]; cbn.
  - intros [= <-]. split; [done|]. intros (? & ? & Hin & _).
    by apply elem_of_nil in Hin.
  - destruct (existsb _ l) eqn:Hex; [discriminate|].
    intros Hk. destruct (IH Hk) as [-> Hno]. split; [done|].
    intros (n' & l' & Hin & He). apply elem_of_cons in Hin as [[= -> ->]|Hin].
    + apply existsb_eqb_elem_of in He. congruence.
    + apply Hno. by exists n', l'.
Qed.

Lemma inTable_perm (a t : ExtTable) (e : string) :
  a ≡ₚ t -> inTable a e <-> inTable t e.
Proof.
  intros Hp. unfold inTable. split; intros (n & l & Hin & He);
    exists n, l; (split; [|done]); [by rewrite <- Hp | by rewrite Hp].
Qed.

Lemma namedIn_perm (a t : ExtTable) (e n : string) :
  a ≡ₚ t -> namedIn a e n -> namedIn t e n.
Proof.
  intros Hp (l & Hin & He). exists l. split; [by rewrite <- Hp|done].
Qed.

Lemma namedIn_inTable (t : ExtTable) (e n : string) :
  namedIn t e n -> inTable t e.
Proof. intros (l & ? & ?). by exists n, l. Qed.

(** The result of [kindOfFileExt] in terms of table membership. *)
Lemma kindOfFileExt_spec (t : ExtTable) (e : string) :
  (inTable t e /\ exists n, kindOfFileExt t e = (n, true) /\ namedIn t e n) \/
  (~ inTable t e /\ kindOfFileExt t e = (EmptyString, false)).
Proof.
  destruct (kindOfFileExt t e) as [n [|]] eqn:Hk.
  - left. pose proof (kindOfFileExt_found _ _ _ Hk) as Hn.
    split; [by eapply namedIn_inTable|]. by exists n.
  - right. destruct (kindOfFileExt_missing _ _ _ Hk) as [-> Hno]. done.
Qed.

(** Membership in a table, decided by running the lookup. *)
Lemma inTable_by_lookup (t : ExtTable) (e : string) :
  (kindOfFileExt t e).2 = true -> inTable t e.
Proof.
  destruct (kindOfFileExt_spec t e) as [[Hin _]|[_ ->]]; [done|discriminate].
Qed.

Lemma not_inTable_by_lookup (t : ExtTable) (e : string) :
  (kindOfFileExt t e).2 = false -> ~ inTable t e.
Proof.
  destruct (kindOfFileExt_spec t e) as [[_ (n & -> & _)]|[Hno _]];
    [discriminate|done].
Qed.

Lemma mediaKindOfFileExtIn_spec (ext : string) (a v : ExtTable) :
  let e := strings_ToLower ext in
  (inTable a e /\
     exists n, mediaKindOfFileExtIn a v ext = (mkAudio, n) /\ namedIn a e n) \/
  (~ inTable a e /\ inTable v e /\
     exists n, mediaKindOfFileExtIn a v ext = (mkVideo, n) /\ namedIn v e n) \/
  (~ inTable a e /\ ~ inTable v e /\
     mediaKindOfFileExtIn a v ext = (mkUnknown, EmptyString)).
Proof.
  intros e. unfold mediaKindOfFileExtIn. fold e.
  cbn [mediaKindLoop me_table me_kind audioExt videoExt].
  destruct (kindOfFileExt_spec a e) as [[Hia (na & -> & Hna)]|[Hia ->]].
  { left. split; [done|]. by exists na. }
  right.
  destruct (kindOfFileExt_spec v e) as [[Hiv (nv & -> & Hnv)]|[Hiv ->]].
  - left. do 2 (split; [done|]). by exists nv.
  - right. done.
Qed.

Lemma mediaSupportKindOfFileExtIn_spec (ext : string) (s : ExtTable) :
  let e := strings_ToLower ext in
  (inTable s e /\
     exists n, mediaSupportKindOfFileExtIn s ext = (mskSubtitles, n) /\
               namedIn s e n) \/
  (~ inTable s e /\
     mediaSupportKindOfFileExtIn s ext = (mskUnknown, EmptyString)).
Proof.
  intros e. unfold mediaSupportKindOfFileExtIn. fold e.
  cbn [mediaSupportKindLoop mse_table mse_kind subsExt].
  destruct (kindOfFileExt_spec s e) as [[His (ns & -> & Hns)]|[His ->]].
  - left. split; [done|]. by exists ns.
  - right. done.
Qed.

(** C8: whatever the order in which the maps are ranged over, the media
    lookup answers with the audio kind and a type name of the audio table
    when the lowercased extension is in the audio table, else with the
    video kind and a type name of the video table when it is in the video
    table, and else with [mkUnknown] and the empty string; the support
    lookup answers with the subtitles kind and a type name of the subtitle
    table when the lowercased extension is in that table, and else with
    [mskUnknown] and the empty string. *)
Theorem C8_classification_lookup (ext : string) (a v s : ExtTable) :
  a ≡ₚ me_table audioExt ->
  v ≡ₚ me_table videoExt ->
  s ≡ₚ mse_table subsExt ->
  let e := strings_ToLower ext in
  (inTable (me_table audioExt) e ->
     exists n, mediaKindOfFileExtIn a v ext = (mkAudio, n) /\
               namedIn (me_table audioExt) e n) /\
  (~ inTable (me_table audioExt) e -> inTable (me_table videoExt) e ->
     exists n, mediaKindOfFileExtIn a v ext = (mkVideo, n) /\
               namedIn (me_table videoExt) e n) /\
  (~ inTable (me_table audioExt) e -> ~ inTable (me_table videoExt) e ->
     mediaKindOfFileExtIn a v ext = (mkUnknown, EmptyString)) /\
  (inTable (mse_table subsExt) e ->
     exists n, mediaSupportKindOfFileExtIn s ext = (mskSubtitles, n) /\
               namedIn (mse_table subsExt) e n) /\
  (~ inTable (mse_table subsExt) e ->
     mediaSupportKindOfFileExtIn s ext = (mskUnknown, EmptyString)).
Proof.
  intros Ha Hv Hs e.
  pose proof (inTable_perm _ _ e Ha) as Pa.
  pose proof (inTable_perm _ _ e Hv) as Pv.
  pose proof (inTable_perm _ _ e Hs) as Ps.
  destruct (mediaKindOfFileExtIn_spec ext a v)
    as [(Hia & n & Hr & Hn)|[(Hia & Hiv & n & Hr & Hn)|(Hia & Hiv & Hr)]];
  destruct (mediaSupportKindOfFileExtIn_spec ext s)
    as [(His & m & Hq & Hm)|(His & Hq)];
  fold e in Hia, His; try fold e in Hiv;
  (split; [|split; [|split; [|split]]]); intros;
  try tauto;
  try (exists n; split; [done|by eapply namedIn_perm]);
  try (exists m; split; [done|by eapply namedIn_perm]);
  done.
Qed.

End ClassificationFacts.

(** The lookups on three extensions, the tables ranged over in the order
    of the source text. *)
Example lookup_mp3 :
  mediaKindOfFileExt (go := sampleGo) ".MP3" = (mkAudio, "MPEG Layer III"%string).
Proof. reflexivity. Qed.

Example lookup_sub :
  mediaKindOfFileExt (go := sampleGo) ".sub" = (mkUnknown, EmptyString) /\
  mediaSupportKindOfFileExt (go := sampleGo) ".sub"
    = (mskSubtitles, "MicroDVD"%string).
Proof. split; reflexivity. Qed.

Example lookup_txt :
  mediaKindOfFileExt (go := sampleGo) ".txt" = (mkUnknown, EmptyString) /\
  mediaSupportKindOfFileExt (go := sampleGo) ".txt"
    = (mskUnknown, EmptyString).
Proof. split; reflexivity. Qed.

Lemma C8_witness :
  exists n,
    mediaKindOfFileExtIn (go := sampleGo) (me_table audioExt) (me_table videoExt)
      ".MP3" = (mkAudio, n) /\
    namedIn (me_table audioExt) ".mp3" n.
Proof.
  refine (proj1 (C8_classification_lookup (go := sampleGo) ".MP3"
            (me_table audioExt) (me_table videoExt) (mse_table subsExt)
            _ _ _) _); try reflexivity.
  exists "MPEG Layer III"%string, [".mp3"%string].
  split; [|by apply list_elem_of_singleton].
  apply list_elem_of_In. vm_compute. tauto.
Defined.

(** ** Records of entities *)

Section RecordFacts.
Context {go : GoLib}.

Lemma readField_absent {M T : Type} (r : MediaRecord) (key : string)
    (assert : GoValue -> option T) (store : T -> M -> M) (m : M) :
  r !! key = None -> readField r key assert store m = Returned m.
Proof. intros Hr. unfold readField. by rewrite Hr. Qed.

Lemma readField_mismatch {M T : Type} (r : MediaRecord) (key : string)
    (assert : GoValue -> option T) (store : T -> M -> M) (m : M) (v : GoValue) :
  r !! key = Some v -> assert v = None ->
  readField r key assert store m = Panicked key.
Proof. intros Hr Ha. unfold readField. by rewrite Hr, Ha. Qed.

Lemma readField_cases {M T : Type} (r : MediaRecord) (key : string)
    (assert : GoValue -> option T) (store : T -> M -> M) (m : M) :
  (exists m', readField r key assert store m = Returned m') \/
  readField r key assert store m = Panicked key.
Proof.
  unfold readField. destruct (r !! key) as [v|]; [|by left; eexists].
  destruct (assert v); [by left; eexists|by right].
Qed.

(** A record whose ["size"] is not a [float64] makes the shared part of
    the readers panic, at ["size"] or before. *)
Lemma readMedia_size_mismatch (r : MediaRecord) (m : Media.t) (v : GoValue) :
  r !! "size"%string = Some v -> assertFloat64 v = None ->
  exists key, readMedia r m = Panicked key.
Proof.
  intros Hr Ha. unfold readMedia.
  destruct (readField_cases r "absPath" assertString Media.set_absPath m)
    as [[m1 ->]| ->]; [|by eexists]. cbn [obind].
  destruct (readField_cases r "relPath" assertString Media.set_relPath m1)
    as [[m2 ->]| ->]; [|by eexists]. cbn [obind].
  rewrite (readField_mismatch r "size" _ _ m2 v Hr Ha). by eexists.
Qed.

Ltac read_step :=
  match goal with
  | |- context [obind (readField ?r ?k ?a ?st ?m) _] =>
      destruct (readField_cases r k a st m) as [[? ->]| ->];
      [cbn [obind]|by eexists]
  end.

(** A record whose ["track"] is a [float64] (as every number of a decoded
    JSON document is) makes the audio reader panic. *)
Lemma audio_fromRecord_track_float64 (r : MediaRecord) (m : AudioMedia.t)
    (b : Z) :
  r !! "track"%string = Some (VFloat64 b) ->
  exists key, AudioMedia.fromRecord m r = Panicked key.
Proof.
  intros Hr. unfold AudioMedia.fromRecord, readMedia.
  repeat read_step.
  rewrite (readField_mismatch r "track" _ _ _ (VFloat64 b) Hr eq_refl).
  by eexists.
Qed.

(** The video reader never assigns the selected subtitles: whenever it
    returns, the field is the one the receiver had. *)
Lemma video_fromRecord_keeps_subtitles (r : MediaRecord)
    (m m' : VideoMedia.t) :
  VideoMedia.fromRecord m r = Returned m' ->
  VideoMedia.subtitles m' = VideoMedia.subtitles m.
Proof.
  unfold VideoMedia.fromRecord.
  destruct (readMedia r _) as [md|]; cbn [obind]; [|done].
  unfold readField.
  repeat case_match; cbn [obind]; intros ?; simplify_eq; done.
Qed.

(** C5: the round trip does not give the entity back.  For every audio and
    every video entity, [toRecord] stores the byte size as an [int64], and
    [fromRecord] on that record panics at the key ["size"], where it asserts
    a [float64].  On a record whose numbers are [float64] (as they are once
    the store has decoded its JSON) the audio reader panics as well, since
    it asserts an [int] at ["track"].  And whenever the video reader
    returns, the selected subtitles are those the receiver had, whatever
    the record holds. *)
Theorem C5_roundtrip_does_not_return_the_entity (md : Media.t)
    (album : string) (track : Z) (known : list Subtitles)
    (selected : Subtitles) (ra : AudioMedia.t) (rv : VideoMedia.t) :
  (exists r,
     AudioMedia.toRecord (AudioMedia.mk (Some md) album track) = Returned r /\
     r !! "size"%string = Some (VInt64 (Media.size md)) /\
     AudioMedia.fromRecord ra r = Panicked "size") /\
  (exists r,
     VideoMedia.toRecord (VideoMedia.mk (Some md) known selected)
       = Returned r /\
     r !! "size"%string = Some (VInt64 (Media.size md)) /\
     VideoMedia.fromRecord rv r = Panicked "size") /\
  (forall (r : MediaRecord) (b : Z),
     r !! "track"%string = Some (VFloat64 b) ->
     exists key, AudioMedia.fromRecord ra r = Panicked key) /\
  (forall (r : MediaRecord) (m' : VideoMedia.t),
     VideoMedia.fromRecord rv r = Returned m' ->
     VideoMedia.subtitles m' = VideoMedia.subtitles rv).
Proof.
  split; [|split; [|split]].
  - eexists. split; [reflexivity|]. split; vm_compute; reflexivity.
  - eexists. split; [reflexivity|]. split; vm_compute; reflexivity.
  - intros r b. apply audio_fromRecord_track_float64.
  - intros r m'. apply video_fromRecord_keeps_subtitles.
Qed.

End RecordFacts.

(** ** The traversal *)

(** Induction on the entries of the file system, with the property
    available for every entry of a listing. *)
Lemma FsNode_nested_ind (P : FsNode -> Prop) :
  P FsMissing ->
  (forall info, P (FsEntry info None)) ->
  (forall info entries,
     Forall (fun e => P e.2) entries -> P (FsEntry info (Some entries))) ->
  forall n, P n.
Proof.
  intros Hmiss Hnone Hsome. fix IH 1. intros [|info [entries|]].
  - exact Hmiss.
  - apply Hsome. induction entries as [|[nm child] rest IHrest].
    + constructor.
    + constructor; [exact (IH child)|exact IHrest].
  - apply Hnone.
Qed.

Section TraversalFacts.
Context {go : GoLib} {env : Env}.
Import Library.

Lemma scanEntries_cons (l : t) (ph : option PathHandler) (path : string)
    (depth : Z) (nm : string) (child : FsNode)
    (rest : list (string * FsNode)) (s : State) :
  scanEntries l ph path depth ((nm, child) :: rest) s =
  scanEntries l ph path depth rest
    (warned (scanDive l ph (path_Join path nm) (wrap64 (depth + 1)) child s)).
Proof.
  cbn [scanEntries]. unfold warned.
  by destruct (scanDive _ _ _ _ child s) as [s' [e|]].
Qed.

Lemma scanEntries_app (l : t) (ph : option PathHandler) (path : string)
    (depth : Z) (es1 es2 : list (string * FsNode)) (s : State) :
  scanEntries l ph path depth (es1 ++ es2) s =
  scanEntries l ph path depth es2 (scanEntries l ph path depth es1 s).
Proof.
  revert s. induction es1 as [|[nm child] es1 IH]; intros s; [done|].
  rewrite <- app_comm_cons, !scanEntries_cons. apply IH.
Qed.

(** [scanDive], one call unfolded. *)
Lemma scanDive_eq (l : t) (ph : option PathHandler) (path : string)
    (depth : Z) (node : FsNode) (s : State) :
  scanDive l ph path depth node s =
  let s := logEv (EvScanDive path depth) s in
  match filepath_Rel (absPath l) path with
  | None => (s, Some rcInvalidPath)
  | Some relPath =>
      let s := logEv (EvLstat path) s in
      match node with
      | FsMissing => (s, Some rcInvalidStat)
      | FsEntry info listing =>
          if isDir (fi_Mode info) then
            if negb (depthUnlimited =? maxDepth l) && (maxDepth l <? depth)
            then (s, Some rcDirDepth)
            else
              match listing with
              | None => (logEv (EvReaddir path) s, Some rcDirOpen)
              | Some entries =>
                  (scanEntries l ph path depth entries
                     (logEv (EvReaddir path) s), None)
              end
          else if isSymlink (fi_Mode info) then (s, Some rcInvalidFile)
          else if isSpecial (fi_Mode info) then (s, Some rcInvalidFile)
          else scanFile ph path relPath info s
      end
  end.
Proof.
  destruct node as [|info [entries|]]; cbn [scanDive]; cbv zeta;
    repeat case_match; try reflexivity.
  f_equal.
  match goal with |- _ = scanEntries _ _ _ _ _ ?s0 => generalize s0 end.
  induction entries as [|[nm child] rest IH]; intros st; [reflexivity|].
  cbn [scanEntries].
  destruct (scanDive l ph (path_Join path nm) (wrap64 (depth + 1)) child st)
    as [st' e'].
  apply IH.
Qed.

(** A relation between states that is reflexive and transitive and holds
    across a log entry and across [scanFile] holds across [scanDive]. *)
Section Across.
Variable R : State -> State -> Prop.
Hypothesis R_refl : forall s, R s s.
Hypothesis R_trans : forall a b c, R a b -> R b c -> R a c.
Hypothesis R_log : forall e s, R s (logEv e s).
Hypothesis R_file :
  forall ph path relPath info s, R s (scanFile ph path relPath info s).1.

Lemma R_log2 (e1 e2 : Event) (s : State) : R s (logEv e2 (logEv e1 s)).
Proof. eapply R_trans; apply R_log. Qed.

Lemma R_log3 (e1 e2 e3 : Event) (s : State) :
  R s (logEv e3 (logEv e2 (logEv e1 s))).
Proof. eapply R_trans; [apply R_log2|apply R_log]. Qed.

Lemma scanEntries_across (l : t) (ph : option PathHandler) (path : string)
    (depth : Z) (es : list (string * FsNode)) :
  Forall (fun e => forall l ph path depth s,
            R s (scanDive l ph path depth e.2 s).1) es ->
  forall s, R s (scanEntries l ph path depth es s).
Proof.
  induction 1 as [|[nm child] rest Hchild _ IH]; intros s; [apply R_refl|].
  rewrite scanEntries_cons. eapply R_trans; [|apply IH].
  unfold warned. specialize (Hchild l ph (path_Join path nm)
                               (wrap64 (depth + 1)) s).
  cbn [snd] in Hchild.
  destruct (scanDive _ _ _ _ child s) as [s' [e|]]; cbn [fst snd] in *;
    [|exact Hchild].
  eapply R_trans; [exact Hchild|apply R_log].
Qed.

Lemma scanDive_across (node : FsNode) :
  forall l ph path depth s, R s (scanDive l ph path depth node s).1.
Proof.
  induction node as [|info|info entries IH] using FsNode_nested_ind;
    intros l ph path depth s; rewrite scanDive_eq; cbv zeta;
    repeat case_match; cbn [fst];
    first [ apply R_log | apply R_log2 | apply R_log3
          | eapply R_trans; [apply R_log2|]; apply R_file
          | eapply R_trans; [apply R_log3|]; by apply scanEntries_across ].
Qed.

End Across.

(** *** What the traversal leaves alone *)

Lemma sameGates_refl (s : State) : sameGates s s.
Proof. by repeat split. Qed.

Lemma sameGates_trans (a b c : State) :
  sameGates a b -> sameGates b c -> sameGates a c.
Proof. unfold sameGates. intuition congruence. Qed.

Lemma sameGates_log (e : Event) (s : State) : sameGates s (logEv e s).
Proof. by repeat split. Qed.

Lemma sameGates_indexFile ph class kind path make slot notify (s : State) :
  sameGates s (indexFile ph class kind path make slot notify s).1.
Proof.
  unfold indexFile, seenFile.
  repeat (case_match; simplify_eq; cbn [fst]); by repeat split.
Qed.

Lemma sameGates_scanFile ph path relPath info (s : State) :
  sameGates s (scanFile ph path relPath info s).1.
Proof.
  unfold scanFile. repeat case_match; cbn [fst];
    try apply sameGates_indexFile; try apply sameGates_refl;
    apply sameGates_log.
Qed.

Lemma sameGates_scanDive (l : t) ph path depth node (s : State) :
  sameGates s (scanDive l ph path depth node s).1.
Proof.
  apply scanDive_across;
    auto using sameGates_refl, sameGates_log, sameGates_scanFile.
  apply sameGates_trans.
Qed.

(** *** What the traversal does to the index *)

Lemma classifiedAs_fun (e : string) (c k c' k' : Z) :
  classifiedAs e c k -> classifiedAs e c' k' -> c = c' /\ k = k'.
Proof. unfold classifiedAs. intuition congruence. Qed.

Lemma classifiedAs_unclassified (e : string) (c k : Z) :
  classifiedAs e c k -> unclassified e -> False.
Proof. unfold classifiedAs, unclassified. intuition. Qed.

Lemma classifiedAs_class (e : string) (c k : Z) :
  classifiedAs e c k -> c = ecMedia \/ c = ecSupport.
Proof. unfold classifiedAs. intuition. Qed.

Lemma EvalQuery_app (field path : string) (d1 d2 : list (Z * MediaRecord)) :
  EvalQuery field path (d1 ++ d2) =
  EvalQuery field path d1 ++ EvalQuery field path d2.
Proof. unfold EvalQuery. by rewrite List.filter_app, map_app. Qed.

Lemma pathMatches_stored (field path p : string) (id : Z) (rec : MediaRecord) :
  rec !! field = Some (VString path) ->
  pathMatches field p (id, rec) = bool_decide (path = p).
Proof.
  intros Hr. unfold pathMatches. cbn. rewrite Hr.
  destruct (String.eqb_spec path p);
    [by rewrite bool_decide_eq_true_2|by rewrite bool_decide_eq_false_2].
Qed.

Lemma countPath_appended (d d' : Database) (class kind : Z) (path : string) :
  appended d d' class kind path ->
  forall c k p,
    countPath d' c k p =
    (countPath d c k p +
     if decide ((class, kind, path) = (c, k, p)) then 1 else 0)%nat.
Proof.
  intros (id & rec & Hrec & Hdocs) c k p. unfold countPath.
  rewrite Hdocs. destruct (decide ((class, kind) = (c, k))) as [[= <- <-]|Hne].
  - rewrite EvalQuery_app, length_app. f_equal.
    unfold EvalQuery. cbn [List.filter].
    rewrite (pathMatches_stored _ path p id rec Hrec).
    destruct (decide (path = p)) as [->|Hp].
    + rewrite bool_decide_eq_true_2, decide_True by done. done.
    + rewrite bool_decide_eq_false_2, decide_False by congruence. done.
  - rewrite decide_False by congruence. lia.
Qed.

Lemma docsOf_setDocs (class kind : Z) (docs : list (Z * MediaRecord))
    (s : State) (c k : Z) :
  docsOf (db (setDocs class kind docs s)) c k =
  if decide ((class, kind) = (c, k)) then docs else docsOf (db s) c k.
Proof.
  unfold docsOf, setDocs. cbn. rewrite lookup_insert.
  by destruct (decide ((class, kind) = (c, k))).
Qed.

(** [indexFile] leaves the index as it is (and then, unless the index
    failed, it already held the path), or appends one document for a path
    the index did not hold. *)
Lemma indexFile_db ph (class kind : Z) (path : string)
    (make : Z -> Entity * Outcome MediaRecord) slot notify (s : State) :
  class = ecMedia \/ class = ecSupport ->
  (forall now, exists rec, (make now).2 = Returned rec /\
                 rec !! indexField class = Some (VString path)) ->
  let s' := (indexFile ph class kind path make slot notify s).1 in
  (db s' = db s /\ (noFaults -> (1 <= countPath (db s) class kind path)%nat)) \/
  (countPath (db s) class kind path = 0%nat /\
   appended (db s) (db s') class kind path).
Proof.
  intros Hclass Hmake s'. subst s'. unfold indexFile, seenFile.
  assert (negb (class =? ecUnknown) && (class <? ecCOUNT) = true) as ->
    by (destruct Hclass as [-> | ->]; reflexivity).
  destruct (queryFault (tick s)) eqn:Hq.
  { left. cbn. split; [done|]. intros Hnf. destruct (Hnf (tick s)). congruence. }
  destruct (0 <? Z.of_nat _) eqn:Hseen.
  { left. cbn. split; [done|]. intros _. unfold countPath.
    apply Z.ltb_lt in Hseen. lia. }
  apply Z.ltb_ge in Hseen.
  assert (countPath (db s) class kind path = 0%nat) as Hzero
    by (unfold countPath; lia).
  set (s1 := bump (logEv (EvQuery class kind path) s)).
  destruct (Hmake (clock (tick s1))) as (rec & Hrec & Hfield).
  destruct (make (clock (tick s1))) as [entity made]. cbn in Hrec. subst made.
  destruct (recordFault (tick s1)) eqn:Hr.
  { left. cbn. split; [done|]. intros Hnf.
    destruct (Hnf (tick s1)) as (_ & ? & _). congruence. }
  destruct (insertFault (tick (bump s1))) eqn:Hi.
  { left. cbn. split; [done|]. intros Hnf.
    destruct (Hnf (tick (bump s1))) as (_ & _ & ?). congruence. }
  right. split; [done|]. exists (storeID (tick (bump s1))), rec.
  split; [done|]. intros c k.
  match goal with
  | |- docsOf (db ?st.1) _ _ = _ =>
      assert (docsOf (db st.1) c k =
              docsOf (db (setDocs class kind
                            (docsOf (db s) class kind ++
                               [(storeID (tick (bump s1)), rec)]) s)) c k) as ->
  end.
  { repeat case_match; reflexivity. }
  apply docsOf_setDocs.
Qed.

(** The entities [scanFile] builds have a record, stored under their
    path. *)
Lemma new_entities_have_records (path relPath ext extName : string)
    (info : FileInfo) (now : Z) :
  (exists rec,
     AudioMedia.toRecord (newAudioMedia path relPath ext extName info now)
       = Returned rec /\
     rec !! indexField ecMedia = Some (VString path)) /\
  (exists rec,
     VideoMedia.toRecord (newVideoMedia path relPath ext extName info now)
       = Returned rec /\
     rec !! indexField ecMedia = Some (VString path)) /\
  subtitlesRecord (newSubtitles path relPath ext extName info)
    !! indexField ecSupport = Some (VString path).
Proof. repeat split; eexists; split; reflexivity. Qed.

Ltac use_indexFile_db Hclass Hdb Hseen Hz Ha :=
  match goal with
  | |- context [indexFile ?ph ?c ?k ?p ?mk ?sl ?nt ?s] =>
      let Hm := fresh "Hmake" in
      assert (forall now, exists rec, (mk now).2 = Returned rec /\
                rec !! indexField c = Some (VString p)) as Hm
        by (intros now; eexists; split; reflexivity);
      destruct (indexFile_db ph c k p mk sl nt s Hclass Hm)
        as [[Hdb Hseen]|[Hz Ha]]
  end.

(** The two things [scanFile] can do to the index. *)
Lemma scanFile_db ph (path relPath : string) (info : FileInfo) (s : State) :
  let e := strings_ToLower (path_Ext path) in
  let s' := (scanFile ph path relPath info s).1 in
  (db s' = db s /\
   (noFaults -> forall c k, classifiedAs e c k ->
                  (1 <= countPath (db s) c k path)%nat)) \/
  (exists class kind,
     classifiedAs e class kind /\
     countPath (db s) class kind path = 0%nat /\
     appended (db s) (db s') class kind path).
Proof.
  intros e s'. subst s'. unfold scanFile, mediaKindOfFileExt.
  destruct (mediaKindOfFileExtIn_spec (path_Ext path)
              (me_table audioExt) (me_table videoExt))
    as [(Hia & n & -> & _)|[(Hia & Hiv & n & -> & _)|(Hia & Hiv & ->)]];
    fold e in Hia; try fold e in Hiv.
  - change (mkAudio =? mkAudio) with true. cbv iota.
    assert (classifiedAs e ecMedia mkAudio) as Hc by (left; done).
    use_indexFile_db (or_introl (B := ecMedia = ecSupport) (eq_refl ecMedia))
      Hdb Hseen Hz Ha; [left|right].
    + split; [exact Hdb|]. intros Hnf c k Hck.
      destruct (classifiedAs_fun _ _ _ _ _ Hc Hck) as [<- <-]. auto.
    + exists ecMedia, mkAudio. split; [done|]. split; [exact Hz|exact Ha].
  - change (mkVideo =? mkAudio) with false.
    change (mkVideo =? mkVideo) with true. cbv iota.
    assert (classifiedAs e ecMedia mkVideo) as Hc by (right; left; done).
    use_indexFile_db (or_introl (B := ecMedia = ecSupport) (eq_refl ecMedia))
      Hdb Hseen Hz Ha; [left|right].
    + split; [exact Hdb|]. intros Hnf c k Hck.
      destruct (classifiedAs_fun _ _ _ _ _ Hc Hck) as [<- <-]. auto.
    + exists ecMedia, mkVideo. split; [done|]. split; [exact Hz|exact Ha].
  - change (mkUnknown =? mkAudio) with false.
    change (mkUnknown =? mkVideo) with false. cbv iota.
    unfold supportKindOfFileExt, mediaSupportKindOfFileExt.
    destruct (mediaSupportKindOfFileExtIn_spec (path_Ext path)
                (mse_table subsExt)) as [(His & n & -> & _)|(His & ->)];
      fold e in His.
    + change (mskSubtitles =? skSubtitles) with true. cbv iota.
      assert (classifiedAs e ecSupport skSubtitles) as Hc
        by (right; right; done).
      use_indexFile_db (or_intror (A := ecSupport = ecMedia) (eq_refl ecSupport))
        Hdb Hseen Hz Ha; [left|right].
      * split; [exact Hdb|]. intros Hnf c k Hck.
        destruct (classifiedAs_fun _ _ _ _ _ Hc Hck) as [<- <-]. auto.
      * exists ecSupport, skSubtitles.
        split; [done|]. split; [exact Hz|exact Ha].
    + change (mskUnknown =? skSubtitles) with false. cbv iota.
      left. split.
      * by repeat case_match.
      * intros _ c k Hck. exfalso.
        eapply classifiedAs_unclassified; [exact Hck|done].
Qed.

Lemma scanFile_count_mono ph path relPath info (s : State) (c k : Z)
    (p : string) :
  (countPath (db s) c k p <=
   countPath (db (scanFile ph path relPath info s).1) c k p)%nat.
Proof.
  destruct (scanFile_db ph path relPath info s)
    as [[-> _]|(class & kind & _ & _ & Ha)]; [done|].
  rewrite (countPath_appended _ _ _ _ _ Ha). lia.
Qed.

Lemma scanFile_unique ph path relPath info (s : State) :
  uniquePaths (db s) -> uniquePaths (db (scanFile ph path relPath info s).1).
Proof.
  intros Hu. destruct (scanFile_db ph path relPath info s)
    as [[-> _]|(class & kind & _ & Hz & Ha)]; [done|].
  intros c k p. rewrite (countPath_appended _ _ _ _ _ Ha).
  case_decide as Heq; [|specialize (Hu c k p); lia].
  injection Heq as <- <- <-. lia.
Qed.

Lemma scanFile_indexed ph path relPath info (s : State) (c k : Z) :
  noFaults -> classifiedAs (strings_ToLower (path_Ext path)) c k ->
  (1 <= countPath (db (scanFile ph path relPath info s).1) c k path)%nat.
Proof.
  intros Hnf Hck. destruct (scanFile_db ph path relPath info s)
    as [[-> Hseen]|(class & kind & Hc & _ & Ha)]; [by apply Hseen|].
  destruct (classifiedAs_fun _ _ _ _ _ Hc Hck) as [<- <-].
  rewrite (countPath_appended _ _ _ _ _ Ha), decide_True by done. lia.
Qed.

Lemma scanFile_known ph path relPath info (s : State) :
  (forall c k, classifiedAs (strings_ToLower (path_Ext path)) c k ->
               (1 <= countPath (db s) c k path)%nat) ->
  db (scanFile ph path relPath info s).1 = db s.
Proof.
  intros Hknown. destruct (scanFile_db ph path relPath info s)
    as [[-> _]|(class & kind & Hc & Hz & _)]; [done|].
  specialize (Hknown _ _ Hc). lia.
Qed.

Lemma scanDive_plainFile (l : t) ph (path : string) (depth : Z)
    (node : FsNode) (s : State) (relPath : string) :
  plainFile node -> filepath_Rel (absPath l) path = Some relPath ->
  exists info,
    scanDive l ph path depth node s =
    scanFile ph path relPath info
      (logEv (EvLstat path) (logEv (EvScanDive path depth) s)).
Proof.
  intros (info & listing & -> & Hd & Hs & Hp) Hrel. exists info.
  rewrite scanDive_eq. cbv zeta. by rewrite Hrel, Hd, Hs, Hp.
Qed.

Lemma scanDive_listed (l : t) ph (path : string) (depth : Z)
    (info : FileInfo) (entries : list (string * FsNode)) (s : State) :
  is_Some (filepath_Rel (absPath l) path) ->
  isDir (fi_Mode info) = true ->
  maxDepth l = depthUnlimited \/ depth <= maxDepth l ->
  scanDive l ph path depth (FsEntry info (Some entries)) s =
  (scanEntries l ph path depth entries
     (logEv (EvReaddir path)
        (logEv (EvLstat path) (logEv (EvScanDive path depth) s))), None).
Proof.
  intros [relPath Hrel] Hd Hdepth. rewrite scanDive_eq. cbv zeta.
  rewrite Hrel, Hd.
  assert (negb (depthUnlimited =? maxDepth l) && (maxDepth l <? depth) = false)
    as ->; [|done].
  destruct Hdepth as [-> | Hle]; [done|].
  apply andb_false_iff. right. apply Z.ltb_ge. lia.
Qed.

Lemma scanDive_count_mono (l : t) ph path depth node (s : State) :
  countLe s (scanDive l ph path depth node s).1.
Proof.
  apply scanDive_across.
  - by intros ? ? ? ?.
  - intros a b c Hab Hbc ? ? ?. etrans; [apply Hab|apply Hbc].
  - by intros ? ? ? ? ?.
  - intros ? ? ? ? ? ? ? ?. apply scanFile_count_mono.
Qed.

Lemma scanEntries_count_mono (l : t) ph path depth es (s : State) :
  countLe s (scanEntries l ph path depth es s).
Proof.
  apply scanEntries_across.
  - by intros ? ? ? ?.
  - intros a b c Hab Hbc ? ? ?. etrans; [apply Hab|apply Hbc].
  - by intros ? ? ? ? ?.
  - apply Forall_forall. intros ? _ ? ? ? ? ?. apply scanDive_count_mono.
Qed.

Lemma scanDive_unique (l : t) ph path depth node (s : State) :
  uniquePaths (db s) -> uniquePaths (db (scanDive l ph path depth node s).1).
Proof.
  revert s. apply (scanDive_across
    (fun s s' => uniquePaths (db s) -> uniquePaths (db s'))); auto.
  intros. by apply scanFile_unique.
Qed.

(** Without faults, a classified file that the traversal reaches is in the
    index afterwards. *)
Lemma scanDive_indexes (l : t) ph (p : string) (d : Z) (n : FsNode)
    (q : string) (dq : Z) (m : FsNode) :
  noFaults -> reaches l p d n q dq m ->
  plainFile m -> is_Some (filepath_Rel (absPath l) q) ->
  forall c k, classifiedAs (strings_ToLower (path_Ext q)) c k ->
  forall s, (1 <= countPath (db (scanDive l ph p d n s).1) c k q)%nat.
Proof.
  intros Hnf Hreach. induction Hreach
    as [p d n|p d info entries nm child q dq m Hrel Hdir Hdepth Hin _ IH];
    intros Hfile Hq c k Hck s.
  - destruct Hq as [relPath Hq].
    destruct (scanDive_plainFile l ph p d n s relPath Hfile Hq) as [info ->].
    by apply scanFile_indexed.
  - rewrite scanDive_listed by done. cbn [fst].
    apply list_elem_of_split in Hin as (es1 & es2 & ->).
    rewrite scanEntries_app, scanEntries_cons.
    etrans; [|apply scanEntries_count_mono].
    unfold warned.
    match goal with
    | |- context [scanDive l ph ?a ?b child ?st] =>
        specialize (IH Hfile Hq c k Hck st);
        destruct (scanDive l ph a b child st) as [s' [e|]]
    end; exact IH.
Qed.

Lemma scanEntries_known (l : t) ph (p : string) (d : Z)
    (es : list (string * FsNode)) (dbase : Database) :
  Forall (fun e => forall p d s, knows l (db s) p d e.2 ->
                     db (scanDive l ph p d e.2 s).1 = db s) es ->
  (forall nm child, (nm, child) ∈ es ->
     knows l dbase (path_Join p nm) (wrap64 (d + 1)) child) ->
  forall st, db st = dbase -> db (scanEntries l ph p d es st) = dbase.
Proof.
  induction 1 as [|[nm child] rest Hchild _ IHrest]; intros Hk st Hst;
    [done|].
  rewrite scanEntries_cons. apply IHrest.
  - intros nm' child' Hin. apply Hk. by right.
  - specialize (Hchild (path_Join p nm) (wrap64 (d + 1)) st).
    cbn [snd] in Hchild. rewrite Hst in Hchild.
    specialize (Hchild (Hk nm child ltac:(by left))).
    unfold warned.
    by destruct (scanDive l ph _ _ child st) as [s' [e|]].
Qed.

(** When the index holds every classified file that the traversal can
    reach, the traversal leaves the index as it is. *)
Lemma scanDive_known (l : t) ph (n : FsNode) :
  forall (p : string) (d : Z) (s : State),
    knows l (db s) p d n -> db (scanDive l ph p d n s).1 = db s.
Proof.
  induction n as [|info|info entries IH] using FsNode_nested_ind;
    intros p d s Hknown; rewrite scanDive_eq; cbv zeta.
  - by repeat case_match.
  - destruct (filepath_Rel (absPath l) p) as [relPath|] eqn:Hrel; [|done].
    repeat case_match; try done.
    rewrite scanFile_known; [done|]. intros c k Hck.
    apply (Hknown p d (FsEntry info None)); [constructor| |by eexists|done].
    by exists info, None.
  - destruct (filepath_Rel (absPath l) p) as [relPath|] eqn:Hrel; [|done].
    destruct (isDir (fi_Mode info)) eqn:Hdir.
    + destruct (negb _ && _) eqn:Hguard; [done|]. cbn [fst].
      assert (maxDepth l = depthUnlimited \/ d <= maxDepth l) as Hdepth.
      { apply andb_false_iff in Hguard as [Hg|Hg].
        - left. apply negb_false_iff, Z.eqb_eq in Hg. done.
        - right. apply Z.ltb_ge in Hg. lia. }
      apply scanEntries_known; [exact IH| |done].
      intros nm child Hin q dq m c k Hr Hf Hq Hck.
      eapply Hknown; [|done..].
      eapply reaches_child; [by eexists|done|done|exact Hin|exact Hr].
    + repeat case_match; try done.
      rewrite scanFile_known; [done|]. intros c k Hck.
      apply (Hknown p d (FsEntry info (Some entries)));
        [constructor| |by eexists|done].
      by exists info, (Some entries).
Qed.

(** *** Regular files *)

Lemma land_ModeType (mode bit : Z) :
  Z.land ModeType bit = bit -> Z.land mode ModeType = 0 -> Z.land mode bit = 0.
Proof.
  intros Hbit Hreg. rewrite <- Hbit, Z.land_assoc, Hreg. apply Z.land_0_l.
Qed.

Lemma IsRegular_plainFile (info : FileInfo)
    (listing : option (list (string * FsNode))) :
  IsRegular (fi_Mode info) = true -> plainFile (FsEntry info listing).
Proof.
  unfold IsRegular. intros Hreg%Z.eqb_eq. exists info, listing.
  unfold isDir, isSymlink, isSpecial.
  by rewrite !(land_ModeType (fi_Mode info)) by done.
Qed.

(** *** The depths of the calls *)

Lemma divesWithin_nil (b : Z) : divesWithin b [].
Proof. intros q dq Hin. by apply elem_of_nil in Hin. Qed.

Lemma divesWithin_app (b : Z) (e1 e2 : list Event) :
  divesWithin b e1 -> divesWithin b e2 -> divesWithin b (e1 ++ e2).
Proof. intros H1 H2 q dq [?|?]%elem_of_app; eauto. Qed.

Lemma divesWithin_other (b : Z) (e : Event) :
  (forall q dq, e <> EvScanDive q dq) -> divesWithin b [e].
Proof. intros Hne q dq Hin%list_elem_of_singleton. by destruct (Hne q dq). Qed.

Lemma divesWithin_dive (b : Z) (q : string) (dq : Z) :
  dq <= b -> divesWithin b [EvScanDive q dq].
Proof. intros Hle q' dq' Hin%list_elem_of_singleton. by simplify_eq. Qed.

Lemma logGrows_refl (b : Z) (s : State) : logGrows (divesWithin b) s s.
Proof. exists []. split; [by rewrite app_nil_r|apply divesWithin_nil]. Qed.

Lemma logGrows_trans (b : Z) (s1 s2 s3 : State) :
  logGrows (divesWithin b) s1 s2 -> logGrows (divesWithin b) s2 s3 ->
  logGrows (divesWithin b) s1 s3.
Proof.
  intros (e1 & H1 & P1) (e2 & H2 & P2). exists (e1 ++ e2).
  split; [by rewrite H2, H1, app_assoc|by apply divesWithin_app].
Qed.

Lemma logGrows_logEv (b : Z) (e : Event) (s : State) :
  divesWithin b [e] -> logGrows (divesWithin b) s (logEv e s).
Proof. intros He. by exists [e]. Qed.

Lemma logGrows_same_log (b : Z) (s s' : State) :
  log s' = log s -> logGrows (divesWithin b) s s'.
Proof.
  intros Hl. exists []. split; [by rewrite app_nil_r|apply divesWithin_nil].
Qed.

Lemma logGrows_indexFile (b : Z) ph class kind path make slot notify
    (s : State) :
  (forall p e id q dq, notify p e id <> EvScanDive q dq) ->
  logGrows (divesWithin b) s
    (indexFile ph class kind path make slot notify s).1.
Proof.
  intros Hnotify. unfold indexFile, seenFile.
  repeat (case_match; simplify_eq; cbn [fst]);
    repeat first
      [ apply logGrows_refl
      | by apply logGrows_same_log
      | eapply logGrows_trans;
        [|apply logGrows_logEv, divesWithin_other; done]
      | eapply logGrows_trans; [|by apply logGrows_same_log] ].
Qed.

Lemma logGrows_scanFile (b : Z) ph path relPath info (s : State) :
  logGrows (divesWithin b) s (scanFile ph path relPath info s).1.
Proof.
  unfold scanFile. repeat case_match; cbn [fst];
    first [ by apply logGrows_indexFile
          | apply logGrows_refl
          | by apply logGrows_logEv, divesWithin_other ].
Qed.

Lemma scanEntries_depths (l : t) ph (p : string) (dp : Z)
    (es : list (string * FsNode)) :
  0 <= wrap64 (dp + 1) <= maxDepth l + 1 ->
  Forall (fun e => forall p dp s, 0 <= dp <= maxDepth l + 1 ->
            logGrows (divesWithin (maxDepth l + 1)) s
              (scanDive l ph p dp e.2 s).1) es ->
  forall s, logGrows (divesWithin (maxDepth l + 1)) s
              (scanEntries l ph p dp es s).
Proof.
  intros Hdp. induction 1 as [|[nm child] rest Hchild _ IH]; intros s;
    [apply logGrows_refl|].
  rewrite scanEntries_cons. eapply logGrows_trans; [|apply IH].
  specialize (Hchild (path_Join p nm) (wrap64 (dp + 1)) s Hdp).
  cbn [snd] in Hchild. unfold warned.
  destruct (scanDive l ph _ _ child s) as [s' [e|]]; cbn [fst snd] in *;
    [|done].
  eapply logGrows_trans; [exact Hchild|].
  by apply logGrows_logEv, divesWithin_other.
Qed.

(** With a limit [maxDepth l > 0], a traversal that starts at a depth up
    to [maxDepth l + 1] calls [scanDive] at depths up to [maxDepth l + 1]
    only. *)
Lemma scanDive_depths (l : t) ph (n : FsNode) :
  0 < maxDepth l ->
  forall (p : string) (dp : Z) (s : State),
    0 <= dp <= maxDepth l + 1 ->
    logGrows (divesWithin (maxDepth l + 1)) s (scanDive l ph p dp n s).1.
Proof.
  intros Hmax.
  induction n as [|info|info entries IH] using FsNode_nested_ind;
    intros p dp s Hdp; rewrite scanDive_eq; cbv zeta;
    (eapply logGrows_trans;
       [apply (logGrows_logEv _ (EvScanDive p dp)), divesWithin_dive; lia|]);
    (destruct (filepath_Rel (absPath l) p) as [relPath|];
       [|apply logGrows_refl]);
    (eapply logGrows_trans;
       [by apply (logGrows_logEv _ (EvLstat p)), divesWithin_other|]).
  - apply logGrows_refl.
  - repeat case_match; cbn [fst];
      first [ apply logGrows_refl
            | by apply logGrows_logEv, divesWithin_other
            | apply logGrows_scanFile ].
  - destruct (isDir (fi_Mode info)).
    + destruct (negb _ && _) eqn:Hguard; [apply logGrows_refl|]. cbn [fst].
      eapply logGrows_trans;
        [by apply (logGrows_logEv _ (EvReaddir p)), divesWithin_other|].
      apply scanEntries_depths; [|exact IH].
      apply andb_false_iff in Hguard as [Hg|Hg].
      * apply negb_false_iff, Z.eqb_eq in Hg. unfold depthUnlimited in Hg. lia.
      * apply Z.ltb_ge in Hg. unfold wrap64.
        pose proof (Z.mod_pos_bound (dp + 1) (2 ^ 64) ltac:(lia)).
        pose proof (Z.mod_le (dp + 1) (2 ^ 64) ltac:(lia) ltac:(lia)). lia.
    + repeat case_match; cbn [fst];
        first [ apply logGrows_refl | apply logGrows_scanFile ].
Qed.

End TraversalFacts.

(** ** Admission, completion and the reconciliation pass *)

Section GateFacts.
Context {go : GoLib} {env : Env}.
Import Library.

Lemma findEach_same (orphan : list (Z * MediaRecord)) :
  forall (remain : nat) (s : State),
    sameIndexAndGates s (findEach orphan remain s).1.
Proof.
  induction orphan as [|[id subs] rest IH]; intros remain s;
    cbn [findEach]; [by repeat split|].
  destruct (findCandidates (tick s) id subs) as [err|n]; [by repeat split|].
  destruct (IH (if (n =? 0)%nat then S remain else remain)
               (bump (logEv (EvFindCandidates id) s))) as [Hdb Hg].
  split; [by rewrite Hdb|].
  eapply sameGates_trans; [|exact Hg]. by repeat split.
Qed.

Lemma recandidateSubtitles_same (force : bool) (s : State) :
  sameIndexAndGates s (recandidateSubtitles force s).1.
Proof.
  unfold recandidateSubtitles. case_match; [|by repeat split].
  match goal with
  | |- context [findEach ?o 0 ?st] =>
      pose proof (findEach_same o 0 st) as Hf;
      destruct (findEach o 0 st) as [s' [err|remain]]
  end; cbn [fst] in *; destruct Hf as [Hdb Hg].
  - split; [done|]. eapply sameGates_trans; [|exact Hg]. by repeat split.
  - split; [done|]. eapply sameGates_trans; [|eapply sameGates_trans];
      [|exact Hg|]; by repeat split.
Qed.

(** The loop of [recandidateSubtitles] ends at the orphan whose matching
    step fails: the orphans after it are not looked at. *)
Lemma findEach_stops (id : Z) (subs : MediaRecord)
    (rest : list (Z * MediaRecord)) (remain : nat) (s : State)
    (err : ReturnCode) :
  findCandidates (tick s) id subs = inl err ->
  findEach ((id, subs) :: rest) remain s =
  (bump (logEv (EvFindCandidates id) s), inl err).
Proof. intros Hf. cbn [findEach]. by rewrite Hf. Qed.

Lemma loadDoc_sameGates ph (class kind : Z) (s : State)
    (doc : Z * MediaRecord) :
  sameGates s (loadDoc ph class kind s doc).
Proof. unfold loadDoc. repeat case_match; by repeat split. Qed.

Lemma loadDive_sameGates ph (class kind : Z) (s : State) :
  sameGates s (loadDive ph class kind s).1.1 /\
  (loadDive ph class kind s).2 = None.
Proof.
  unfold loadDive. cbn [fst snd]. split; [|done].
  generalize (docsOf (db s) class kind). intros docs. revert s.
  induction docs as [|doc docs IH]; intros s; [apply sameGates_refl|].
  cbn [foldl]. eapply sameGates_trans; [apply loadDoc_sameGates|apply IH].
Qed.

(** [loadEach] keeps the gates and returns no error: no call of
    [loadDive] returns one. *)
Lemma loadEach_sameGates ph (cks : list (Z * Z)) :
  forall s, sameGates s (loadEach ph cks s).1 /\ (loadEach ph cks s).2 = None.
Proof.
  induction cks as [|[class kind] rest IH]; intros s; cbn [loadEach];
    [split; [apply sameGates_refl|done]|].
  destruct (loadDive_sameGates ph class kind s) as [Hg Herr].
  destruct (loadDive ph class kind s) as [[s1 count] err].
  cbn [fst snd] in *. subst err.
  destruct (IH (setNumRecordsLoad class kind count s1)) as [Hg' Herr'].
  split; [|done]. eapply sameGates_trans; [exact Hg|].
  eapply sameGates_trans; [|exact Hg']. by repeat split.
Qed.

Lemma scanRun_sameGates (l : t) ph (root : FsNode) (s : State) :
  sameGates s (scanRun l ph root s).1.
Proof.
  unfold scanRun.
  pose proof (sameGates_scanDive l ph (absPath l) 1 root s) as Hd.
  destruct (scanDive l ph (absPath l) 1 root s) as [s1 [e|]];
    cbn [fst] in *; [done|].
  eapply sameGates_trans; [exact Hd|apply recandidateSubtitles_same].
Qed.

(** The index after [scanRun] is the index after its traversal. *)
Lemma scanRun_db (l : t) ph (root : FsNode) (s : State) :
  db (scanRun l ph root s).1 = db (scanDive l ph (absPath l) 1 root s).1.
Proof.
  unfold scanRun.
  destruct (scanDive l ph (absPath l) 1 root s) as [s1 [e|]];
    cbn [fst]; [done|]. apply recandidateSubtitles_same.
Qed.

(** [scanRun] returns the error of the traversal. *)
Lemma scanRun_err (l : t) ph (root : FsNode) (s : State) :
  (scanRun l ph root s).2 = (scanDive l ph (absPath l) 1 root s).2.
Proof.
  unfold scanRun. by destruct (scanDive l ph (absPath l) 1 root s) as [s1 [e|]].
Qed.

Lemma canSend_true (ch : list Z) : canSend ch = true <-> ch = [].
Proof.
  unfold canSend, maxLibraryScanners. rewrite Z.ltb_lt.
  destruct ch; cbn [length]; split; intros; try done; lia.
Qed.

Lemma canSend_held (ch : list Z) (x : Z) : canSend (ch ++ [x]) = false.
Proof.
  unfold canSend, maxLibraryScanners. apply Z.ltb_ge.
  rewrite length_app. cbn. lia.
Qed.

(** An admitted scan, unfolded. *)
Lemma scan_admitted (l : t) ph (root : FsNode) (s : State) :
  canSend (scanStart s) = true ->
  scan l ph root s =
  scanFinish (scanRun l ph root (scanAdmit s)).2
             (scanRun l ph root (scanAdmit s)).1.
Proof.
  intros Hc. unfold scan. rewrite Hc.
  by destruct (scanRun l ph root (scanAdmit s)).
Qed.

(** An admitted load, unfolded. *)
Lemma load_admitted ph (s : State) :
  canSend (loadStart s) = true ->
  load ph s = loadFinish (loadEach ph collections (loadAdmit s)).1.
Proof.
  intros Hc. unfold load. rewrite Hc.
  destruct (loadEach_sameGates ph collections (loadAdmit s)) as [_ Herr].
  destruct (loadEach ph collections (loadAdmit s)) as [s1 err].
  cbn [snd fst] in *. by subst err.
Qed.

Lemma scanAdmit_gates (s : State) :
  scanStart (scanAdmit s) = scanStart s ++ [clock (tick s)] /\
  loadStart (scanAdmit s) = loadStart s /\
  isCLIMode (scanAdmit s) = isCLIMode s /\
  db (scanAdmit s) = db s /\
  busyState (scanAdmit s) =
    if isCLIMode s then busyState s else (BusyState.inc (busyState s)).1.
Proof.
  unfold scanAdmit. cbn. destruct (isCLIMode s) eqn:Hcli; cbn; rewrite ?Hcli;
    by repeat split.
Qed.

Lemma loadAdmit_gates (s : State) :
  loadStart (loadAdmit s) = loadStart s ++ [clock (tick s)] /\
  scanStart (loadAdmit s) = scanStart s /\
  isCLIMode (loadAdmit s) = isCLIMode s /\
  busyState (loadAdmit s) =
    if isCLIMode s then busyState s else (BusyState.inc (busyState s)).1.
Proof.
  unfold loadAdmit. cbn. destruct (isCLIMode s) eqn:Hcli; cbn; rewrite ?Hcli;
    by repeat split.
Qed.

Lemma scanFinish_gates (err : option ReturnCode) (s : State) :
  scanStart (scanFinish err s).1.1 = tl (scanStart s) /\
  isCLIMode (scanFinish err s).1.1 = isCLIMode s /\
  db (scanFinish err s).1.1 = db s /\
  busyState (scanFinish err s).1.1 =
    (if isCLIMode s then busyState s else (BusyState.dec (busyState s)).1) /\
  (scanFinish err s).2 = err.
Proof.
  unfold scanFinish. cbn. destruct (isCLIMode s) eqn:Hcli; cbn; rewrite ?Hcli;
    by repeat split.
Qed.

Lemma loadFinish_gates (s : State) :
  loadStart (loadFinish s).1.1 = tl (loadStart s) /\
  isCLIMode (loadFinish s).1.1 = isCLIMode s /\
  busyState (loadFinish s).1.1 =
    (if isCLIMode s then busyState s else (BusyState.dec (busyState s)).1) /\
  (loadFinish s).2 = None.
Proof.
  unfold loadFinish. cbn. destruct (isCLIMode s) eqn:Hcli; cbn; rewrite ?Hcli;
    by repeat split.
Qed.

(** C1: from its admission to its completion a scan keeps a value in the
    buffer of [scanStart]: admission puts one there, and neither the
    traversal nor the reconciliation pass assigns the channel.  On every
    state whose [scanStart] holds a value, a further [scan] returns
    [rcLibraryBusy] and the count 0 and leaves the state as it was: nothing
    is added to the log (no traversal, no query, no insertion), and the
    index, the record counts, the elapsed durations and [lastScan] are
    unchanged.  The same holds of [load] and [loadStart]. *)
Theorem C1_second_call_rejected_without_effect (l : t)
    (ph ph' : option PathHandler) (root root' : FsNode) (s : State) :
  (scanStart (scanAdmit s) <> [] /\
   (forall path depth node st,
      scanStart (scanDive l ph path depth node st).1 = scanStart st) /\
   (forall force st,
      scanStart (recandidateSubtitles force st).1 = scanStart st) /\
   scanStart (scanRun l ph root (scanAdmit s)).1 = scanStart (scanAdmit s) /\
   (forall st, scanStart st <> [] ->
      scan l ph' root' st = (st, 0, Some rcLibraryBusy))) /\
  (loadStart (loadAdmit s) <> [] /\
   (forall class kind st,
      loadStart (loadDive ph class kind st).1.1 = loadStart st) /\
   loadStart (loadEach ph collections (loadAdmit s)).1
     = loadStart (loadAdmit s) /\
   (forall st, loadStart st <> [] ->
      load ph' st = (st, 0, Some rcLibraryBusy))).
Proof.
  split; [split; [|split; [|split; [|split]]]|split; [|split; [|split]]].
  - destruct (scanAdmit_gates s) as [-> _]. by destruct (scanStart s).
  - intros. apply sameGates_scanDive.
  - intros. apply recandidateSubtitles_same.
  - apply scanRun_sameGates.
  - intros st Hheld. unfold scan.
    destruct (canSend (scanStart st)) eqn:Hc; [|done].
    by apply canSend_true in Hc.
  - destruct (loadAdmit_gates s) as [-> _]. by destruct (loadStart s).
  - intros. apply loadDive_sameGates.
  - apply loadEach_sameGates.
  - intros st Hheld. unfold load.
    destruct (canSend (loadStart st)) eqn:Hc; [|done].
    by apply canSend_true in Hc.
Qed.

(** What an admitted [scan] leaves of the gates and the busy state. *)
Lemma scan_released (l : t) (ph : option PathHandler) (root : FsNode)
    (s : State) :
  canSend (scanStart s) = true ->
  let s' := (scan l ph root s).1.1 in
  scanStart s' = [] /\ canSend (scanStart s') = true /\
  busyState s' =
    if isCLIMode s then busyState s
    else (BusyState.dec (BusyState.inc (busyState s)).1).1.
Proof.
  intros Hc. cbv zeta. rewrite scan_admitted by done.
  destruct (scanFinish_gates (scanRun l ph root (scanAdmit s)).2
              (scanRun l ph root (scanAdmit s)).1)
    as (-> & _ & _ & -> & _).
  destruct (scanRun_sameGates l ph root (scanAdmit s))
    as (-> & -> & _ & _ & -> & _).
  destruct (scanAdmit_gates s) as (-> & _ & -> & _ & ->).
  apply canSend_true in Hc as ->. cbn [app tl].
  by destruct (isCLIMode s).
Qed.

(** What an admitted [load] leaves of the gates and the busy state. *)
Lemma load_released (ph : option PathHandler) (s : State) :
  canSend (loadStart s) = true ->
  let s' := (load ph s).1.1 in
  loadStart s' = [] /\ canSend (loadStart s') = true /\
  busyState s' =
    if isCLIMode s then busyState s
    else (BusyState.dec (BusyState.inc (busyState s)).1).1.
Proof.
  intros Hc. cbv zeta. rewrite load_admitted by done.
  destruct (loadFinish_gates (loadEach ph collections (loadAdmit s)).1)
    as (-> & _ & -> & _).
  destruct (loadEach_sameGates ph collections (loadAdmit s))
    as [(-> & -> & -> & _) _].
  destruct (loadAdmit_gates s) as (-> & _ & -> & ->).
  apply canSend_true in Hc as ->. cbn [app tl].
  by destruct (isCLIMode s).
Qed.

(** C2 (amended): an admitted [scan] or [load] frees its slot on every
    path it can take, so that the next call is admitted; outside CLI mode
    it increments the busy count once, at admission, and decrements it
    once, at completion; in CLI mode it does not touch the busy count.
    The call is its admission, its work and its completion, one after the
    other.  The busy state after the admission is the one before it after
    one [inc] outside CLI mode, and the same one in CLI mode; the work
    (the traversal and the reconciliation pass, or the pass over the
    collections) leaves it as the admission left it, with the slot held;
    the completion applies one [dec] outside CLI mode and nothing in CLI
    mode, and frees the slot.  Every send on [changed] is taken to be
    received. *)
Theorem C2_slot_freed_and_busy_paired_outside_cli (l : t)
    (ph : option PathHandler) (root : FsNode) (s : State) :
  (canSend (scanStart s) = true ->
     let admitted := scanAdmit s in
     let worked := (scanRun l ph root admitted).1 in
     let s' := (scan l ph root s).1.1 in
     busyState admitted =
       (if isCLIMode s then busyState s
        else (BusyState.inc (busyState s)).1) /\
     busyState worked = busyState admitted /\
     scanStart worked = scanStart s ++ [clock (tick s)] /\
     scan l ph root s
     = scanFinish (scanRun l ph root admitted).2 worked /\
     busyState s' =
       (if isCLIMode s then busyState worked
        else (BusyState.dec (busyState worked)).1) /\
     scanStart s' = [] /\ canSend (scanStart s') = true /\
     busyState s' =
       if isCLIMode s then busyState s
       else (BusyState.dec (BusyState.inc (busyState s)).1).1) /\
  (canSend (loadStart s) = true ->
     let admitted := loadAdmit s in
     let worked := (loadEach ph collections admitted).1 in
     let s' := (load ph s).1.1 in
     busyState admitted =
       (if isCLIMode s then busyState s
        else (BusyState.inc (busyState s)).1) /\
     busyState worked = busyState admitted /\
     loadStart worked = loadStart s ++ [clock (tick s)] /\
     load ph s = loadFinish worked /\
     busyState s' =
       (if isCLIMode s then busyState worked
        else (BusyState.dec (busyState worked)).1) /\
     loadStart s' = [] /\ canSend (loadStart s') = true /\
     busyState s' =
       if isCLIMode s then busyState s
       else (BusyState.dec (BusyState.inc (busyState s)).1).1).
Proof.
  split; intros Hc admitted worked s'; subst admitted worked s'.
  - destruct (scanAdmit_gates s) as (Ha1 & _ & Ha3 & _ & Ha5).
    destruct (scanRun_sameGates l ph root (scanAdmit s))
      as (Hr1 & Hr2 & _ & _ & Hr5 & _).
    destruct (scan_released l ph root s Hc) as (Hf1 & Hf2 & Hf3).
    pose proof (scan_admitted l ph root s Hc) as Hsc.
    destruct (scanFinish_gates (scanRun l ph root (scanAdmit s)).2
                (scanRun l ph root (scanAdmit s)).1)
      as (_ & _ & _ & Hfin & _).
    split; [exact Ha5|]. split; [exact Hr1|].
    split; [by rewrite Hr5|]. split; [exact Hsc|].
    split; [by rewrite Hsc, Hfin, Hr2, Ha3|]. done.
  - destruct (loadAdmit_gates s) as (Ha1 & _ & Ha3 & Ha4).
    destruct (loadEach_sameGates ph collections (loadAdmit s))
      as [(Hr1 & Hr2 & Hr3 & _) _].
    destruct (load_released ph s Hc) as (Hf1 & Hf2 & Hf3).
    pose proof (load_admitted ph s Hc) as Hld.
    destruct (loadFinish_gates (loadEach ph collections (loadAdmit s)).1)
      as (_ & _ & Hfin & _).
    split; [exact Ha4|]. split; [exact Hr1|].
    split; [by rewrite Hr3|]. split; [exact Hld|].
    split; [by rewrite Hld, Hfin, Hr2, Ha3|]. done.
Qed.

(** C6: the loop of the reconciliation pass ends at the first orphan whose
    matching step fails, and the pass returns that error; [scan] does not
    use what the pass returns: after a traversal without error it returns
    no error, whatever the pass returned. *)
Theorem C6_reconciliation_error_is_dropped (l : t)
    (ph : option PathHandler) (root : FsNode) (s s1 : State)
    (err : ReturnCode) :
  canSend (scanStart s) = true ->
  scanDive l ph (absPath l) 1 root (scanAdmit s) = (s1, None) ->
  (recandidateSubtitles false s1).2 = Some err ->
  (scan l ph root s).2 = None /\
  (forall id subs rest remain st e,
     findCandidates (tick st) id subs = inl e ->
     findEach ((id, subs) :: rest) remain st =
     (bump (logEv (EvFindCandidates id) st), inl e)).
Proof.
  intros Hc Hdive _. split; [|intros; by apply findEach_stops].
  rewrite scan_admitted by done.
  destruct (scanFinish_gates (scanRun l ph root (scanAdmit s)).2
              (scanRun l ph root (scanAdmit s)).1) as (_ & _ & _ & _ & ->).
  by rewrite scanRun_err, Hdive.
Qed.

End GateFacts.

(** ** Scanning a tree *)

Section ScanFacts.
Context {go : GoLib} {env : Env}.
Import Library.

(** The index after an admitted scan is the index after its traversal,
    and the slot is free again. *)
Lemma scan_db (l : t) ph (root : FsNode) (s : State) :
  canSend (scanStart s) = true ->
  db (scan l ph root s).1.1 =
  db (scanDive l ph (absPath l) 1 root (scanAdmit s)).1 /\
  canSend (scanStart (scan l ph root s).1.1) = true.
Proof.
  intros Hc. split.
  - rewrite scan_admitted by done.
    destruct (scanFinish_gates (scanRun l ph root (scanAdmit s)).2
                (scanRun l ph root (scanAdmit s)).1) as (_ & _ & -> & _).
    apply scanRun_db.
  - by apply (scan_released l ph root s).
Qed.

(** C3 (amended): with an index that answers every query and accepts
    every record, and that holds no path twice to begin with, an admitted
    scan leaves exactly one record for every regular file that its
    traversal reaches (every directory above the file can be listed and is
    within the depth limit) and whose lowercased extension is in a table,
    in the collection of the file's class and kind, under the file's
    absolute path; a second scan of the same tree then leaves the index
    (its collections and its counts) as it is. *)
Theorem C3_reached_files_indexed_exactly_once (l : t)
    (ph ph' : option PathHandler) (root : FsNode) (s : State) :
  noFaults -> uniquePaths (db s) -> canSend (scanStart s) = true ->
  let s1 := (scan l ph root s).1.1 in
  (forall q dq info listing c k,
     reaches l (absPath l) 1 root q dq (FsEntry info listing) ->
     IsRegular (fi_Mode info) = true ->
     is_Some (filepath_Rel (absPath l) q) ->
     classifiedAs (strings_ToLower (path_Ext q)) c k ->
     countPath (db s1) c k q = 1%nat) /\
  db (scan l ph' root s1).1.1 = db s1.
Proof.
  intros Hnf Hu Hc s1.
  destruct (scan_db l ph root s Hc) as [Hdb Hfree]. fold s1 in Hdb, Hfree.
  destruct (scanAdmit_gates s) as (_ & _ & _ & Hadb & _).
  assert (forall q dq m c k,
            reaches l (absPath l) 1 root q dq m -> plainFile m ->
            is_Some (filepath_Rel (absPath l) q) ->
            classifiedAs (strings_ToLower (path_Ext q)) c k ->
            (1 <= countPath (db s1) c k q)%nat) as Hheld.
  { intros q dq m c k Hr Hf Hq Hck. rewrite Hdb.
    by eapply scanDive_indexes. }
  split.
  - intros q dq info listing c k Hr Hreg Hq Hck.
    apply Nat.le_antisymm.
    + rewrite Hdb. apply scanDive_unique. by rewrite Hadb.
    + eapply Hheld; [exact Hr|by apply IsRegular_plainFile|done..].
  - destruct (scan_db l ph' root s1 Hfree) as [-> _].
    destruct (scanAdmit_gates s1) as (_ & _ & _ & Hadb1 & _).
    rewrite scanDive_known; [done|].
    intros q dq m c k Hr Hf Hq Hck. rewrite Hadb1. by eapply Hheld.
Qed.

(** C7: on a regular file whose lowercased extension is in none of the
    three tables, [scanDive] calls the handler for other files, when there
    is one, with the absolute path, and does nothing else: apart from its
    own call and the [Lstat] the log gains that handler call only, so that
    no query, no insertion and no call of the media or support handler is
    made, and the index is as it was.  (When the path has no form relative
    to the root, the call ends before the [Lstat] and calls no handler.) *)
Theorem C7_unclassified_file_reaches_only_other_handler (l : t)
    (ph : option PathHandler) (path : string) (depth : Z)
    (info : FileInfo) (listing : option (list (string * FsNode)))
    (s : State) :
  IsRegular (fi_Mode info) = true ->
  unclassified (strings_ToLower (path_Ext path)) ->
  let entered := logEv (EvScanDive path depth) s in
  let visited := logEv (EvLstat path) entered in
  let called := match ph with
                | Some h => if handleOther h then [EvHandleOther path] else []
                | None => []
                end in
  scanDive l ph path depth (FsEntry info listing) s =
    match filepath_Rel (absPath l) path with
    | Some _ => (set_log (log visited ++ called) visited, None)
    | None => (entered, Some rcInvalidPath)
    end /\
  db (scanDive l ph path depth (FsEntry info listing) s).1 = db s.
Proof.
  intros Hreg (Hna & Hnv & Hns) entered visited called.
  destruct (filepath_Rel (absPath l) path) as [relPath|] eqn:Hrel; cycle 1.
  { rewrite scanDive_eq. cbv zeta. by rewrite Hrel. }
  destruct (scanDive_plainFile l ph path depth (FsEntry info listing) s
              relPath (IsRegular_plainFile info listing Hreg) Hrel)
    as [info' Heq].
  rewrite Heq. fold entered visited. clear Heq.
  unfold scanFile, mediaKindOfFileExt.
  destruct (mediaKindOfFileExtIn_spec (path_Ext path)
              (me_table audioExt) (me_table videoExt))
    as [(Hia & _)|[(_ & Hiv & _)|(_ & _ & ->)]]; [done|done|].
  change (mkUnknown =? mkAudio) with false.
  change (mkUnknown =? mkVideo) with false. cbv iota.
  unfold supportKindOfFileExt, mediaSupportKindOfFileExt.
  destruct (mediaSupportKindOfFileExtIn_spec (path_Ext path)
              (mse_table subsExt)) as [(His & _)|(_ & ->)]; [done|].
  change (mskUnknown =? skSubtitles) with false. cbv iota.
  subst called. destruct ph as [[hm hs [|]]|]; cbn [handleOther fst];
    (split; [|reflexivity]); try reflexivity;
    by rewrite app_nil_r; destruct visited.
Qed.

End ScanFacts.

(** ** The properties on concrete inputs *)

Lemma C1_witness :
  let admitted := Library.scanAdmit (env := sampleEnv)
                    (idleState emptyDatabase false) in
  Library.scan (go := sampleGo) (env := sampleEnv) (sampleLibrary 0) None
    oneFileTree admitted = (admitted, 0, Some rcLibraryBusy).
Proof.
  intros admitted.
  apply (C1_second_call_rejected_without_effect
           (go := sampleGo) (env := sampleEnv) (sampleLibrary 0)
           None None oneFileTree oneFileTree
           (idleState emptyDatabase false)).
  discriminate.
Defined.

Lemma C2_witness :
  let s := idleState emptyDatabase false in
  let admitted := Library.scanAdmit (env := sampleEnv) s in
  let s' := (Library.scan (go := sampleGo) (env := sampleEnv)
               (sampleLibrary 0) None oneFileTree s).1.1 in
  Library.canSend (Library.scanStart s) = true /\
  BusyState.changed (Library.busyState admitted) = [1] /\
  Library.scanStart s' = [] /\
  BusyState.changed (Library.busyState s') = [1; 0].
Proof.
  intros s admitted s'.
  destruct (proj1 (C2_slot_freed_and_busy_paired_outside_cli
                     (go := sampleGo) (env := sampleEnv) (sampleLibrary 0)
                     None oneFileTree s) eq_refl)
    as (Hadm & _ & _ & _ & _ & Hfree & _ & Hbusy).
  split; [reflexivity|].
  split; [fold admitted in Hadm; by rewrite Hadm|].
  split; [exact Hfree|].
  fold s' in Hbusy. rewrite Hbusy. reflexivity.
Defined.

(** C2, as stated, fails in CLI mode: an admitted scan runs to its end
    without error, and neither its admission nor its completion touches
    the busy count; nothing was ever sent on [changed]. *)
Lemma C2_counterexample :
  let s := idleState emptyDatabase true in
  let r := Library.scan (go := sampleGo) (env := sampleEnv)
             (sampleLibrary 0) None oneFileTree s in
  Library.canSend (Library.scanStart s) = true /\
  r.2 = None /\
  Library.busyState (Library.scanAdmit (env := sampleEnv) s)
    = Library.busyState s /\
  BusyState.changed (Library.busyState r.1.1) = [] /\
  BusyState.busyCount (Library.busyState r.1.1) = 0.
Proof. vm_compute. repeat split. Qed.

Lemma sampleEnv_noFaults : noFaults (env := sampleEnv).
Proof. intros n. repeat split. Qed.

Lemma emptyDatabase_uniquePaths : uniquePaths emptyDatabase.
Proof.
  intros c k p. unfold countPath, docsOf, emptyDatabase. cbn.
  rewrite lookup_empty. cbn. lia.
Qed.

Lemma mp3_classified :
  classifiedAs (strings_ToLower (GoLib := sampleGo)
                  (path_Ext (GoLib := sampleGo) "/lib/a.mp3"))
    ecMedia mkAudio.
Proof.
  left. split; [|done]. apply inTable_by_lookup. reflexivity.
Qed.

Lemma C3_witness :
  let s := idleState emptyDatabase true in
  let s1 := (Library.scan (go := sampleGo) (env := sampleEnv)
               (sampleLibrary 0) None oneFileTree s).1.1 in
  countPath (Library.db s1) ecMedia mkAudio "/lib/a.mp3" = 1%nat /\
  Library.db (Library.scan (go := sampleGo) (env := sampleEnv)
                (sampleLibrary 0) None oneFileTree s1).1.1 = Library.db s1.
Proof.
  intros s s1.
  destruct (C3_reached_files_indexed_exactly_once
              (go := sampleGo) (env := sampleEnv) (sampleLibrary 0)
              None None oneFileTree s
              sampleEnv_noFaults emptyDatabase_uniquePaths eq_refl)
    as [Hone Hsame].
  split; [|exact Hsame].
  apply (Hone "/lib/a.mp3"%string 2 (mkFileInfo "a.mp3" 1 420 7 VNil) None).
  - eapply reaches_child;
      [by eexists|reflexivity|by left|by left|apply reaches_here].
  - reflexivity.
  - by eexists.
  - exact mp3_classified.
Defined.

(** C3, as stated, fails under a depth limit: with [maxDepth = 1] the
    regular file [/lib/sub/a.mp3], whose extension is in the audio table,
    has no record after a scan that ran to its end with an index that
    never failed. *)
Lemma C3_counterexample :
  let s := idleState emptyDatabase true in
  let r := Library.scan (go := sampleGo) (env := sampleEnv)
             (sampleLibrary 1) None nestedFileTree s in
  IsRegular 420 = true /\
  (mediaKindOfFileExt (go := sampleGo)
     (path_Ext (GoLib := sampleGo) "/lib/sub/a.mp3")).1 = mkAudio /\
  r.2 = None /\
  countPath (Library.db r.1.1) ecMedia mkAudio "/lib/sub/a.mp3" = 0%nat.
Proof. vm_compute. repeat split. Qed.

(** The failing input of C5: the audio entity [scanDive] builds for
    [/lib/a.mp3], written with [toRecord] and read back with
    [fromRecord]. *)
Lemma C5_failing_input :
  let audio := newAudioMedia "/lib/a.mp3" "a.mp3" ".mp3" "MPEG Layer III"
                 (mkFileInfo "a.mp3" 1 420 7 VNil) 1000 in
  obind (AudioMedia.toRecord audio)
        (AudioMedia.fromRecord (go := sampleGo) AudioMedia.zero)
  = Panicked "size".
Proof. vm_compute. reflexivity. Qed.

(** On the decoded records: the audio reader panics at ["track"], and the
    video reader returns an entity without the subtitles of the record. *)
Lemma C5_decoded_records :
  AudioMedia.fromRecord (go := sampleGo) AudioMedia.zero decodedAudioRecord
    = Panicked "track" /\
  exists m',
    VideoMedia.fromRecord (go := sampleGo) VideoMedia.zero decodedVideoRecord
      = Returned m' /\
    VideoMedia.subtitles m' = zeroSubtitles /\
    decodedVideoRecord !! "subtitles"%string = Some (VOther 1).
Proof. split; [vm_compute; reflexivity|]. eexists. vm_compute. done. Qed.

Lemma C5_witness :
  (exists key,
     AudioMedia.fromRecord (go := sampleGo) AudioMedia.zero decodedAudioRecord
       = Panicked key) /\
  (forall m',
     VideoMedia.fromRecord (go := sampleGo) VideoMedia.zero decodedVideoRecord
       = Returned m' ->
     VideoMedia.subtitles m' = zeroSubtitles).
Proof.
  destruct (C5_roundtrip_does_not_return_the_entity (go := sampleGo)
              Media.zero EmptyString 0 [] zeroSubtitles
              AudioMedia.zero VideoMedia.zero) as (_ & _ & Haudio & Hvideo).
  split.
  - apply (Haudio decodedAudioRecord 3). vm_compute. reflexivity.
  - intros m'. apply (Hvideo decodedVideoRecord m').
Defined.

Lemma C6_witness :
  let s := idleState emptyDatabase true in
  (Library.recandidateSubtitles (env := failingMatchEnv) false
     (Library.scanDive (go := sampleGo) (env := failingMatchEnv)
        (sampleLibrary 0) None "/lib" 1 oneSubtitleTree
        (Library.scanAdmit (env := failingMatchEnv) s)).1).2
    = Some rcDatabaseError /\
  (Library.scan (go := sampleGo) (env := failingMatchEnv)
     (sampleLibrary 0) None oneSubtitleTree s).2 = None.
Proof.
  intros s. split; [vm_compute; reflexivity|].
  refine (proj1 (C6_reconciliation_error_is_dropped
                   (go := sampleGo) (env := failingMatchEnv)
                   (sampleLibrary 0) None oneSubtitleTree s
                   _ rcDatabaseError eq_refl _ _)).
  - apply surjective_pairing.
  - vm_compute. reflexivity.
Defined.

Lemma C7_witness :
  let s := idleState emptyDatabase true in
  (Library.scanDive (go := sampleGo) (env := sampleEnv) (sampleLibrary 0)
     (Some (mkPathHandler true true true)) "/lib/notes.txt" 2
     (regularFile "notes.txt") s).1
  = Library.set_log
      [EvScanDive "/lib/notes.txt" 2; EvLstat "/lib/notes.txt";
       EvHandleOther "/lib/notes.txt"] s.
Proof.
  intros s. unfold regularFile.
  rewrite (proj1 (C7_unclassified_file_reaches_only_other_handler
                    (go := sampleGo) (env := sampleEnv) (sampleLibrary 0)
                    (Some (mkPathHandler true true true))
                    "/lib/notes.txt" 2
                    (mkFileInfo "notes.txt" 1 420 7 VNil) None s
                    eq_refl
                    ltac:(repeat split; apply not_inTable_by_lookup;
                          reflexivity))).
  reflexivity.
Defined.

(* ===================================================================== *)
(** * Part III: further properties                                        *)
(* ===================================================================== *)

(** ** Sequences of busy operations *)

Section BusySequences.
Import BusyState.

Lemma wrap64_idem (c : Z) : wrap64 (wrap64 c) = wrap64 c.
Proof. unfold wrap64. apply Z.mod_mod. lia. Qed.

Lemma wrap64_small (c : Z) : 0 <= c < 2 ^ 64 -> wrap64 c = c.
Proof. intros Hc. unfold wrap64. by apply Z.mod_small. Qed.

Lemma wrap64_add_l (a b : Z) : wrap64 (wrap64 a + b) = wrap64 (a + b).
Proof. unfold wrap64. apply Zplus_mod_idemp_l. Qed.

Lemma wrap64_ones (c : Z) : wrap64 (c + Z.ones 64) = wrap64 (c - 1).
Proof.
  unfold wrap64. change (Z.ones 64) with (2 ^ 64 - 1).
  replace (c + (2 ^ 64 - 1)) with (c - 1 + 1 * 2 ^ 64) by lia.
  by rewrite Z.mod_add by lia.
Qed.

Lemma next_wf (s : t) : wf s -> wf (next s).1.
Proof.
  intros [Hc Hy]. unfold wf, next, wrap64. cbn.
  split; [lia | apply Z.mod_pos_bound; lia].
Qed.

Lemma stepBusy_wf (s : t) (op : BusyOp) : wf s -> wf (stepBusy s op).
Proof.
  intros Hs. destruct op; [by apply inc_wf|by apply dec_wf|by apply next_wf].
Qed.

Lemma stepBusy_count (s : t) (op : BusyOp) :
  busyCount (stepBusy s op) = wrap64 (busyCount s + netBusy op) \/
  op = OpNext /\ busyCount (stepBusy s op) = busyCount s.
Proof.
  destruct op.
  - left. apply inc_count.
  - left. unfold stepBusy. rewrite dec_count. apply wrap64_ones.
  - by right.
Qed.

Lemma stepBusy_changed (s : t) (op : BusyOp) :
  changed (stepBusy s op)
  = changed s
    ++ (if sendsBusy op then [busyCount (stepBusy s op)] else []).
Proof.
  destruct op; cbn.
  - unfold inc. by case_match.
  - unfold dec. by case_match.
  - by rewrite app_nil_r.
Qed.

Lemma runBusy_snoc (ops : list BusyOp) (op : BusyOp) (s : t) :
  runBusy (ops ++ [op]) s = stepBusy (runBusy ops s) op.
Proof. unfold runBusy. by rewrite foldl_app. Qed.

Lemma runBusy_wf (ops : list BusyOp) (s : t) : wf s -> wf (runBusy ops s).
Proof.
  revert s. induction ops as [|op ops IH]; intros s Hs; [done|].
  cbn. by apply IH, stepBusy_wf.
Qed.

Lemma runBusy_nexts (k : nat) (s : t) :
  wf s ->
  runBusy (replicate k OpNext) s
  = {| changed := changed s; busyCount := busyCount s;
       busyCycle := wrap64 (busyCycle s + Z.of_nat k) |}.
Proof.
  revert s. induction k as [|k IH]; intros s Hs.
  - cbn. destruct s as [ch c y]. cbn. f_equal.
    rewrite Z.add_0_r. symmetry. apply wrap64_small. apply Hs.
  - cbn [replicate runBusy foldl]. change (foldl stepBusy ?a ?l)
      with (runBusy l a).
    rewrite IH by by apply stepBusy_wf. cbn. f_equal.
    rewrite wrap64_add_l. f_equal. lia.
Qed.

(** X1: the busy counter is exact modulo 2^64 over any sequence of calls
    of [inc], [dec] and [next]: it ends at the initial count plus the
    increments minus the decrements, so that a sequence with as many
    decrements as increments brings it back, also through a wrap-around;
    the channel receives one value per [inc] or [dec] and none per [next],
    and the fields stay within [uint64]. *)
Theorem runBusy_balance (ops : list BusyOp) (s : BusyState.t) :
  wf s ->
  wf (runBusy ops s) /\
  busyCount (runBusy ops s)
  = wrap64 (busyCount s + foldr Z.add 0 (netBusy <$> ops)) /\
  (exists sent,
     changed (runBusy ops s) = changed s ++ sent /\
     length sent = length (filter (fun op => sendsBusy op = true) ops)) /\
  (foldr Z.add 0 (netBusy <$> ops) = 0 ->
   busyCount (runBusy ops s) = busyCount s).
Proof.
  intros Hs. split; [by apply runBusy_wf|].
  assert (Hcount : forall s0, wf s0 ->
    busyCount (runBusy ops s0)
    = wrap64 (busyCount s0 + foldr Z.add 0 (netBusy <$> ops))).
  { induction ops as [|op ops IH]; intros s0 Hs0.
    - cbn. rewrite Z.add_0_r. symmetry. apply wrap64_small, Hs0.
    - cbn [runBusy foldl fmap list_fmap foldr].
      change (foldl stepBusy ?a ?l) with (runBusy l a).
      rewrite IH by by apply stepBusy_wf.
      destruct (stepBusy_count s0 op) as [->|[-> ->]].
      + rewrite wrap64_add_l. f_equal. lia.
      + done. }
  split; [by apply Hcount|]. split.
  - clear Hcount. revert s Hs.
    induction ops as [|op ops IH]; intros s Hs.
    + exists []. by rewrite app_nil_r.
    + cbn [runBusy foldl].
      change (foldl stepBusy ?a ?l) with (runBusy l a).
      destruct (IH (stepBusy s op)) as (sent & Hsent & Hlen);
        [by apply stepBusy_wf|].
      rewrite Hsent, stepBusy_changed, <- app_assoc.
      eexists. split; [reflexivity|].
      rewrite filter_cons. destruct op; cbn; by rewrite ?Hlen.
  - intros Hz. rewrite Hcount, Hz, Z.add_0_r by done.
    apply wrap64_small, Hs.
Qed.

Lemma runBusy_balance_witness :
  let s := newBusyState in
  let ops := [OpDec; OpNext; OpInc; OpInc; OpNext; OpDec] in
  busyCount (runBusy ops s) = busyCount s.
Proof.
  intros s ops.
  apply (runBusy_balance ops s); [vm_compute; by repeat split | reflexivity].
Defined.

(** X2: after the call of [inc] that leaves the idle state, or the call of
    [dec] that returns to it, [k] calls of [next] make [cycle] answer [k]
    and leave the busy count and the channel alone.  In the second case
    the count is 0 all along: [cycle] does not answer 0 whenever nothing
    is busy. *)
Theorem cycle_counts_next_calls (op : BusyOp) (k : nat) (s : BusyState.t) :
  wf s ->
  (op = OpInc /\ busyCount s = 0) \/ (op = OpDec /\ busyCount s = 1) ->
  Z.of_nat k < 2 ^ 63 ->
  let s1 := stepBusy s op in
  let s2 := runBusy (op :: replicate k OpNext) s in
  cycle s2 = Z.of_nat k /\
  count s2 = count s1 /\
  changed s2 = changed s1 /\
  (op = OpDec -> count s2 = 0).
Proof.
  intros Hs Hop Hk s1 s2.
  assert (Hs1 : wf s1) by by apply stepBusy_wf.
  assert (Hy : busyCycle s1 = 0).
  { subst s1. destruct Hop as [[-> Hc]|[-> Hc]]; cbn.
    - unfold inc. by rewrite Hc.
    - unfold dec. by rewrite Hc. }
  assert (Hs2 : s2 = {| changed := changed s1; busyCount := busyCount s1;
                        busyCycle := wrap64 (Z.of_nat k) |}).
  { subst s2. cbn [runBusy foldl].
    change (foldl stepBusy ?a ?l) with (runBusy l a).
    fold s1. rewrite runBusy_nexts by done. by rewrite Hy. }
  rewrite Hs2. unfold cycle, count. cbn.
  split; [|split; [done|split; [done|]]].
  - rewrite wrap64_small by lia. unfold int_of_uint64.
    case_match; [done|]. apply Z.ltb_ge in H. lia.
  - intros ->. destruct Hop as [[? _]|[_ Hc]]; [done|].
    subst s1. cbn. unfold dec. rewrite Hc. reflexivity.
Qed.

Lemma cycle_counts_next_calls_witness :
  let s := (inc newBusyState).1 in
  cycle (runBusy (OpDec :: replicate 3 OpNext) s) = 3 /\
  count (runBusy (OpDec :: replicate 3 OpNext) s) = 0.
Proof.
  intros s.
  pose proof (cycle_counts_next_calls OpDec 3 s
                ltac:(vm_compute; by repeat split)
                ltac:(right; by split)
                ltac:(reflexivity)) as (H1 & _ & _ & H4).
  split; [exact H1 | by apply H4].
Defined.

End BusySequences.

(** ** The farewell *)

Lemma contains_spec (i : TimeInterval) (t : Z) :
  contains i t = true <-> ti_start i <= t < ti_stop i.
Proof.
  unfold contains.
  rewrite andb_true_iff, orb_true_iff, !Z.ltb_lt, Z.eqb_eq. lia.
Qed.

Ltac by_bools :=
  repeat match goal with
         | H : _ && _ = true |- _ => apply andb_true_iff in H as [? ?]
         | H : _ && _ = false |- _ => apply andb_false_iff in H as [?|?]
         | H : _ && _ <> true |- _ => apply not_true_iff_false in H
         | H : (_ <=? _) = true |- _ => apply Z.leb_le in H
         | H : (_ <=? _) = false |- _ => apply Z.leb_gt in H
         | H : (_ <? _) = true |- _ => apply Z.ltb_lt in H
         | H : (_ <? _) = false |- _ => apply Z.ltb_ge in H
         end;
  first [reflexivity | lia].

(** X3: [contains] tests the half-open interval from [start] to [stop].
    The five intervals of [greeting] do not overlap, and together they
    cover the 24 hours that follow the midnight [d]: an instant of these
    hours is described by the part of the day it falls in, and an instant
    outside them (the last hour of a day of 25 hours, say) by the empty
    string, so that the message then ends in a blank and the mark. *)
Theorem timeOfDay_covers_the_day (d n second : Z) (intn : nat -> nat) :
  (forall i t, contains i t = true <-> ti_start i <= t < ti_stop i) /\
  length (filter (fun ti => contains ti n = true) (dayIntervals d))
  = (if (d <=? n) && (n <? d + 24 * time_Hour) then 1%nat else 0%nat) /\
  timeOfDay (dayIntervals d) n
  = (if n <? d then EmptyString
     else if n <? d + 5 * time_Hour then "night"%string
     else if n <? d + 12 * time_Hour then "morning"%string
     else if n <? d + 17 * time_Hour then "afternoon"%string
     else if n <? d + 22 * time_Hour then "evening"%string
     else if n <? d + 24 * time_Hour then "night"%string
     else EmptyString) /\
  (n < d \/ d + 24 * time_Hour <= n ->
   exists adj, greeting n d second intn
               = ("quitting, have " +:+ adj +:+ " !")%string).
Proof.
  split; [apply contains_spec|].
  assert (Hh : time_Hour = 3600000000000) by reflexivity.
  assert (Hc : forall a b ds,
             contains (mkTimeInterval (d + time_Hour * a)
                                      (d + time_Hour * b) ds) n
             = (d + time_Hour * a <=? n) && (n <? d + time_Hour * b)).
  { intros a b ds. apply eq_true_iff_eq.
    rewrite contains_spec, andb_true_iff, Z.leb_le, Z.ltb_lt. by cbn. }
  split; [|split].
  - unfold dayIntervals. rewrite !filter_cons, filter_nil.
    repeat case_decide;
      repeat match goal with
             | H : contains _ _ = true |- _ => rewrite Hc in H
             | H : ~ contains _ _ = true |- _ => rewrite Hc in H
             end;
      repeat case_match; cbn; by_bools.
  - unfold timeOfDay, dayIntervals. rewrite !Hc.
    repeat case_match; by_bools.
  - intros Hout. unfold greeting. eexists.
    replace (timeOfDay (dayIntervals d) n) with EmptyString; [reflexivity|].
    unfold timeOfDay, dayIntervals. rewrite !Hc.
    repeat case_match; by_bools.
Qed.

(** ** The traversal only appends *)

Section AppendOnly.
Context {go : GoLib} {env : Env}.
Import Library.

Lemma extends_refl (d : Database) : extends d d.
Proof.
  split; [done|]. intros c k. exists []. split; [by rewrite app_nil_r|].
  cbn. by rewrite Z.add_0_r.
Qed.

Lemma extends_trans (d1 d2 d3 : Database) :
  extends d1 d2 -> extends d2 d3 -> extends d1 d3.
Proof.
  intros [Hl1 H1] [Hl2 H2]. split; [congruence|]. intros c k.
  destruct (H1 c k) as (a1 & Hd1 & Hc1), (H2 c k) as (a2 & Hd2 & Hc2).
  exists (a1 ++ a2). split; [by rewrite Hd2, Hd1, app_assoc|].
  rewrite Hc2, <- wrap64_add_l, Hc1, wrap64_add_l, length_app.
  f_equal. lia.
Qed.

Lemma extends_insert (s : State) (class kind id : Z) (rec : MediaRecord) :
  extends (db s)
    (db (incNumRecordsScan class kind
           (setDocs class kind (docsOf (db s) class kind ++ [(id, rec)]) s))).
Proof.
  split; [done|]. intros c k. cbn. unfold docsOf, scanCount. cbn.
  destruct (decide ((class, kind) = (c, k))) as [[= <- <-]|Hne].
  - exists [(id, rec)]. rewrite !lookup_insert_eq. cbn.
    split; [done|]. by rewrite wrap64_idem.
  - exists []. rewrite !lookup_insert_ne by done.
    split; [by rewrite app_nil_r|]. cbn. by rewrite Z.add_0_r.
Qed.

Lemma indexFile_extends ph (class kind : Z) (path : string)
    (make : Z -> Entity * Outcome MediaRecord) slot notify (s : State) :
  extends (db s) (db (indexFile ph class kind path make slot notify s).1).
Proof.
  unfold indexFile, seenFile.
  repeat (case_match; simplify_eq; cbn [fst]);
    first [ apply extends_refl
          | match goal with
            | |- context [incNumRecordsScan class kind
                            (setDocs class kind (_ ++ [(?id, ?rec)]) ?st)] =>
                apply (extends_insert
                         (bump (logEv (EvQuery class kind path) s))
                         class kind id rec)
            end ].
Qed.

Lemma scanFile_extends ph (path relPath : string) (info : FileInfo)
    (s : State) :
  extends (db s) (db (scanFile ph path relPath info s).1).
Proof.
  unfold scanFile.
  repeat case_match; cbn [fst];
    first [ apply indexFile_extends | apply extends_refl ].
Qed.

Lemma scanDive_extends (l : t) ph path depth node (s : State) :
  extends (db s) (db (scanDive l ph path depth node s).1).
Proof.
  apply (scanDive_across (fun a b => extends (db a) (db b))).
  - intros. apply extends_refl.
  - intros a b c. apply extends_trans.
  - intros. apply extends_refl.
  - intros. apply scanFile_extends.
Qed.

(** X4: a traversal only appends to the index, whatever the file system
    holds and whatever the index answers.  Across a call of [scanDive] no
    document is removed, replaced or moved: every collection as it was is
    the beginning of the collection afterwards, a collection being listed
    in the order in which its documents were inserted; the counts of
    loaded records are not touched; and the count of scanned records of
    each collection grows, modulo 2^64, by exactly the number of documents
    appended to that collection. *)
Theorem scanDive_only_appends (l : Library.t) (ph : option PathHandler)
    (path : string) (depth : Z) (node : FsNode) (s : Library.State) :
  extends (db s) (db (scanDive l ph path depth node s).1).
Proof. apply scanDive_extends. Qed.

End AppendOnly.

(** ** What the traversal indexes *)

Section Soundness.
Context {go : GoLib} {env : Env}.
Import Library.

Lemma scanFile_sound ph (path relPath : string) (info : FileInfo)
    (s : State) (c k : Z) (q : string) :
  (countPath (db s) c k q
   < countPath (db (scanFile ph path relPath info s).1) c k q)%nat ->
  q = path /\ classifiedAs (strings_ToLower (path_Ext path)) c k /\
  countPath (db s) c k q = 0%nat.
Proof.
  intros Hlt.
  destruct (scanFile_db ph path relPath info s)
    as [[Hdb _]|(class & kind & Hck & Hz & Ha)].
  - rewrite Hdb in Hlt. lia.
  - rewrite (countPath_appended _ _ _ _ _ Ha) in Hlt.
    case_decide as Heq; [|lia]. by simplify_eq.
Qed.

Lemma scanEntries_sound (l : t) ph (p : string) (d : Z) (c k : Z)
    (q : string) (es : list (string * FsNode)) :
  Forall (fun e => indexedOnlyIfReached l ph c k q e.2) es ->
  forall s,
    (countPath (db s) c k q
     < countPath (db (scanEntries l ph p d es s)) c k q)%nat ->
    exists nm child dq m,
      (nm, child) ∈ es /\
      reaches l (path_Join p nm) (wrap64 (d + 1)) child q dq m /\
      plainFile m /\ is_Some (filepath_Rel (absPath l) q) /\
      classifiedAs (strings_ToLower (path_Ext q)) c k /\
      countPath (db s) c k q = 0%nat.
Proof.
  induction 1 as [|[nm child] rest Hchild _ IH]; intros s Hlt;
    [cbn in Hlt; lia|].
  rewrite scanEntries_cons in Hlt.
  set (r := scanDive l ph (path_Join p nm) (wrap64 (d + 1)) child s) in *.
  assert (Hw : db (warned r) = db r.1).
  { unfold warned. by destruct r as [s' [e|]]. }
  pose proof (scanDive_count_mono l ph (path_Join p nm) (wrap64 (d + 1))
                child s c k q) as Hmono. fold r in Hmono.
  destruct (decide (countPath (db s) c k q < countPath (db r.1) c k q)%nat)
    as [Hhere|Hnot].
  - destruct (Hchild _ _ _ Hhere) as (dq & m & Hr & Hm & Hq & Hck & Hz).
    exists nm, child, dq, m. split; [by left|done].
  - destruct (IH (warned r)) as (nm' & child' & dq & m & Hin & Hr & Hm & Hq
                                  & Hck & Hz).
    { rewrite Hw. lia. }
    exists nm', child', dq, m. split; [by right|].
    rewrite Hw in Hz. repeat split; try done. lia.
Qed.

Lemma scanDive_sound (l : t) ph (c k : Z) (q : string) (n : FsNode) :
  indexedOnlyIfReached l ph c k q n.
Proof.
  induction n as [|info|info entries IH] using FsNode_nested_ind;
    intros p d s; rewrite scanDive_eq; cbv zeta.
  - repeat case_match; cbn [fst db logEv set_log]; lia.
  - destruct (filepath_Rel (absPath l) p) as [relPath|] eqn:Hrel;
      [|cbn; lia].
    repeat case_match; cbn [fst]; try (cbn; lia).
    intros Hlt.
    apply (scanFile_sound ph p relPath info
             (logEv (EvLstat p) (logEv (EvScanDive p d) s)))
      in Hlt as (-> & Hck & Hz).
    exists d, (FsEntry info None).
    split; [constructor|]. split; [by eexists _, _|].
    split; [by eexists|]. by split.
  - destruct (filepath_Rel (absPath l) p) as [relPath|] eqn:Hrel;
      [|cbn; lia].
    destruct (isDir (fi_Mode info)) eqn:Hdir.
    + case_match eqn:Hdepth; [cbn; lia|]. cbn [fst]. intros Hlt.
      apply (scanEntries_sound l ph p d c k q entries IH
               (logEv (EvReaddir p)
                  (logEv (EvLstat p) (logEv (EvScanDive p d) s))))
        in Hlt as (nm & child & dq & m & Hin & Hr & Hm & Hq & Hck & Hz).
      exists dq, m. split; [|done].
      eapply reaches_child; eauto.
      apply andb_false_iff in Hdepth as [Hu|Hd].
      * left. apply negb_false_iff, Z.eqb_eq in Hu. by symmetry.
      * right. by apply Z.ltb_ge in Hd.
    + repeat case_match; cbn [fst]; try (cbn; lia).
      intros Hlt.
    apply (scanFile_sound ph p relPath info
             (logEv (EvLstat p) (logEv (EvScanDive p d) s)))
      in Hlt as (-> & Hck & Hz).
      exists d, (FsEntry info (Some entries)).
      split; [constructor|]. split; [by eexists _, _|].
      split; [by eexists|]. by split.
Qed.

(** X5: the traversal indexes nothing but the files it reaches.  When the
    number of documents with path [q] in the collection of class [c] and
    kind [k] goes up across a call of [scanDive], then [q] is the path of
    an entry the traversal reaches that is neither a directory, nor a
    symbolic link, nor a device, pipe or socket, that has a path relative
    to the library, and whose lowercased extension is of class [c] and
    kind [k]; and the collection held no document with that path when the
    call began.  Directories, links, special files and files of an
    extension outside the tables never get a document. *)
Theorem scanDive_indexes_only_reached_files (l : Library.t)
    (ph : option PathHandler) (p : string) (d : Z) (n : FsNode)
    (s : Library.State) (c k : Z) (q : string) :
  (countPath (db s) c k q
   < countPath (db (scanDive l ph p d n s).1) c k q)%nat ->
  exists dq m,
    reaches l p d n q dq m /\ plainFile m /\
    is_Some (filepath_Rel (absPath l) q) /\
    classifiedAs (strings_ToLower (path_Ext q)) c k /\
    countPath (db s) c k q = 0%nat.
Proof. apply scanDive_sound. Qed.

End Soundness.

Lemma scanDive_indexes_only_reached_files_witness :
  let s := idleState emptyDatabase true in
  exists dq m,
    reaches (go := sampleGo) (sampleLibrary 0) "/lib" 1 oneFileTree
      "/lib/a.mp3" dq m /\
    plainFile m /\
    classifiedAs (strings_ToLower (GoLib := sampleGo)
                    (path_Ext (GoLib := sampleGo) "/lib/a.mp3"))
      ecMedia mkAudio.
Proof.
  intros s.
  destruct (scanDive_indexes_only_reached_files (go := sampleGo)
              (env := sampleEnv) (sampleLibrary 0) None "/lib" 1 oneFileTree
              s ecMedia mkAudio "/lib/a.mp3")
    as (dq & m & Hr & Hm & _ & Hck & _).
  - vm_compute. lia.
  - by exists dq, m.
Defined.

(** ** The depth limit *)

Section DepthLimit.
Context {go : GoLib} {env : Env}.
Import Library.

(** The counter of an entry that the traversal reaches stays within the
    limit plus one. *)
Lemma reaches_within (l : t) (p : string) (dp : Z) (n : FsNode)
    (q : string) (dq : Z) (m : FsNode) :
  0 < maxDepth l -> reaches l p dp n q dq m ->
  0 <= dp <= maxDepth l + 1 -> 0 <= dq <= maxDepth l + 1.
Proof.
  intros Hmax Hr. induction Hr
    as [p d n|p d info entries nm child q dq m Hrel Hdir Hdepth Hin _ IH];
    intros Hd; [done|].
  apply IH. destruct Hdepth as [Hu|Hle];
    [unfold depthUnlimited in Hu; lia|].
  unfold wrap64. split; [apply Z.mod_pos_bound; lia|].
  etrans; [apply Z.mod_le; lia|lia].
Qed.

(** An entry of a directory that the traversal reaches and enters is
    reached, with the next counter. *)
Lemma reaches_entry (l : t) (a : string) (da : Z) (na : FsNode)
    (p : string) (dp : Z) (dir : FsNode) :
  reaches l a da na p dp dir ->
  forall info entries nm child,
    dir = FsEntry info (Some entries) ->
    is_Some (filepath_Rel (absPath l) p) ->
    isDir (fi_Mode info) = true ->
    maxDepth l = depthUnlimited \/ dp <= maxDepth l ->
    (nm, child) ∈ entries ->
    reaches l a da na (path_Join p nm) (wrap64 (dp + 1)) child.
Proof.
  induction 1
    as [p d n|p d info0 entries0 nm0 child0 q dq m Hrel0 Hdir0 Hdepth0 Hin0
          _ IH];
    intros info entries nm child -> Hrel Hdir Hdepth Hin.
  - eapply reaches_child; eauto. constructor.
  - eapply reaches_child; eauto.
Qed.

(** C4: with [maxDepth = d], [d] not 0, the traversal started on the root
    with the counter at 1, and the depth of a file being the depth of the
    directory that lists it (the counter of that directory: 1 for the
    files of the root, one more per directory level): no entry listed in a
    directory of depth above [d] is visited, and none is indexed; the
    files of the tables in a directory of depth up to [d], so also of
    depth exactly [d], that the traversal reaches are indexed when the
    index answers every query and accepts every record; and a directory
    whose own counter, the next depth for what it lists, exceeds [d] is
    answered with [rcDirDepth] without being listed. *)
Theorem C4_depth_limit (l : Library.t) (ph : option PathHandler)
    (root : FsNode) (s : Library.State) :
  0 < maxDepth l ->
  let s1 := (scanDive l ph (absPath l) 1 root s).1 in
  (exists evs, log s1 = log s ++ evs /\
     forall q dq, EvScanDive q dq ∈ evs -> listingDepth dq <= maxDepth l) /\
  (forall c k q,
     (countPath (db s) c k q < countPath (db s1) c k q)%nat ->
     exists dq m,
       reaches l (absPath l) 1 root q dq m /\ plainFile m /\
       listingDepth dq <= maxDepth l) /\
  (noFaults ->
   forall p dp info entries nm finfo flisting c k,
     reaches l (absPath l) 1 root p dp (FsEntry info (Some entries)) ->
     isDir (fi_Mode info) = true ->
     is_Some (filepath_Rel (absPath l) p) ->
     dp <= maxDepth l ->
     (nm, FsEntry finfo flisting) ∈ entries ->
     IsRegular (fi_Mode finfo) = true ->
     is_Some (filepath_Rel (absPath l) (path_Join p nm)) ->
     classifiedAs (strings_ToLower (path_Ext (path_Join p nm))) c k ->
     (1 <= countPath (db s1) c k (path_Join p nm))%nat) /\
  (noFaults ->
   forall q dq info listing c k,
     reaches l (absPath l) 1 root q dq (FsEntry info listing) ->
     IsRegular (fi_Mode info) = true ->
     is_Some (filepath_Rel (absPath l) q) ->
     classifiedAs (strings_ToLower (path_Ext q)) c k ->
     (1 <= countPath (db s1) c k q)%nat) /\
  (forall p dp info listing st,
     isDir (fi_Mode info) = true ->
     is_Some (filepath_Rel (absPath l) p) ->
     maxDepth l < dp ->
     scanDive l ph p dp (FsEntry info listing) st =
     (logEv (EvLstat p) (logEv (EvScanDive p dp) st), Some rcDirDepth)).
Proof.
  intros Hmax s1. split; [|split; [|split; [|split]]].
  - destruct (scanDive_depths l ph root Hmax (absPath l) 1 s ltac:(lia))
      as (evs & Hlog & Hin).
    exists evs. split; [exact Hlog|]. intros q dq Hq.
    specialize (Hin q dq Hq). unfold listingDepth. lia.
  - intros c k q Hlt.
    destruct (scanDive_sound l ph c k q root (absPath l) 1 s Hlt)
      as (dq & m & Hr & Hm & _).
    exists dq, m. split; [exact Hr|]. split; [exact Hm|].
    pose proof (reaches_within l _ _ _ _ _ _ Hmax Hr ltac:(lia)) as Hb.
    unfold listingDepth. lia.
  - intros Hnf p dp info entries nm finfo flisting c k Hr Hdir Hrel Hdp
      Hin Hreg Hq Hck.
    eapply scanDive_indexes; [done| |by apply IsRegular_plainFile|done..].
    eapply reaches_entry; eauto.
  - intros Hnf q dq info listing c k Hr Hreg Hq Hck.
    eapply scanDive_indexes; [done|exact Hr| |done..].
    by apply IsRegular_plainFile.
  - intros p dp info listing st Hdir [relPath Hrel] Hdeep.
    rewrite scanDive_eq. cbv zeta. rewrite Hrel, Hdir.
    assert (negb (depthUnlimited =? maxDepth l) && (maxDepth l <? dp) = true)
      as ->; [|done].
    apply andb_true_iff. split.
    + apply negb_true_iff, Z.eqb_neq. unfold depthUnlimited. lia.
    + by apply Z.ltb_lt.
Qed.

End DepthLimit.

Lemma C4_witness :
  let s := idleState emptyDatabase true in
  let s1 := (Library.scanDive (go := sampleGo) (env := sampleEnv)
               (sampleLibrary 1) None "/lib" 1 nestedFileTree s).1 in
  exists evs, Library.log s1 = Library.log s ++ evs /\
    forall q dq, EvScanDive q dq ∈ evs -> listingDepth dq <= 1.
Proof.
  intros s s1.
  apply (C4_depth_limit (go := sampleGo) (env := sampleEnv)
           (sampleLibrary 1) None nestedFileTree s).
  reflexivity.
Defined.

(** With [maxDepth = 1] on the tree [/lib/a.mp3], [/lib/sub/b.mp3]: the
    file of the root, of depth 1, is indexed, the file of [/lib/sub], of
    depth 2, is not, and the directory [/lib/sub], whose counter is 2, is
    answered with [rcDirDepth]. *)
Example depth_limit_one :
  let tree := directory "lib"
                [("a.mp3"%string, regularFile "a.mp3");
                 ("sub"%string,
                  directory "sub" [("b.mp3"%string, regularFile "b.mp3")])] in
  let s1 := (Library.scanDive (go := sampleGo) (env := sampleEnv)
               (sampleLibrary 1) None "/lib" 1 tree
               (idleState emptyDatabase true)).1 in
  countPath (Library.db s1) ecMedia mkAudio "/lib/a.mp3" = 1%nat /\
  countPath (Library.db s1) ecMedia mkAudio "/lib/sub/b.mp3" = 0%nat /\
  EvWarn rcDirDepth ∈ Library.log s1.
Proof.
  cbv zeta. split; [by vm_compute|]. split; [by vm_compute|].
  apply list_elem_of_In. vm_compute. tauto.
Qed.

(** ** The result of a scan *)

Section ScanResult.
Context {go : GoLib} {env : Env}.
Import Library.

Lemma scan_err (l : t) ph (root : FsNode) (s : State) :
  canSend (scanStart s) = true ->
  (scan l ph root s).2 = (scanDive l ph (absPath l) 1 root (scanAdmit s)).2.
Proof.
  intros Hgate. rewrite scan_admitted by done.
  destruct (scanFinish_gates (scanRun l ph root (scanAdmit s)).2
              (scanRun l ph root (scanAdmit s)).1) as (_ & _ & _ & _ & ->).
  apply scanRun_err.
Qed.

Lemma root_within_depth (l : t) :
  0 <= maxDepth l -> maxDepth l = depthUnlimited \/ 1 <= maxDepth l.
Proof. unfold depthUnlimited. lia. Qed.

(** X6: the error of a scan is the error of the call of [scanDive] on the
    root, and the depth limit never refuses the root.  So a scan of a root
    directory that can be listed returns no error, whatever happens below
    it: the errors of the entries are logged and dropped.  And when the
    root is missing, cannot be listed, is a link or a special file, or has
    no path relative to the library, the scan returns an error, leaves the
    index as it was and frees its slot. *)
Theorem scan_result_is_decided_at_the_root (l : Library.t)
    (ph : option PathHandler) (root : FsNode) (s : Library.State) :
  canSend (scanStart s) = true ->
  0 <= maxDepth l ->
  let r := scan l ph root s in
  (forall info entries,
     root = FsEntry info (Some entries) ->
     isDir (fi_Mode info) = true ->
     is_Some (filepath_Rel (absPath l) (absPath l)) ->
     r.2 = None) /\
  (~ plainFile root ->
   (forall info entries, root = FsEntry info (Some entries) ->
                         is_Some (filepath_Rel (absPath l) (absPath l)) ->
                         False) ->
   (exists e, r.2 = Some e /\
              e ∈ [rcInvalidPath; rcInvalidStat; rcDirOpen; rcInvalidFile]) /\
   db r.1.1 = db s /\ scanStart r.1.1 = []).
Proof.
  intros Hgate Hmax r. subst r. split.
  - intros info entries -> Hdir Hrel.
    rewrite scan_err by done.
    by rewrite scanDive_listed by auto using root_within_depth.
  - intros Hplain Hroot.
    destruct (scan_db l ph root s Hgate) as [Hdb _].
    destruct (scan_released l ph root s Hgate) as (Hfree & _ & _).
    cbv zeta in Hfree. rewrite Hdb, Hfree, scan_err by done.
    destruct (scanAdmit_gates s) as (_ & _ & _ & Hadm & _).
    rewrite <- Hadm. generalize (scanAdmit s). intros st.
    rewrite scanDive_eq. cbv zeta.
    destruct (filepath_Rel (absPath l) (absPath l)) as [rel|] eqn:Hrel.
    2:{ cbn. split; [|done]. eexists. split; [done|]. set_solver. }
    destruct root as [|info listing].
    { cbn. split; [|done]. eexists. split; [done|]. set_solver. }
    destruct (isDir (fi_Mode info)) eqn:Hdir.
    + destruct listing as [entries|]; [by destruct (Hroot info entries)|].
      replace (negb (depthUnlimited =? maxDepth l) && (maxDepth l <? 1))
        with false.
      2:{ symmetry. apply andb_false_iff.
          destruct (root_within_depth l Hmax) as [->|H1].
          - by left.
          - right. apply Z.ltb_ge. lia. }
      cbn. split; [|done]. eexists. split; [done|]. set_solver.
    + destruct (isSymlink (fi_Mode info)) eqn:Hlink.
      { cbn. split; [|done]. eexists. split; [done|]. set_solver. }
      destruct (isSpecial (fi_Mode info)) eqn:Hspecial.
      { cbn. split; [|done]. eexists. split; [done|]. set_solver. }
      destruct Hplain. by eexists _, _.
Qed.

End ScanResult.

Lemma scan_result_is_decided_at_the_root_witness :
  (Library.scan (go := sampleGo) (env := sampleEnv) (sampleLibrary 0) None
     (directory "lib" [("gone"%string, FsMissing)])
     (idleState emptyDatabase true)).2 = None.
Proof.
  refine (proj1 (scan_result_is_decided_at_the_root (go := sampleGo)
                   (env := sampleEnv) (sampleLibrary 0) None
                   (directory "lib" [("gone"%string, FsMissing)])
                   (idleState emptyDatabase true) eq_refl _)
            _ _ eq_refl eq_refl _).
  - vm_compute. discriminate.
  - vm_compute. by eexists.
Defined.

(** ** Loading *)

Section LoadFacts.
Context {go : GoLib} {env : Env}.
Import Library.

Lemma loadDoc_republished ph (c k : Z) (s : State) (doc : Z * MediaRecord) :
  (c, k) ∈ collections ->
  republished (if wants ph c then 1 else 0) s (loadDoc ph c k s doc).
Proof.
  intros Hck. unfold loadDoc, republished, wants.
  destruct (loadRecord c k doc.2) as [path entity].
  assert (Hnone : db s = db s /\
            exists evs, log s = log s ++ evs /\ length evs = 0%nat /\
                        Forall isEntityCall evs).
  { split; [done|]. exists []. by rewrite app_nil_r. }
  assert (Hone : forall ev, isEntityCall ev ->
            db (logEv ev s) = db s /\
            exists evs, log (logEv ev s) = log s ++ evs /\
                        length evs = 1%nat /\ Forall isEntityCall evs).
  { intros ev Hev. split; [done|]. exists [ev]. repeat split.
    by constructor. }
  unfold collections in Hck.
  repeat (apply elem_of_cons in Hck as [[= -> ->]|Hck]);
    [| | |by apply elem_of_nil in Hck];
    cbn; destruct ph as [[hm hs ho]|]; cbn; try done;
    repeat case_match; try done; by apply Hone.
Qed.

Lemma loadDocs_republished ph (c k : Z) (docs : list (Z * MediaRecord)) :
  (c, k) ∈ collections ->
  forall s,
    republished (if wants ph c then length docs else 0) s
      (foldl (loadDoc ph c k) s docs).
Proof.
  intros Hck. induction docs as [|doc docs IH]; intros s.
  - split; [done|]. exists []. rewrite app_nil_r. by case_match.
  - cbn [foldl].
    destruct (loadDoc_republished ph c k s doc Hck)
      as (Hdb1 & e1 & Hl1 & Hn1 & Hf1).
    destruct (IH (loadDoc ph c k s doc)) as (Hdb2 & e2 & Hl2 & Hn2 & Hf2).
    split; [congruence|]. exists (e1 ++ e2).
    split; [by rewrite Hl2, Hl1, app_assoc|].
    split; [|by apply Forall_app].
    rewrite length_app, Hn1, Hn2. by destruct (wants ph c).
Qed.

Lemma docsOf_col (d d' : Database) (c k : Z) :
  col d' = col d -> docsOf d' c k = docsOf d c k.
Proof. unfold docsOf. by intros ->. Qed.

Lemma loadCounts_col (d d' : Database) (cks : list (Z * Z)) :
  col d' = col d ->
  forall m : gmap (Z * Z) Z,
    foldl (fun m ck =>
             <[ck := wrap64 (Z.of_nat (length (docsOf d' ck.1 ck.2)))]> m)
          m cks
    = foldl (fun m ck =>
               <[ck := wrap64 (Z.of_nat (length (docsOf d ck.1 ck.2)))]> m)
            m cks.
Proof. unfold docsOf. by intros ->. Qed.

Lemma loadEach_effect ph (cks : list (Z * Z)) :
  Forall (fun ck => ck ∈ collections) cks ->
  forall s,
    let s' := (loadEach ph cks s).1 in
    col (db s') = col (db s) /\
    numRecordsScan (db s') = numRecordsScan (db s) /\
    numRecordsLoad (db s') = loadCounts (db s) cks /\
    exists evs,
      log s' = log s ++ evs /\ Forall isEntityCall evs /\
      length evs = handled ph (db s) cks.
Proof.
  induction 1 as [|[c k] cks Hck _ IH]; intros s.
  - cbn. repeat split. exists []. by rewrite app_nil_r.
  - cbn [loadEach]. unfold loadDive.
    destruct (loadDocs_republished ph c k (docsOf (db s) c k) Hck s)
      as (Hdb1 & e1 & Hl1 & Hn1 & Hf1).
    set (s1 := foldl (loadDoc ph c k) s (docsOf (db s) c k)) in *.
    set (s2 := setNumRecordsLoad c k
                 (wrap64 (Z.of_nat (length (docsOf (db s) c k)))) s1).
    assert (Hcol : col (db s2) = col (db s)) by (cbn; by rewrite Hdb1).
    destruct (IH s2) as (Hc & Hs & Hl & e2 & Hl2 & Hf2 & Hn2).
    cbv zeta. split; [congruence|].
    split; [rewrite Hs; cbn; by rewrite Hdb1|].
    split.
    + rewrite Hl. unfold loadCounts. cbn [foldl fst snd].
      rewrite (loadCounts_col (db s) (db s2)) by done.
      cbn. by rewrite Hdb1.
    + exists (e1 ++ e2). split; [|split].
      * rewrite Hl2. cbn. by rewrite Hl1, app_assoc.
      * by apply Forall_app.
      * rewrite length_app, Hn1, Hn2. unfold handled. cbn [fmap list_fmap
          sum_list sum_list_with fst snd].
        f_equal. f_equal. apply list_fmap_ext. intros _ [c' k'] _. cbn.
        by rewrite (docsOf_col (db s) (db s2)).
Qed.

Lemma load_result ph (s : State) :
  canSend (loadStart s) = true ->
  let r := load ph s in
  r.2 = None /\
  col (db r.1.1) = col (db s) /\
  numRecordsScan (db r.1.1) = numRecordsScan (db s) /\
  numRecordsLoad (db r.1.1) = loadCounts (db s) collections /\
  exists evs,
    log r.1.1 = log s ++ evs /\ Forall isEntityCall evs /\
    length evs = handled ph (db s) collections.
Proof.
  intros Hgate r. subst r. rewrite load_admitted by done.
  destruct (loadFinish_gates (loadEach ph collections (loadAdmit s)).1)
    as (_ & _ & _ & ->). split; [done|].
  assert (Hadm : db (loadAdmit s) = db s /\ log (loadAdmit s) = log s).
  { unfold loadAdmit. by case_match. }
  destruct Hadm as [Hdb0 Hlog0].
  assert (Hfin : forall st,
            db (loadFinish st).1.1 = db st /\
            log (loadFinish st).1.1 = log st).
  { intros st. unfold loadFinish. by case_match. }
  destruct (Hfin (loadEach ph collections (loadAdmit s)).1) as [-> ->].
  destruct (loadEach_effect ph collections
              ltac:(by apply Forall_forall) (loadAdmit s))
    as (Hc & Hs & Hl & evs & Hlog & Hf & Hn).
  rewrite Hdb0, Hlog0 in *. repeat split; try done. by exists evs.
Qed.

(** X7: an admitted load returns no error and writes nothing to the
    collections: it leaves every document and every count of scanned
    records as they are, sets the count of loaded records of each of the
    three collections to the number of its documents (modulo 2^64), and
    calls a handler once per stored document when the slot of its class is
    set: the media handler for audio and video, the support handler for
    subtitles, never the third handler. *)
Theorem load_republishes_the_index (ph : option PathHandler)
    (s : Library.State) :
  canSend (loadStart s) = true ->
  let r := load ph s in
  r.2 = None /\
  col (db r.1.1) = col (db s) /\
  numRecordsScan (db r.1.1) = numRecordsScan (db s) /\
  numRecordsLoad (db r.1.1) = loadCounts (db s) collections /\
  exists evs,
    log r.1.1 = log s ++ evs /\ Forall isEntityCall evs /\
    length evs = handled ph (db s) collections.
Proof. apply load_result. Qed.

End LoadFacts.

Lemma load_republishes_the_index_witness :
  let s := (Library.scan (go := sampleGo) (env := sampleEnv)
              (sampleLibrary 0) None oneFileTree
              (idleState emptyDatabase true)).1.1 in
  let r := Library.load (env := sampleEnv)
             (Some (mkPathHandler true true true)) s in
  r.2 = None /\ col (Library.db r.1.1) = col (Library.db s).
Proof.
  intros s r.
  destruct (load_republishes_the_index (env := sampleEnv)
              (Some (mkPathHandler true true true)) s eq_refl)
    as (Herr & Hcol & _).
  split; [exact Herr | exact Hcol].
Defined.

(** ** Matching subtitles *)

Section MatchFacts.
Context {go : GoLib} {env : Env}.
Import Library.

Lemma findEach_all (orphan : list (Z * MediaRecord)) :
  (forall n id subs, exists m, findCandidates n id subs = inr m) ->
  forall (remain : nat) (s : State),
    exists left,
      (remain <= left <= remain + length orphan)%nat /\
      findEach orphan remain s
      = (set_tick (tick s + length orphan)
           (set_log (log s ++ (EvFindCandidates <$> orphan.*1)) s),
         inr left).
Proof.
  intros Hok. induction orphan as [|[id subs] rest IH]; intros remain s.
  - exists remain. split; [cbn; lia|]. cbn.
    rewrite app_nil_r, Nat.add_0_r. by destruct s.
  - cbn [findEach].
    destruct (Hok (tick s) id subs) as [m ->].
    destruct (IH (if (m =? 0)%nat then S remain else remain)
                (bump (logEv (EvFindCandidates id) s))) as (left & Hle & ->).
    exists left. split; [cbn [length]; case_match; lia|].
    f_equal. unfold set_tick, set_log, bump, logEv; cbn.
    rewrite <- app_assoc. cbn. f_equal. lia.
Qed.

(** X8: the reconciliation pass selects the stored subtitle documents
    without a known video, all of them when forced.  Without a selected
    document it returns no error and logs nothing: the matching step is
    not called.  Otherwise, when no call of the matching step fails, it
    returns no error, and what it logs is the number of documents
    selected, one call of the step per selected document, in stored order,
    and the number of documents still unmatched, which is at most the
    number selected. *)
Theorem recandidateSubtitles_visits_each_orphan (force : bool)
    (s : Library.State) :
  let docs := docsOf (db s) ecSupport skSubtitles in
  let orphan := List.filter (isOrphan force) docs in
  let r := recandidateSubtitles force s in
  (force = true -> orphan = docs) /\
  (orphan = [] -> r.2 = None /\ log r.1 = log s) /\
  (orphan <> [] ->
   (forall n id subs, exists m, findCandidates n id subs = inr m) ->
   r.2 = None /\
   exists left,
     (left <= length orphan)%nat /\
     log r.1
     = log s ++ EvOrphans (length orphan)
         :: (EvFindCandidates <$> orphan.*1) ++ [EvStillOrphan left]).
Proof.
  intros docs orphan r. subst r. split; [|split].
  - intros ->. subst orphan. unfold isOrphan. cbn.
    induction docs as [|d ds IH]; [done|]. cbn. by rewrite IH.
  - intros Hnil. unfold recandidateSubtitles. fold docs. fold orphan.
    by rewrite Hnil.
  - intros Hne Hok. unfold recandidateSubtitles. fold docs. fold orphan.
    destruct orphan as [|o os] eqn:Ho; [done|].
    replace (0 <? length (o :: os))%nat with true
      by (symmetry; apply Nat.ltb_lt; cbn; lia).
    destruct (findEach_all (o :: os) Hok 0
                (logEv (EvOrphans (length (o :: os))) s))
      as (left & Hle & ->).
    split; [done|]. exists left. split; [lia|].
    cbn [fst log logEv set_log set_tick]. rewrite <- !app_assoc.
    reflexivity.
Qed.

End MatchFacts.

Lemma recandidateSubtitles_visits_each_orphan_witness :
  let s := idleState
             (mkDatabase {[ (ecSupport, skSubtitles) := [(7, ∅)] ]} ∅ ∅)
             true in
  (Library.recandidateSubtitles (env := sampleEnv) false s).2 = None.
Proof.
  intros s.
  destruct (proj2 (proj2 (recandidateSubtitles_visits_each_orphan
                            (env := sampleEnv) false s))) as (Hr & _).
  - vm_compute. discriminate.
  - intros n id subs. by exists 0%nat.
  - exact Hr.
Defined.

(** ** The record readers *)

Section ReaderFacts.
Context {go : GoLib}.

(** One step of a reader, by the test of its key. *)
Lemma readField_fieldOk {M T : Type} (r : MediaRecord) (key : string)
    (assert : GoValue -> option T) (store : T -> M -> M) (m : M) :
  (fieldOk (accepts assert) r key = true /\
   readField r key assert store m
   = Returned (pick r key assert (fun x => store x m) m)) \/
  (fieldOk (accepts assert) r key = false /\
   readField r key assert store m = Panicked key).
Proof.
  unfold fieldOk, accepts, readField, pick.
  destruct (r !! key) as [v|]; [|by left].
  destruct (assert v); [by left|by right].
Qed.

Lemma step_agrees {M T B : Type} (r : MediaRecord) (key : string)
    (assert : GoValue -> option T) (store : T -> M -> M) (m : M)
    (K : M -> Outcome B) (shape : list (string * (GoValue -> bool)))
    (x : option string) :
  (forall m', agrees (K m') shape r x) ->
  agrees (obind (readField r key assert store m) K)
    ((key, accepts assert) :: shape) r x.
Proof.
  intros HK. cbn [firstMismatch agrees].
  destruct (readField_fieldOk r key assert store m) as [[Hok ->]|[Hok ->]];
    unfold agrees; cbn [obind firstMismatch]; rewrite Hok; [apply HK|done].
Qed.

Lemma nested_agrees {M T A B : Type} (r : MediaRecord) (key : string)
    (assert : GoValue -> option T) (store : T -> M -> M) (m : M)
    (F : M -> Outcome A) (K : A -> Outcome B)
    (shape : list (string * (GoValue -> bool))) (x : option string) :
  (forall m', agrees (obind (F m') K) shape r x) ->
  agrees (obind (obind (readField r key assert store m) F) K)
    ((key, accepts assert) :: shape) r x.
Proof.
  intros HK.
  destruct (readField_fieldOk r key assert store m) as [[Hok ->]|[Hok ->]];
    unfold agrees; cbn [obind firstMismatch]; rewrite Hok; [apply HK|done].
Qed.

Lemma last_agrees {M T : Type} (r : MediaRecord) (key : string)
    (assert : GoValue -> option T) (store : T -> M -> M) (m : M)
    (shape : list (string * (GoValue -> bool))) :
  agrees (readField r key assert store m)
    ((key, accepts assert) :: shape) r (firstMismatch shape r).
Proof.
  destruct (readField_fieldOk r key assert store m) as [[Hok ->]|[Hok ->]];
    unfold agrees; cbn [firstMismatch]; by rewrite Hok.
Qed.

Lemma readMedia_outcome {B : Type} (r : MediaRecord) (m : Media.t)
    (K : Media.t -> Outcome B) (rest : list (string * (GoValue -> bool)))
    (x : option string) :
  (forall m', agrees (K m') rest r x) ->
  agrees (obind (readMedia r m) K) (mediaShape ++ rest) r x.
Proof.
  intros HK. unfold readMedia, mediaShape. cbn [app].
  do 14 (apply nested_agrees; intros ?).
  apply step_agrees. exact HK.
Qed.

Lemma audio_fromRecord_outcome (m : AudioMedia.t) (r : MediaRecord) :
  agrees (AudioMedia.fromRecord m r) audioShape r None.
Proof.
  unfold AudioMedia.fromRecord, audioShape.
  apply readMedia_outcome. intros md.
  apply step_agrees. intros a. apply last_agrees.
Qed.

Lemma video_fromRecord_outcome (m : VideoMedia.t) (r : MediaRecord) :
  agrees (VideoMedia.fromRecord m r) videoShape r None.
Proof.
  unfold VideoMedia.fromRecord, videoShape.
  apply readMedia_outcome. intros md.
  apply step_agrees. intros v. apply last_agrees.
Qed.

Lemma outcome_iff {A : Type} (o : Outcome A)
    (shape : list (string * (GoValue -> bool))) (r : MediaRecord)
    (key : string) :
  agrees o shape r None ->
  ((exists x, o = Returned x) <-> firstMismatch shape r = None) /\
  (o = Panicked key <-> firstMismatch shape r = Some key).
Proof.
  unfold agrees. destruct o as [x|k]; intros ->; (split; split); try done.
  - by eexists.
  - by intros [? [=]].
  - by intros [= ->].
  - by intros [= ->].
Qed.

(** X9: how a reader ends is decided by the dynamic types in the record
    alone, not by the receiver.  [fromRecord] returns exactly when every
    key it looks up is absent or holds a value of the type it asserts
    there, and it panics otherwise, at the first key, in the order of the
    source, whose value is of another type.  A key that no reader looks up
    has no influence. *)
Theorem fromRecord_outcome (a : AudioMedia.t) (v : VideoMedia.t)
    (r : MediaRecord) (key : string) :
  ((exists a', AudioMedia.fromRecord a r = Returned a')
   <-> firstMismatch audioShape r = None) /\
  (AudioMedia.fromRecord a r = Panicked key
   <-> firstMismatch audioShape r = Some key) /\
  ((exists v', VideoMedia.fromRecord v r = Returned v')
   <-> firstMismatch videoShape r = None) /\
  (VideoMedia.fromRecord v r = Panicked key
   <-> firstMismatch videoShape r = Some key).
Proof.
  split; [|split]; [| |split];
    first [ apply (outcome_iff _ _ _ key (audio_fromRecord_outcome a r))
          | apply (outcome_iff _ _ _ key (video_fromRecord_outcome v r)) ].
Qed.

End ReaderFacts.

Section ReaderValues.
Context {go : GoLib}.

Lemma readField_returned {M T : Type} (r : MediaRecord) (key : string)
    (assert : GoValue -> option T) (store : T -> M -> M) (m m' : M) :
  readField r key assert store m = Returned m' ->
  m' = pick r key assert (fun x => store x m) m.
Proof.
  destruct (readField_fieldOk r key assert store m) as [[_ ->]|[_ ->]];
    [by intros [= <-]|done].
Qed.

(** A field that a step does not assign is as before the step; the field
    it assigns is picked from the record. *)
Lemma step_frame {M T A : Type} (get : M -> A) (r : MediaRecord)
    (key : string) (assert : GoValue -> option T) (f : T -> M) (m m' : M) :
  m' = pick r key assert f m ->
  (forall x, get (f x) = get m) -> get m' = get m.
Proof.
  intros -> Hf. unfold pick. destruct (r !! key) as [v|]; [|done].
  destruct (assert v); [apply Hf|done].
Qed.

Lemma step_hit {M T A : Type} (get : M -> A) (conv : T -> A)
    (r : MediaRecord) (key : string) (assert : GoValue -> option T)
    (f : T -> M) (m m' : M) :
  m' = pick r key assert f m ->
  (forall x, get (f x) = conv x) ->
  get m' = pick r key assert conv (get m).
Proof.
  intros -> Hf. unfold pick. destruct (r !! key) as [v|]; [|done].
  destruct (assert v); [apply Hf|done].
Qed.

Lemma Media_ext (a b : Media.t) :
  Media.absPath a = Media.absPath b -> Media.relPath a = Media.relPath b ->
  Media.size a = Media.size b -> Media.mode a = Media.mode b ->
  Media.timeModified a = Media.timeModified b ->
  Media.sysInfo a = Media.sysInfo b -> Media.kind a = Media.kind b ->
  Media.ext a = Media.ext b -> Media.extName a = Media.extName b ->
  Media.name a = Media.name b -> Media.timeAdded a = Media.timeAdded b ->
  Media.playbackCommand a = Media.playbackCommand b ->
  Media.title a = Media.title b ->
  Media.description a = Media.description b ->
  Media.releaseDate a = Media.releaseDate b -> a = b.
Proof. destruct a, b. cbn. intros. by subst. Qed.

Ltac step_back :=
  match goal with
  | H : ?m' = pick ?r ?k ?a _ ?m |- context [?get ?m'] =>
      first [ rewrite (step_frame get r k a _ m m' H)
                by (intros; reflexivity)
            | rewrite (step_hit get (fun x => x) r k a _ m m' H)
                by (intros; reflexivity)
            | erewrite (step_hit get _ r k a _ m m' H)
                by (intros; reflexivity) ]
  end.

Lemma readMedia_returned (r : MediaRecord) (m m' : Media.t) :
  readMedia r m = Returned m' -> m' = pickMedia r m.
Proof.
  unfold readMedia.
  repeat match goal with
         | |- obind (readField ?r ?k ?a ?st ?m) _ = _ -> _ =>
             let x := fresh "m" in
             let H := fresh "H" in
             destruct (readField r k a st m) as [x|] eqn:H;
             [cbn [obind]; apply readField_returned in H|discriminate]
         end.
  intros Hlast%readField_returned.
  apply Media_ext; cbn [pickMedia Media.absPath Media.relPath Media.size
    Media.mode Media.timeModified Media.sysInfo Media.kind Media.ext
    Media.extName Media.name Media.timeAdded Media.playbackCommand
    Media.title Media.description Media.releaseDate];
    repeat step_back; reflexivity.
Qed.

(** X10: the steps of a reader do not interfere.  When [fromRecord]
    returns, the embedded [Media] is allocated, and every field holds the
    converted value of its own key when the record has that key, and the
    value the receiver had when it has not; a string that does not parse
    as a time gives the zero time.  The audio reader leaves album and
    track in the same way; the video reader leaves the known subtitles in
    the same way and the selected subtitles as they were. *)
Theorem fromRecord_fields (a a' : AudioMedia.t) (v v' : VideoMedia.t)
    (r : MediaRecord) :
  (AudioMedia.fromRecord a r = Returned a' ->
   a' = AudioMedia.mk
          (Some (pickMedia r (default Media.zero (AudioMedia.media a))))
          (pick r "album" assertString id (AudioMedia.album a))
          (pick r "track" assertInt id (AudioMedia.track a))) /\
  (VideoMedia.fromRecord v r = Returned v' ->
   v' = VideoMedia.mk
          (Some (pickMedia r (default Media.zero (VideoMedia.media v))))
          (pick r "knownSubtitles"
             (fun x => l ← assertSlice x; VideoMedia.assertEach l) id
             (VideoMedia.knownSubtitles v))
          (VideoMedia.subtitles v)).
Proof.
  split.
  - unfold AudioMedia.fromRecord.
    destruct (readMedia r _) as [md|] eqn:Hmd; [|discriminate].
    apply readMedia_returned in Hmd as ->. cbn [obind].
    destruct (readField r "album" _ _ _) as [m1|] eqn:H1; [|discriminate].
    apply readField_returned in H1. cbn [obind].
    intros H2%readField_returned. subst.
    unfold pick. by repeat case_match.
  - unfold VideoMedia.fromRecord.
    destruct (readMedia r _) as [md|] eqn:Hmd; [|discriminate].
    apply readMedia_returned in Hmd as ->. cbn [obind].
    destruct (readField r "knownSubtitles" _ _ _) as [m1|] eqn:H1;
      [|discriminate].
    apply readField_returned in H1. cbn [obind].
    intros H2%readField_returned. subst.
    unfold pick. by repeat case_match.
Qed.

End ReaderValues.

(** ** The record writers *)

Lemma Returned_inj {A : Type} (x y : A) : Returned x = Returned y -> x = y.
Proof. congruence. Qed.

Ltac lookup_both H key :=
  let E := fresh "E" in
  pose proof (f_equal (fun m : MediaRecord => m !! key) H) as E;
  vm_compute in E.

Ltac lookup_shared H :=
  lookup_both H "absPath"%string; lookup_both H "relPath"%string;
  lookup_both H "size"%string; lookup_both H "mode"%string;
  lookup_both H "timeModified"%string; lookup_both H "sysInfo"%string;
  lookup_both H "kind"%string; lookup_both H "ext"%string;
  lookup_both H "extName"%string; lookup_both H "name"%string;
  lookup_both H "timeAdded"%string; lookup_both H "playbackCommand"%string;
  lookup_both H "title"%string; lookup_both H "description"%string;
  lookup_both H "releaseDate"%string.

Lemma audio_toRecord_inj (a b : AudioMedia.t) (r : MediaRecord) :
  AudioMedia.toRecord a = Returned r -> AudioMedia.toRecord b = Returned r ->
  a = b.
Proof.
  destruct a as [[ma|] al tr], b as [[mb|] bl br];
    cbn [AudioMedia.toRecord AudioMedia.media AudioMedia.album
         AudioMedia.track]; try discriminate.
  intros Ha Hb. rewrite <- Ha in Hb. apply Returned_inj in Hb. clear Ha.
  destruct ma, mb.
  lookup_shared Hb. lookup_both Hb "album"%string.
  lookup_both Hb "track"%string.
  clear Hb. by simplify_eq.
Qed.

Lemma video_toRecord_inj (v w : VideoMedia.t) (r : MediaRecord) :
  VideoMedia.toRecord v = Returned r -> VideoMedia.toRecord w = Returned r ->
  v = w.
Proof.
  destruct v as [[mv|] vk vs], w as [[mw|] wk ws];
    cbn [VideoMedia.toRecord VideoMedia.media VideoMedia.knownSubtitles
         VideoMedia.subtitles]; try discriminate.
  intros Hv Hw. rewrite <- Hv in Hw. apply Returned_inj in Hw. clear Hv.
  destruct mv, mw.
  lookup_shared Hw. lookup_both Hw "knownSubtitles"%string.
  lookup_both Hw "subtitles"%string.
  clear Hw. by simplify_eq.
Qed.

(** X11: the writers lose nothing and cannot be confused.  [toRecord]
    returns for every entity whose embedded [Media] is allocated and
    panics on a nil one; two audio entities with the same record are the
    same entity, and so are two video entities; and no record is both the
    record of an audio and of a video entity. *)
Theorem toRecord_is_lossless (a b : AudioMedia.t) (v w : VideoMedia.t)
    (r : MediaRecord) :
  ((exists ra, AudioMedia.toRecord a = Returned ra)
   <-> is_Some (AudioMedia.media a)) /\
  ((exists rv, VideoMedia.toRecord v = Returned rv)
   <-> is_Some (VideoMedia.media v)) /\
  (AudioMedia.toRecord a = Returned r -> AudioMedia.toRecord b = Returned r ->
   a = b) /\
  (VideoMedia.toRecord v = Returned r -> VideoMedia.toRecord w = Returned r ->
   v = w) /\
  (AudioMedia.toRecord a = Returned r -> VideoMedia.toRecord v = Returned r ->
   False).
Proof.
  split; [|split; [|split; [|split]]].
  - unfold AudioMedia.toRecord. destruct (AudioMedia.media a); split.
    + by eexists.
    + by eexists.
    + by intros [? ?].
    + by intros [? ?].
  - unfold VideoMedia.toRecord. destruct (VideoMedia.media v); split.
    + by eexists.
    + by eexists.
    + by intros [? ?].
    + by intros [? ?].
  - apply audio_toRecord_inj.
  - apply video_toRecord_inj.
  - destruct a as [[ma|] al tr], v as [[mv|] vk vs];
      cbn [AudioMedia.toRecord AudioMedia.media AudioMedia.album
           AudioMedia.track VideoMedia.toRecord VideoMedia.media
           VideoMedia.knownSubtitles VideoMedia.subtitles];
      try discriminate.
    intros Ha Hv. rewrite <- Ha in Hv. apply Returned_inj in Hv.
    lookup_both Hv "album"%string. discriminate.
Qed.

(** ** The order of the tables *)

Section TableOrder.
Context {go : GoLib}.

Lemma inTable_extsOf (t : ExtTable) (e : string) :
  inTable t e <-> e ∈ extsOf t.
Proof.
  unfold inTable, extsOf. rewrite list_elem_of_join. split.
  - intros (n & l & Hin & He). exists l. split; [done|].
    apply list_elem_of_fmap. by exists (n, l).
  - intros (l & He & Hl). apply list_elem_of_fmap in Hl as ([n l'] & -> & Hin).
    by exists n, l'.
Qed.

Lemma namedIn_unique (t : ExtTable) (e n n' : string) :
  NoDup (extsOf t) -> namedIn t e n -> namedIn t e n' -> n = n'.
Proof.
  unfold extsOf. induction t as [|[m lm] t IH]; cbn.
  - intros _ (l & Hin & _). by apply elem_of_nil in Hin.
  - intros Hnd (l & Hin & He) (l' & Hin' & He').
    apply NoDup_app in Hnd as (_ & Hdis & Hnd).
    assert (Hrest : forall k x, (k, x) ∈ t -> e ∈ x -> e ∈ mjoin t.*2).
    { intros k x Hk Hx. apply list_elem_of_join. exists x. split; [done|].
      apply list_elem_of_fmap. by exists (k, x). }
    apply elem_of_cons in Hin as [[= -> ->]|Hin];
      apply elem_of_cons in Hin' as [[= -> ->]|Hin'].
    + done.
    + destruct (Hdis e He). by eapply Hrest.
    + destruct (Hdis e He'). by eapply Hrest.
    + apply IH; [done|by exists l|by exists l'].
Qed.

Lemma kindOfFileExt_perm (t t' : ExtTable) (e : string) :
  NoDup (extsOf t) -> t' ≡ₚ t -> kindOfFileExt t' e = kindOfFileExt t e.
Proof.
  intros Hnd Hp.
  destruct (kindOfFileExt_spec t e) as [[Hin (n & -> & Hn)]|[Hno ->]];
    destruct (kindOfFileExt_spec t' e) as [[Hin' (n' & -> & Hn')]|[Hno' ->]];
    try done.
  - f_equal. eapply namedIn_unique; [done| |done]. by eapply namedIn_perm.
  - destruct Hno'. by apply (inTable_perm t' t).
  - destruct Hno. by apply (inTable_perm t' t).
Qed.

Lemma kindOfFileExt_perm_found (t t' : ExtTable) (e : string) :
  t' ≡ₚ t -> (kindOfFileExt t' e).2 = (kindOfFileExt t e).2.
Proof.
  intros Hp.
  destruct (kindOfFileExt_spec t e) as [[Hin (n & -> & Hn)]|[Hno ->]];
    destruct (kindOfFileExt_spec t' e) as [[Hin' (n' & -> & Hn')]|[Hno' ->]];
    try done.
  - destruct Hno'. by apply (inTable_perm t' t).
  - destruct Hno. by apply (inTable_perm t' t).
Qed.

Lemma audio_exts_NoDup : NoDup (extsOf (me_table audioExt)).
Proof. apply (bool_decide_unpack _). by vm_compute. Qed.

Lemma video_exts_NoDup : NoDup (extsOf (me_table videoExt)).
Proof. apply (bool_decide_unpack _). by vm_compute. Qed.

Lemma tables_disjoint (e : string) :
  ~ (inTable (me_table audioExt) e /\ inTable (me_table videoExt) e) /\
  ~ (inTable (me_table audioExt) e /\ inTable (mse_table subsExt) e) /\
  ~ (inTable (me_table videoExt) e /\ inTable (mse_table subsExt) e).
Proof.
  assert (Ha : Forall (fun x => (x ∉ extsOf (me_table videoExt))
                                /\ (x ∉ extsOf (mse_table subsExt)))
                 (extsOf (me_table audioExt))).
  { apply (bool_decide_unpack _). by vm_compute. }
  assert (Hv : Forall (fun x => x ∉ extsOf (mse_table subsExt))
                 (extsOf (me_table videoExt))).
  { apply (bool_decide_unpack _). by vm_compute. }
  rewrite Forall_forall in Ha, Hv. rewrite !inTable_extsOf.
  split; [|split]; intros [H1 H2].
  - by destruct (Ha e H1) as [Hx _].
  - by destruct (Ha e H1) as [_ Hx].
  - by apply (Hv e H1).
Qed.

(** X12: what the order of a Go map can and cannot change.  No extension
    is listed twice in the audio table or twice in the video table, so the
    media lookup gives the same kind and the same type name in whatever
    order the two maps are ranged over.  The support lookup gives the same
    kind in every order, but not the same name: the subtitle table lists
    [.sub] under four names, and an order of the map gives another name
    than the order of the source text.  And the three tables share no
    extension, so the order in which a file is tested against them does
    not decide its class. *)
Theorem lookup_and_map_order (ext : string) (a v s : ExtTable) :
  a ≡ₚ me_table audioExt ->
  v ≡ₚ me_table videoExt ->
  s ≡ₚ mse_table subsExt ->
  mediaKindOfFileExtIn a v ext = mediaKindOfFileExt ext /\
  (mediaSupportKindOfFileExtIn s ext).1 = (mediaSupportKindOfFileExt ext).1 /\
  (strings_ToLower ".sub" = ".sub"%string ->
   exists s', s' ≡ₚ mse_table subsExt /\
     (mediaSupportKindOfFileExtIn s' ".sub").2
     <> (mediaSupportKindOfFileExt ".sub").2) /\
  (~ (inTable (me_table audioExt) ext /\ inTable (me_table videoExt) ext) /\
   ~ (inTable (me_table audioExt) ext /\ inTable (mse_table subsExt) ext) /\
   ~ (inTable (me_table videoExt) ext /\ inTable (mse_table subsExt) ext)).
Proof.
  intros Ha Hv Hs. split; [|split; [|split]].
  - unfold mediaKindOfFileExt, mediaKindOfFileExtIn.
    cbn [mediaKindLoop me_table me_kind].
    rewrite (kindOfFileExt_perm _ a _ audio_exts_NoDup Ha).
    by rewrite (kindOfFileExt_perm _ v _ video_exts_NoDup Hv).
  - unfold mediaSupportKindOfFileExt, mediaSupportKindOfFileExtIn.
    cbn [mediaSupportKindLoop mse_table mse_kind].
    pose proof (kindOfFileExt_perm_found (mse_table subsExt) s
                  (strings_ToLower ext) Hs) as Hf.
    destruct (kindOfFileExt s _) as [n [|]],
             (kindOfFileExt (mse_table subsExt) _) as [n' [|]];
      cbn in Hf; by try discriminate.
  - intros Hlow. exists (reverse (mse_table subsExt)).
    split; [apply reverse_Permutation|].
    unfold mediaSupportKindOfFileExt, mediaSupportKindOfFileExtIn.
    rewrite Hlow. by vm_compute.
  - apply tables_disjoint.
Qed.

End TableOrder.

Lemma lookup_and_map_order_witness :
  mediaKindOfFileExtIn (go := sampleGo) (reverse (me_table audioExt))
    (reverse (me_table videoExt)) ".OGG"
  = mediaKindOfFileExt (go := sampleGo) ".OGG".
Proof.
  apply (lookup_and_map_order (go := sampleGo) ".OGG"
           (reverse (me_table audioExt)) (reverse (me_table videoExt))
           (reverse (mse_table subsExt)));
    apply reverse_Permutation.
Defined.

(** ** Setting up the libraries *)

Section InitFacts.
Context {host : Host}.

Lemma newLibrary_accepts (n : nat) (dat : string) (busy : BusyState.t)
    (cli : bool) (lib : string) (lim : Z) (curr : list LibraryRef)
    (p : LibraryRef) :
  newLibrary n dat busy cli lib lim curr = inr p ->
  (Library.absPath p.1 ∉ pathsOf curr) /\
  filepath_Abs n lib = Some (Library.absPath p.1) /\
  Library.maxDepth p.1 = lim /\ fresh dat busy (Library.mk
    (Library.workingDir p.1) (Library.absPath p.1) (Library.name p.1)
    depthUnlimited (Library.dataDir p.1), p.2).
Proof.
  unfold newLibrary. repeat case_match; try discriminate.
  intros [= <-]. cbn. split; [|by repeat split].
  intros Hin. apply list_elem_of_fmap in Hin as (q & Hq & Hin).
  match goal with
  | H : existsb _ curr = false |- _ =>
      apply not_true_iff_false in H; apply H
  end.
  apply existsb_exists. exists q. split; [by apply list_elem_of_In|].
  rewrite Hq. apply String.eqb_refl.
Qed.

Lemma newLibrary_usable (n : nat) (dat : string) (busy : BusyState.t)
    (cli : bool) (lib abs : string) (lim : Z) (curr : list LibraryRef) :
  usable dat n lib abs ->
  abs ∈ pathsOf curr \/
  exists p, newLibrary n dat busy cli lib lim curr = inr p /\
            Library.absPath p.1 = abs.
Proof.
  intros ([dir Hdir] & Habs & Hopen & Hread & db & Hdb).
  unfold newLibrary. rewrite Hdir, Habs, Hopen, Hread, Hdb. cbn.
  destruct (existsb _ curr) eqn:Hex; [left|right; by eexists].
  apply existsb_exists in Hex as (q & Hin & Hq).
  apply String.eqb_eq in Hq as <-.
  apply list_elem_of_fmap. exists q. split; [done|by apply list_elem_of_In].
Qed.

Lemma initLoop_result (dat : string) (busy : BusyState.t) (cli : bool)
    (libArgs : list string) :
  forall (n : nat) (library : list LibraryRef) (warnings : list ReturnCode),
    let r := initLoop n dat busy cli libArgs library warnings in
    (NoDup (pathsOf library) -> NoDup (pathsOf r.1)) /\
    (length r.1 + length r.2
     = length library + length warnings + length libArgs)%nat /\
    (Forall (fresh dat busy) library -> Forall (fresh dat busy) r.1) /\
    (forall a, a ∈ pathsOf library -> a ∈ pathsOf r.1) /\
    (forall i lib abs, libArgs !! i = Some lib ->
       usable dat (n + i) lib abs -> abs ∈ pathsOf r.1) /\
    (forall a, a ∈ pathsOf r.1 ->
       a ∈ pathsOf library \/
       exists i lib, libArgs !! i = Some lib /\
                     filepath_Abs (n + i) lib = Some a).
Proof.
  induction libArgs as [|lib rest IH]; intros n library warnings.
  - cbn. repeat split; try done; try lia. by left.
  - cbn [initLoop].
    destruct (newLibrary n dat busy cli lib depthUnlimited library)
      as [err|p] eqn:Hnew.
    + destruct (IH (S n) library (warnings ++ [err]))
        as (H1 & H2 & H3 & H4 & H5 & H6).
      cbv zeta. split; [done|]. split.
      { rewrite H2, length_app. cbn. lia. }
      split; [done|]. split; [done|]. split.
      * intros [|i] lib' abs Hi Hu.
        -- cbn in Hi. injection Hi as <-. rewrite Nat.add_0_r in Hu.
           destruct (newLibrary_usable n dat busy cli lib abs depthUnlimited
                       library Hu) as [Hin|(p & Hp & _)]; [by apply H4|].
           congruence.
        -- cbn in Hi. apply (H5 i lib' abs Hi).
           by replace (S n + i)%nat with (n + S i)%nat by lia.
      * intros a Ha. destruct (H6 a Ha) as [Hin|(i & lib' & Hi & Habs)];
          [by left|right].
        exists (S i), lib'. split; [done|].
        by replace (n + S i)%nat with (S n + i)%nat by lia.
    + destruct (newLibrary_accepts _ _ _ _ _ _ _ _ Hnew)
        as (Hnot & Habs & Hlim & Hfresh).
      assert (Hp : fresh dat busy p).
      { destruct p as [[wd ap nm md dd] st]. cbn in *. by subst md. }
      destruct (IH (S n) (library ++ [p]) warnings)
        as (H1 & H2 & H3 & H4 & H5 & H6).
      assert (Hpaths : pathsOf (library ++ [p])
                       = pathsOf library ++ [Library.absPath p.1]).
      { unfold pathsOf. by rewrite fmap_app. }
      cbv zeta. split.
      { intros Hnd. apply H1. rewrite Hpaths. apply NoDup_app.
        split; [done|]. split; [|apply NoDup_singleton].
        intros a Ha Hb. apply list_elem_of_singleton in Hb as ->. done. }
      split.
      { rewrite H2, length_app. cbn. lia. }
      split.
      { intros Hf. apply H3. apply Forall_app. split; [done|].
        by constructor. }
      split.
      { intros a Ha. apply H4. rewrite Hpaths. apply elem_of_app. by left. }
      split.
      * intros [|i] lib' abs Hi Hu.
        -- cbn in Hi. injection Hi as <-. rewrite Nat.add_0_r in Hu.
           apply H4. rewrite Hpaths. apply elem_of_app.
           destruct (newLibrary_usable n dat busy cli lib abs depthUnlimited
                       library Hu) as [Hin|(q & Hq & Hqa)]; [by left|right].
           apply list_elem_of_singleton. congruence.
        -- cbn in Hi. apply (H5 i lib' abs Hi).
           by replace (S n + i)%nat with (n + S i)%nat by lia.
      * intros a Ha. destruct (H6 a Ha) as [Hin|(i & lib' & Hi & Ha')].
        -- rewrite Hpaths in Hin. apply elem_of_app in Hin as [Hin|Hin];
             [by left|right].
           apply list_elem_of_singleton in Hin as ->.
           exists 0%nat, lib. split; [done|]. by rewrite Nat.add_0_r.
        -- right. exists (S i), lib'. split; [done|].
           by replace (n + S i)%nat with (S n + i)%nat by lia.
Qed.

(** X13: [initLibrary] answers with libraries of distinct absolute paths,
    one for each directory named on the command line that can be used:
    every usable argument has its path among the libraries, every library
    has the absolute path of an argument, and every argument gives either
    a library or a warning.  Each library is without depth limit, is named
    by the base of its path, shares the busy state of the process, and has
    both of its slots free. *)
Theorem initLibrary_result (dat : string) (busy : BusyState.t) (cli : bool)
    (libArgs : list string) :
  let r := initLibrary dat busy cli libArgs in
  NoDup (pathsOf r.1) /\
  (length r.1 + length r.2 = length libArgs)%nat /\
  Forall (fresh dat busy) r.1 /\
  (forall i lib abs, libArgs !! i = Some lib -> usable dat i lib abs ->
                     abs ∈ pathsOf r.1) /\
  (forall a, a ∈ pathsOf r.1 ->
     exists i lib, libArgs !! i = Some lib /\ filepath_Abs i lib = Some a).
Proof.
  destruct (initLoop_result dat busy cli libArgs 0 [] [])
    as (H1 & H2 & H3 & _ & H5 & H6).
  cbv zeta. unfold initLibrary. split; [apply H1; constructor|].
  split; [exact H2|]. split; [by apply H3|]. split; [exact H5|].
  intros a Ha. destruct (H6 a Ha) as [Hin|H]; [|exact H].
  by apply elem_of_nil in Hin.
Qed.

End InitFacts.

(** ** Populating a library *)

Section PopulateFacts.
Context {go : GoLib} {env : Env}.
Import Library.

Lemma load_other_fields ph (s : State) :
  canSend (loadStart s) = true ->
  scanStart (load ph s).1.1 = scanStart s /\
  isCLIMode (load ph s).1.1 = isCLIMode s.
Proof.
  intros Hgate. rewrite load_admitted by done.
  destruct (loadEach_sameGates ph collections (loadAdmit s))
    as [(_ & Hcli & _ & _ & Hscan & _) _].
  destruct (loadAdmit_gates s) as (_ & Hscan0 & Hcli0 & _).
  set (st := (loadEach ph collections (loadAdmit s)).1) in *.
  assert (Hfin : scanStart (loadFinish st).1.1 = scanStart st /\
                 isCLIMode (loadFinish st).1.1 = isCLIMode st).
  { unfold loadFinish. by case_match. }
  destruct Hfin as [-> ->]. split; congruence.
Qed.

Lemma scan_other_fields (l : t) ph (root : FsNode) (s : State) :
  canSend (scanStart s) = true ->
  loadStart (scan l ph root s).1.1 = loadStart s.
Proof.
  intros Hgate. rewrite scan_admitted by done.
  destruct (scanRun_sameGates l ph root (scanAdmit s)) as (_ & _ & Hload & _).
  destruct (scanAdmit_gates s) as (_ & Hload0 & _).
  set (st := (scanRun l ph root (scanAdmit s)).1) in *.
  set (err := (scanRun l ph root (scanAdmit s)).2).
  assert (Hfin : loadStart (scanFinish err st).1.1 = loadStart st).
  { unfold scanFinish. by case_match. }
  congruence.
Qed.

(** X14: populating a fresh library never finds a slot taken.  From a
    state with both slots free, the load (skipped on the first appearance
    of the index) is admitted, returns no error and frees its slot, so
    that the scan that follows starts with both slots free and is admitted
    too: its error is the error of the traversal of the root, none when
    the root is a directory that can be listed.  The errors reported are
    those of the scan alone, and both slots are free at the end. *)
Theorem populateOne_pipeline (first : bool) (l : Library.t) (root : FsNode)
    (s : Library.State) :
  loadStart s = [] -> scanStart s = [] ->
  let s1 := if first then s else (load allHandlers s).1.1 in
  let scanned := scan l allHandlers root s1 in
  let r := populateOne first l root s in
  (first = false -> (load allHandlers s).2 = None) /\
  loadStart s1 = [] /\ scanStart s1 = [] /\
  scanned.2 = (scanDive l allHandlers (absPath l) 1 root (scanAdmit s1)).2 /\
  r.1.1 = scanned.1.1 /\
  r.2 = match scanned.2 with Some e => [e] | None => [] end /\
  loadStart r.1.1 = [] /\ scanStart r.1.1 = [] /\
  (forall info entries,
     root = FsEntry info (Some entries) ->
     isDir (fi_Mode info) = true ->
     is_Some (filepath_Rel (absPath l) (absPath l)) ->
     0 <= maxDepth l ->
     r.2 = []).
Proof.
  intros Hload Hscan s1 scanned r.
  assert (Hs1 : (first = false -> (load allHandlers s).2 = None) /\
                loadStart s1 = [] /\ scanStart s1 = []).
  { subst s1. destruct first; [done|].
    assert (Hg : canSend (loadStart s) = true) by by apply canSend_true.
    destruct (load_released allHandlers s Hg) as (Hl & _ & _).
    destruct (load_other_fields allHandlers s Hg) as (Hs & _).
    destruct (load_result allHandlers s Hg) as (He & _).
    split; [done|]. split; [exact Hl|congruence]. }
  destruct Hs1 as (Hnone & Hl1 & Hsc1).
  assert (Hg : canSend (scanStart s1) = true) by by apply canSend_true.
  destruct (scan_released l allHandlers root s1 Hg) as (Hs2 & _ & _).
  pose proof (scan_other_fields l allHandlers root s1 Hg) as Hl2.
  pose proof (scan_err l allHandlers root s1 Hg) as Herr.
  cbv zeta in Hs2.
  assert (Hr : r.1.1 = scanned.1.1 /\
               r.2 = match scanned.2 with Some e => [e] | None => [] end).
  { subst r scanned s1. unfold populateOne. destruct first; cbn [negb].
    - by destruct (scan l allHandlers root s) as [[s2 n2] e2].
    - specialize (Hnone eq_refl).
      destruct (load allHandlers s) as [[s0 n0] e0]. cbn [fst snd] in *.
      subst e0.
      by destruct (scan l allHandlers root s0) as [[s2 n2] e2]. }
  destruct Hr as (Hr1 & Hr2). fold scanned in Hs2, Hl2, Herr.
  split; [exact Hnone|]. split; [exact Hl1|]. split; [exact Hsc1|].
  split; [exact Herr|]. split; [exact Hr1|]. split; [exact Hr2|].
  split; [rewrite Hr1; congruence|]. split; [by rewrite Hr1|].
  intros info entries -> Hdir Hrel Hmax. rewrite Hr2, Herr.
  by rewrite scanDive_listed by auto using root_within_depth.
Qed.

End PopulateFacts.

Lemma populateOne_pipeline_witness :
  let r := populateOne (go := sampleGo) (env := sampleEnv) false
             (sampleLibrary 0) oneFileTree (idleState emptyDatabase false) in
  Library.loadStart r.1.1 = [] /\ Library.scanStart r.1.1 = [] /\ r.2 = [].
Proof.
  intros r.
  destruct (populateOne_pipeline (go := sampleGo) (env := sampleEnv) false
              (sampleLibrary 0) oneFileTree (idleState emptyDatabase false)
              eq_refl eq_refl) as (_ & _ & _ & _ & _ & _ & H7 & H8 & H9).
  split; [exact H7|]. split; [exact H8|].
  apply (H9 (mkFileInfo "lib" 4096 (Z.lor ModeDir 493) 7 VNil)
            [("a.mp3"%string, regularFile "a.mp3")]);
    [reflexivity|reflexivity|by eexists|done].
Defined.

(** ** Console logs *)

Section LogFacts.
Import Log.

Lemma get_set (id id' : LogID) (l : ConsoleLog) (st : State) :
  get id' (set id l st) = if decide (id' = id) then l else get id' st.
Proof. by destruct id, id'. Qed.

Lemma Logger_eta (lg : Logger) (w : Writer) (p : string) :
  lg_out lg = w -> lg_prefix lg = p -> lg = mkLogger w p (lg_flags lg).
Proof. destruct lg. cbn. by intros -> ->. Qed.

(** What [setWriter] leaves of a coherent logger, and of the others. *)
Lemma setWriter_get (id id' : LogID) (w : Writer) (st : State) :
  coherent (get id st) ->
  get id' (setWriter id w st)
  = if decide (id' = id)
    then {| cl_prefix := cl_prefix (get id st);
            cl_console := cl_console (get id st);
            cl_writer := w;
            cl_Logger := mkLogger w (cl_prefix (get id st))
                           (lg_flags (cl_Logger (get id st))) |}
    else get id' st.
Proof.
  intros [Hout Hpre]. unfold setWriter. case_decide as Hw.
  - apply get_set.
  - case_decide as Hid; [|done]. subst id'.
    destruct (get id st) as [p c wr [o q f]]. cbn in *. by subst.
Qed.

Lemma setWriter_rest (id : LogID) (w : Writer) (st : State) :
  isVerboseLog (setWriter id w st) = isVerboseLog st /\
  isTraceLog (setWriter id w st) = isTraceLog st /\
  isCLIMode (setWriter id w st) = isCLIMode st /\
  areOptionsParsed (setWriter id w st) = areOptionsParsed st /\
  written (setWriter id w st) = written st /\
  exited (setWriter id w st) = exited st.
Proof. unfold setWriter. case_decide; [|done]. by destruct id. Qed.

Lemma setWriter_coherent (id id' : LogID) (w : Writer) (st : State) :
  coherent (get id st) -> coherent (get id' st) ->
  coherent (get id' (setWriter id w st)).
Proof.
  intros Hid Hid'. rewrite setWriter_get by done. by case_decide.
Qed.

(** The logger [id] after a pass of [setWriter] over the loggers [ids],
    each given the writer [pick] chooses for it from its console. *)
Lemma setWriter_pass (pick : Writer -> Writer) (ids : list LogID) :
  forall st,
    (forall id, coherent (get id st)) ->
    let st' := foldl (fun st id =>
                        setWriter id (pick (cl_console (get id st))) st)
                     st ids in
    (forall id, coherent (get id st')) /\
    (forall id,
       get id st'
       = if decide (id ∈ ids)
         then {| cl_prefix := cl_prefix (get id st);
                 cl_console := cl_console (get id st);
                 cl_writer := pick (cl_console (get id st));
                 cl_Logger :=
                   mkLogger (pick (cl_console (get id st)))
                     (cl_prefix (get id st))
                     (lg_flags (cl_Logger (get id st))) |}
         else get id st) /\
    written st' = written st /\ isTraceLog st' = isTraceLog st /\
    isVerboseLog st' = isVerboseLog st /\ isCLIMode st' = isCLIMode st /\
    areOptionsParsed st' = areOptionsParsed st /\ exited st' = exited st.
Proof.
  induction ids as [|i ids IH]; intros st Hco.
  - cbn. split; [done|]. split; [|done]. intros id.
    case_decide as Hin; [by apply elem_of_nil in Hin|done].
  - cbn [foldl].
    set (s1 := setWriter i (pick (cl_console (get i st))) st).
    assert (Hco1 : forall id, coherent (get id s1)).
    { intros id. by apply setWriter_coherent. }
    destruct (IH s1 Hco1) as (Hc & Hg & Hrest).
    destruct (setWriter_rest i (pick (cl_console (get i st))) st)
      as (R1 & R2 & R3 & R4 & R5 & R6). fold s1 in R1, R2, R3, R4, R5, R6.
    cbv zeta. split; [done|]. split.
    + intros id. rewrite Hg. subst s1.
      rewrite !setWriter_get by done.
      destruct (decide (id = i)) as [->|Hne].
      * rewrite (decide_True (P := i ∈ i :: ids)) by by left.
        by destruct (decide (i ∈ ids)).
      * destruct (decide (id ∈ ids)) as [Hin|Hin].
        -- by rewrite decide_True by by right.
        -- rewrite decide_False; [done|].
           by intros [?|?]%elem_of_cons.
    + destruct Hrest as (? & ? & ? & ? & ? & ?).
      repeat split; congruence.
Qed.

Lemma all_loggers (id : LogID) : id ∈ loggers.
Proof.
  unfold loggers. apply list_elem_of_In. destruct id; cbn; tauto.
Qed.

Lemma initial_coherent (id : LogID) : coherent (get id initial).
Proof. by destruct id. Qed.

Lemma setWriterAll_get (w : Writer) (st : State) :
  (forall id, coherent (get id st)) ->
  (forall id, coherent (get id (setWriterAll w st))) /\
  (forall id,
     get id (setWriterAll w st)
     = {| cl_prefix := cl_prefix (get id st);
          cl_console := cl_console (get id st);
          cl_writer := w;
          cl_Logger := mkLogger w (cl_prefix (get id st))
                         (lg_flags (cl_Logger (get id st))) |}) /\
  written (setWriterAll w st) = written st.
Proof.
  intros Hco.
  pose proof (setWriter_pass (fun _ => w) loggers st Hco) as H.
  cbv zeta beta in H. unfold setWriterAll.
  destruct H as (Hc & Hg & Hw & _). split; [exact Hc|]. split; [|exact Hw].
  intros id. rewrite (Hg id). apply decide_True, all_loggers.
Qed.

Lemma resetWriterAll_get (st : State) :
  (forall id, coherent (get id st)) ->
  (forall id,
     get id (resetWriterAll st)
     = {| cl_prefix := cl_prefix (get id st);
          cl_console := cl_console (get id st);
          cl_writer := cl_console (get id st);
          cl_Logger := mkLogger (cl_console (get id st))
                         (cl_prefix (get id st))
                         (lg_flags (cl_Logger (get id st))) |}) /\
  written (resetWriterAll st) = written st.
Proof.
  intros Hco.
  pose proof (setWriter_pass (fun c => c) loggers st Hco) as H.
  cbv zeta beta in H. unfold resetWriterAll, resetWriter.
  destruct H as (_ & Hg & Hw & _). split; [|exact Hw].
  intros id. rewrite (Hg id). apply decide_True, all_loggers.
Qed.

(** X15: redirecting and restoring the loggers.  When the [log.Logger] of
    each [ConsoleLog] writes where its field [writer] says (as it does for
    the four loggers of the program), [setWriterAll w] makes every logger
    write to [w], and [resetWriterAll] makes every logger write to its own
    console again, each with the prefix and the flags it had; neither
    writes a line or touches a flag, and the console of a logger is never
    assigned.  Restoring after redirecting gives the four loggers of the
    program back as they were declared. *)
Theorem writers_redirect_and_restore (w : Writer) (st : Log.State) :
  (forall id, coherent (get id st)) ->
  let st1 := setWriterAll w st in
  let st2 := resetWriterAll st1 in
  (forall id,
     get id st1
     = {| cl_prefix := cl_prefix (get id st);
          cl_console := cl_console (get id st);
          cl_writer := w;
          cl_Logger := mkLogger w (cl_prefix (get id st))
                         (lg_flags (cl_Logger (get id st))) |}) /\
  (forall id,
     get id st2
     = {| cl_prefix := cl_prefix (get id st);
          cl_console := cl_console (get id st);
          cl_writer := cl_console (get id st);
          cl_Logger := mkLogger (cl_console (get id st))
                         (cl_prefix (get id st))
                         (lg_flags (cl_Logger (get id st))) |}) /\
  written st2 = written st /\ written st1 = written st /\
  (forall id, get id (resetWriterAll (setWriterAll w initial)) = builtin id).
Proof.
  intros Hco st1 st2. subst st1 st2.
  destruct (setWriterAll_get w st Hco) as (Hco1 & Hg1 & Hw1).
  destruct (resetWriterAll_get (setWriterAll w st) Hco1) as (Hg2 & Hw2).
  split; [exact Hg1|]. split; [|split; [congruence|split; [exact Hw1|]]].
  - intros id. rewrite (Hg2 id), (Hg1 id). reflexivity.
  - intros id.
    destruct (setWriterAll_get w initial initial_coherent) as (Hi1 & Hi2 & _).
    destruct (resetWriterAll_get (setWriterAll w initial) Hi1) as (Hi3 & _).
    rewrite (Hi3 id), (Hi2 id). by destruct id.
Qed.

Lemma writers_redirect_and_restore_witness :
  cl_Logger (get liWarn (setWriterAll (OtherWriter 0) initial))
  = mkLogger (OtherWriter 0) (consoleLogPrefix liWarn) logFlags.
Proof.
  rewrite (proj1 (writers_redirect_and_restore (OtherWriter 0) initial
                    initial_coherent) liWarn).
  reflexivity.
Defined.

Lemma output_written (id : LogID) (d s : string) (st : State) :
  exists text,
    output id d s st
    = set_written
        (written st
         ++ [mkLine (lg_out (cl_Logger (get id st)))
               (lg_prefix (cl_Logger (get id st)))
               (lg_flags (cl_Logger (get id st))) text]) st /\
    (id = liRaw -> text = s) /\
    (id <> liRaw ->
     text = ((if String.eqb d EmptyString then logDelimNormal else d)
             +:+ s)%string).
Proof.
  unfold output, Print. eexists. split; [reflexivity|].
  by case_decide.
Qed.

(** X16: the three levels of a logger.  [log] writes one line in every
    state; whatever [trace] writes [verbose] writes too, and whatever
    [verbose] writes [log] writes too; before the options are parsed the
    three of them write; afterwards [trace] writes only in a trace session
    and [verbose] only in a verbose or a trace session.  A line goes to
    the writer of the logger at that moment, and its text is the message
    after the delimiter of the level, except for the raw logger, whose
    lines carry the message alone at every level. *)
Theorem log_levels (id : LogID) (s : string) (st : Log.State) :
  let quiet (st' : Log.State) := written st' = written st in
  let line (d : string) :=
    mkLine (lg_out (cl_Logger (get id st)))
      (lg_prefix (cl_Logger (get id st)))
      (lg_flags (cl_Logger (get id st)))
      (if decide (id = liRaw) then s else (d +:+ s)%string) in
  let wrote (d : string) (st' : Log.State) :=
    written st' = written st ++ [line d] in
  wrote logDelimNormal (log id s st) /\
  (quiet (verbose id s st) \/ wrote logDelimVerbose (verbose id s st)) /\
  (quiet (trace id s st) \/ wrote logDelimTrace (trace id s st)) /\
  (quiet (verbose id s st) -> quiet (trace id s st)) /\
  (quiet (trace id s st)
   <-> areOptionsParsed st = true /\ isTraceLog st = false) /\
  (quiet (verbose id s st)
   <-> areOptionsParsed st = true /\ isTraceLog st = false /\
       isVerboseLog st = false).
Proof.
  intros quiet line wrote.
  assert (Hout : forall d, d <> EmptyString ->
            wrote d (output id d s st)).
  { intros d Hd. subst wrote line. cbn. unfold output, Print. cbn.
    destruct d; [done|]. cbn. by repeat case_decide. }
  assert (Hnq : forall d, d <> EmptyString -> ~ quiet (output id d s st)).
  { intros d Hd Hq. specialize (Hout d Hd). subst quiet wrote. cbn in *.
    rewrite Hout in Hq. apply (f_equal length) in Hq.
    rewrite length_app in Hq. cbn in Hq. lia. }
  assert (Hn : logDelimNormal <> EmptyString) by done.
  assert (Hv : logDelimVerbose <> EmptyString) by done.
  assert (Ht : logDelimTrace <> EmptyString) by done.
  unfold log, verbose, trace.
  destruct (isVerboseLog st), (isTraceLog st), (areOptionsParsed st);
    cbn [orb negb];
    (split; [by apply Hout|]);
    (split; [first [by left | right; by apply Hout]|]);
    (split; [first [by left | right; by apply Hout]|]);
    (split; [first [done | intros Hq; by apply Hnq in Hq]|]);
    split; split;
    first [ done
          | intros Hq; by apply Hnq in Hq
          | by intros (? & ?)
          | by intros (? & ? & ?) ].
Qed.

Lemma output_get (id id' : LogID) (d s : string) (st : State) :
  get id' (output id d s st) = get id' st /\
  isTraceLog (output id d s st) = isTraceLog st /\
  isCLIMode (output id d s st) = isCLIMode st /\
  exited (output id d s st) = exited st.
Proof. unfold output, Print. by destruct id'. Qed.

Lemma set_exited_get (id : LogID) (c : Z) (st : State) :
  get id (set_exited c st) = get id st.
Proof. by destruct id. Qed.

(** The lines a sequence of calls of [log] on one logger writes. *)
Lemma log_each (id : LogID) (msgs : list string) :
  forall st,
    let st' := foldl (fun st m => log id m st) st msgs in
    (forall id', get id' st' = get id' st) /\
    isCLIMode st' = isCLIMode st /\ exited st' = exited st /\
    exists lines,
      written st' = written st ++ lines /\ length lines = length msgs /\
      Forall (fun ln => ln_out ln = lg_out (cl_Logger (get id st))) lines.
Proof.
  induction msgs as [|m msgs IH]; intros st.
  - cbn. repeat split. exists []. by rewrite app_nil_r.
  - cbn [foldl].
    destruct (IH (log id m st)) as (Hg & Hc & He & ls & Hw & Hl & Hf).
    destruct (output_written id logDelimNormal m st) as (text & Ho & _).
    change (output id logDelimNormal m st) with (log id m st) in Ho.
    destruct (output_get id id logDelimNormal m st) as (Gid & _ & Gc & Ge).
    change (output id logDelimNormal m st) with (log id m st) in Gid, Gc, Ge.
    cbv zeta. split; [|split; [|split]].
    + intros id'. rewrite (Hg id').
      apply (output_get id id' logDelimNormal m st).
    + by rewrite Hc.
    + by rewrite He.
    + eexists (_ :: ls). split; [|split].
      * rewrite Hw, Ho. cbn [written set_written].
        rewrite <- app_assoc. reflexivity.
      * cbn. by rewrite Hl.
      * constructor; [done|]. by rewrite Gid in Hf.
Qed.

(** X17: [die] writes to the console.  Whatever writer the logger was
    redirected to, the lines [die] writes go to the console of the logger:
    none for the usage code, else the message after the normal delimiter
    and, when asked for in a trace session, one line per line of the stack
    but the last.  The logger stays on its console, the other loggers are
    not touched, the program is in CLI mode, and the process exits with
    the code given. *)
Theorem die_writes_to_the_console (id : LogID) (isUsage : bool)
    (msg : string) (code : Z) (tr : bool) (res : list string)
    (frame : nat -> string -> string) (st : Log.State) :
  coherent (get id st) ->
  let st' := die id isUsage msg code tr res frame st in
  exited st' = Some code /\ isCLIMode st' = true /\
  cl_writer (get id st') = cl_console (get id st) /\
  (forall id', id' <> id -> get id' st' = get id' st) /\
  exists lines,
    written st' = written st ++ lines /\
    Forall (fun ln => ln_out ln = cl_console (get id st)) lines /\
    length lines
    = (if isUsage then 0
       else 1 + if tr && isTraceLog st then length res - 1 else 0)%nat /\
    (isUsage = false ->
     ln_text <$> head lines
     = Some (if decide (id = liRaw) then msg
             else (logDelimNormal +:+ msg)%string)).
Proof.
  intros Hco st'. subst st'. unfold die, resetWriter.
  set (c := cl_console (get id st)).
  set (s1 := set_isCLIMode true (setWriter id c st)).
  assert (Hg1 : forall id', get id' s1
                = if decide (id' = id)
                  then {| cl_prefix := cl_prefix (get id st);
                          cl_console := c; cl_writer := c;
                          cl_Logger := mkLogger c (cl_prefix (get id st))
                                         (lg_flags (cl_Logger (get id st))) |}
                  else get id' st).
  { intros id'. transitivity (get id' (setWriter id c st));
      [by destruct id'|]. subst c. by apply setWriter_get. }
  destruct (setWriter_rest id c st) as (_ & Rt & _ & _ & Rw & _).
  assert (Hw1 : written s1 = written st) by exact Rw.
  assert (Ht1 : isTraceLog s1 = isTraceLog st) by exact Rt.
  assert (Hc1 : isCLIMode s1 = true) by reflexivity.
  assert (Hid : get id s1
                = {| cl_prefix := cl_prefix (get id st);
                     cl_console := c; cl_writer := c;
                     cl_Logger := mkLogger c (cl_prefix (get id st))
                                    (lg_flags (cl_Logger (get id st))) |}).
  { rewrite (Hg1 id). by apply decide_True. }
  assert (Hoth : forall id', id' <> id -> get id' s1 = get id' st).
  { intros id' Hne. rewrite (Hg1 id'). by apply decide_False. }
  clearbody s1. clear Hg1 Rt Rw.
  destruct isUsage; cbn [negb].
  - split; [reflexivity|]. split; [exact Hc1|].
    split; [by rewrite set_exited_get, Hid|].
    split; [intros id' Hne; rewrite set_exited_get; by apply Hoth|].
    exists []. split; [by rewrite app_nil_r|]. by repeat split.
  - destruct (output_written id EmptyString msg s1)
      as (text & Ho & Hraw & Hnot).
    destruct (output_get id id EmptyString msg s1) as (Gid & Gt & Gc & _).
    assert (Hg2 : forall id', get id' (output id EmptyString msg s1)
                              = get id' s1).
    { intros id'. apply output_get. }
    assert (Hw2 : written (output id EmptyString msg s1)
                  = written st
                    ++ [mkLine c (cl_prefix (get id st))
                          (lg_flags (cl_Logger (get id st))) text]).
    { rewrite Ho. cbn [written set_written]. by rewrite Hid, Hw1. }
    assert (Htext : text = if decide (id = liRaw) then msg
                           else (logDelimNormal +:+ msg)%string).
    { case_decide as Hr; [by apply Hraw|]. by rewrite (Hnot Hr). }
    rewrite Gt, Ht1.
    set (s2 := output id EmptyString msg s1) in *.
    clearbody s2. clear Ho Hraw Hnot.
    destruct (tr && isTraceLog st) eqn:Htr.
    + unfold logStackTrace.
      rewrite <- (foldl_fmap (fun st m => log id m st) s2
                    (imap (fun n s => (n, s)) (removelast res))
                    (fun ns : nat * string => frame ns.1 ns.2)).
      destruct (log_each id
                  ((fun ns : nat * string => frame ns.1 ns.2)
                     <$> imap (fun n s => (n, s)) (removelast res)) s2)
        as (Hg3 & Hc3 & _ & ls & Hw3 & Hl3 & Hf3).
      cbv zeta in Hg3, Hc3, Hw3.
      set (s3 := foldl (fun st m => log id m st) s2 _) in *.
      clearbody s3.
      split; [reflexivity|].
      split; [change (isCLIMode s3 = true); by rewrite Hc3, Gc|].
      split; [by rewrite set_exited_get, Hg3, Hg2, Hid|].
      split.
      { intros id' Hne. rewrite set_exited_get, Hg3, Hg2. by apply Hoth. }
      exists (mkLine c (cl_prefix (get id st))
                (lg_flags (cl_Logger (get id st))) text :: ls).
      split; [|split; [|split]].
      * change (written (set_exited code s3)) with (written s3).
        rewrite Hw3, Hw2, <- app_assoc. reflexivity.
      * constructor; [done|]. by rewrite Hg2, Hid in Hf3.
      * cbn [length]. rewrite Hl3, length_fmap, length_imap.
        f_equal. clear. induction res as [|a [|b res] IH]; cbn in *; lia.
      * intros _. cbn. by rewrite Htext.
    + split; [reflexivity|].
      split; [change (isCLIMode s2 = true); by rewrite Gc|].
      split; [by rewrite set_exited_get, Hg2, Hid|].
      split.
      { intros id' Hne. rewrite set_exited_get, Hg2. by apply Hoth. }
      exists [mkLine c (cl_prefix (get id st))
                (lg_flags (cl_Logger (get id st))) text].
      split; [exact Hw2|]. split; [by constructor|].
      split; [done|]. intros _. cbn. by rewrite Htext.
Qed.

End LogFacts.

Lemma die_writes_to_the_console_witness :
  let st := Log.setWriterAll (OtherWriter 0) Log.initial in
  let st' := Log.die liError false "no valid libraries provided" 3 false []
               (fun _ s => s) st in
  Log.exited st' = Some 3 /\
  cl_writer (Log.get liError st') = Stderr.
Proof.
  intros st st'.
  destruct (die_writes_to_the_console liError false
              "no valid libraries provided" 3 false [] (fun _ s => s) st)
    as (H1 & _ & H3 & _).
  - vm_compute. by split.
  - split; [exact H1 | exact H3].
Defined.
